(** * EmbeddingIndex (client-vector-search, src/index.ts): a shallow embedding

    The development follows the source file top-down:
    - [JSNumber]: JavaScript numbers as IEEE-754 binary64 values, with the
      comparison operators the search loop uses;
    - [value], [Filter], [heap]: JavaScript values, plain objects and the store
      of mutable record objects the index holds references into;
    - [FastPriorityQueue]: the array-backed binary heap the search uses;
    - [EmbeddingIndex]: the class state and its methods, written in a small
      state-and-exception monad;
    - the theorems about them. *)

From Stdlib Require Import ZArith Lia ZifyNat Bool String List.
From Stdlib Require Import Floats.SpecFloat.
From stdpp Require Import base tactics option list list_relations functions
  gmap strings sorting.

Local Open Scope string_scope.
Local Open Scope nat_scope.
Local Open Scope list_scope.

(* ===================================================================== *)
(** ** JavaScript numbers *)
(* ===================================================================== *)

Module JSNumber.

(** A JavaScript number is an IEEE-754 binary64 value: 53 bits of
    precision, infinities at exponent 1024.  NaN carries no payload. *)
Definition number : Type := spec_float.

Definition prec : Z := 53.
Definition emax : Z := 1024.

Definition NaN : number := S754_nan.
Definition of_Z (z : Z) : number := binary_normalize prec emax z 0 false.

Definition add : number → number → number := SFadd prec emax.
Definition mul : number → number → number := SFmul prec emax.
Definition div : number → number → number := SFdiv prec emax.
Definition sqrt : number → number := SFsqrt prec emax.

(** [a < b] and [a > b] on numbers; both are false when an operand is
    NaN. *)
Definition lt (a b : number) : bool := SFltb a b.
Definition gt (a b : number) : bool := SFltb b a.
(** [a === b] on numbers: NaN differs from itself, +0 equals -0. *)
Definition eq (a b : number) : bool := SFeqb a b.

Definition is_nan (a : number) : bool :=
  match a with S754_nan => true | _ => false end.

(** A position on the extended line for every number but NaN: the class
    (-inf, negative, zero, positive, +inf) first, then exponent and
    mantissa, mirrored for negative numbers.  [SFcompare] is the
    lexicographic comparison of these positions. *)
Definition position (a : number) : Z * Z * Z :=
  match a with
  | S754_nan => (0, 0, 0)
  | S754_infinity true => (-2, 0, 0)
  | S754_infinity false => (2, 0, 0)
  | S754_zero _ => (0, 0, 0)
  | S754_finite true m e => (-1, - e, - Z.pos m)
  | S754_finite false m e => (1, e, Z.pos m)
  end%Z.

Definition before (p q : Z * Z * Z) : Prop :=
  let '(a, b, c) := p in
  let '(a', b', c') := q in
  (a < a' ∨ (a = a' ∧ (b < b' ∨ (b = b' ∧ c < c'))))%Z.

End JSNumber.

Import JSNumber.

(* ===================================================================== *)
(** ** Values, objects and the object store *)
(* ===================================================================== *)

(** Identity of a JavaScript object (or array): two references are [===]
    exactly when they denote the same object. *)
Definition loc : Type := nat.

(** The values a record attribute can hold: data.  An array carries its
    identity and its elements; no method of the index writes to an array,
    so the elements are kept with the reference.  Any other object is an
    opaque reference to an object that is not a function.  Functions, and
    with them the built-in members of [Object.prototype], are not
    attribute values: see [property] below for what reading one gives. *)
#[warnings="-register-all"]
Inductive value : Type :=
| VUndefined
| VNull
| VBoolean (b : bool)
| VNumber (x : number)
| VString (s : string)
| VArray (id : loc) (elems : list value)
| VObject (id : loc).

(** A plain object, of the source's type [Filter]
    ([{ [key: string]: any }], used for records, filters and patches): its
    own properties, which are enumerable data properties.  Its prototype
    is [Object.prototype], whose members it inherits.  The order of
    enumeration is not modelled, the source only uses the keys through
    [every]. *)
Abbreviation Filter := (gmap string value).

(** The names of the members of [Object.prototype], as the language
    defines them (with those of its annex for browsers): every plain
    object inherits them. *)
Definition Object_prototype : list string :=
  [ "constructor"; "hasOwnProperty"; "isPrototypeOf";
    "propertyIsEnumerable"; "toLocaleString"; "toString"; "valueOf";
    "__proto__"; "__defineGetter__"; "__defineSetter__";
    "__lookupGetter__"; "__lookupSetter__" ].

Definition inherited (key : string) : bool :=
  bool_decide (key ∈ Object_prototype).

(** What reading a property gives: a data value, or a built-in member of
    [Object.prototype] (a function or, under [__proto__], the prototype
    itself), which is [===] to no data value. *)
Inductive property : Type :=
| Data (v : value)
| Builtin (name : string).

(** Record objects are mutable and shared by reference ([Object.assign]
    writes into the object the store points to), so they live in a heap. *)
Abbreviation heap := (loc → Filter).

(** [o[key]]: the own property when there is one, otherwise the member
    of [Object.prototype] of that name, otherwise [undefined]. *)
Definition get_prop (o : Filter) (key : string) : property :=
  match o !! key with
  | Some v => Data v
  | None => if inherited key then Builtin key else Data VUndefined
  end.

(** [o.embedding]: no member of [Object.prototype] has this name, so the
    read gives the own property or [undefined]. *)
Definition embedding_of (o : Filter) : value :=
  default VUndefined (o !! "embedding").

(** [Object.prototype.hasOwnProperty] applied to [o] and [key]. *)
Definition has_own (o : Filter) (key : string) : bool :=
  bool_decide (is_Some (o !! key)).

(** [key in o]: an own property or an inherited one. *)
Definition has_prop (o : Filter) (key : string) : bool :=
  has_own o key || inherited key.

(** [Object.keys(o)]. *)
Definition Object_keys (o : Filter) : list string := (map_to_list o).*1.

(** [Object.assign(target, source)]: every own property of [source] is
    assigned to [target], the other properties of [target] stay.  An
    assignment creates or overwrites an own property of [target], except
    under the name [__proto__] when [target] has no own property of that
    name: [Object.prototype] defines it with a setter, which takes the
    assignment and creates no property.  (The setter may give [target]
    another prototype; the model has no such slot, and reads [target] as
    an object that inherits from [Object.prototype].) *)
Definition Object_assign (target source : Filter) : Filter :=
  (if has_own target "__proto__" then source else delete "__proto__" source)
  ∪ target.

(** [a === b]. *)
Definition strict_eq (a b : value) : bool :=
  match a, b with
  | VUndefined, VUndefined => true
  | VNull, VNull => true
  | VBoolean x, VBoolean y => Bool.eqb x y
  | VNumber x, VNumber y => JSNumber.eq x y
  | VString s, VString t => String.eqb s t
  | VArray i _, VArray j _ => Nat.eqb i j
  | VObject i, VObject j => Nat.eqb i j
  | _, _ => false
  end.

(** [Array.isArray(v)]. *)
Definition Array_isArray (v : value) : bool :=
  match v with VArray _ _ => true | _ => false end.

(** [o[key] === v] for a data value [v]. *)
Definition prop_strict_eq (o : Filter) (key : string) (v : value) : bool :=
  match get_prop o key with
  | Data u => strict_eq u v
  | Builtin _ => false
  end.

(** [Object.keys(filter).every((key) => o[key] === filter[key])]: the match
    rule of [findVectorIndex] and of both search loops. *)
Definition matches (filter o : Filter) : bool :=
  forallb (λ kv, prop_strict_eq o kv.1 kv.2) (map_to_list filter).

(** The functions the source imports or takes from the runtime and that
    are not part of it: the numeric coercion of strings and objects (the
    string grammar and [ToPrimitive] of the language) and
    [cosineSimilarity] from [./utils]. *)
Class Builtins : Type := {
  ToNumber_other : value → number;
  cosineSimilarity : value → value → number
}.

Section Coercion.
Context `{Builtins}.

(** [Number(v)], as [isNaN] applies it to its argument. *)
Definition ToNumber (v : value) : number :=
  match v with
  | VUndefined => NaN
  | VNull => of_Z 0
  | VBoolean b => if b then of_Z 1 else of_Z 0
  | VNumber x => x
  | VString _ | VArray _ _ | VObject _ => ToNumber_other v
  end.

(** The global [isNaN]. *)
Definition isNaN (v : value) : bool := is_nan (ToNumber v).

End Coercion.

(* ===================================================================== *)
(** ** FastPriorityQueue *)
(* ===================================================================== *)

(** Modelled from the spec: the queue is the [FastPriorityQueue] of the
    [fastpriorityqueue] package, which the source imports (line 1) and
    which is not among the sources.  Section 4.3 of the specification
    calls it "a bounded min-ordered structure keyed by score (lowest score
    is the eviction candidate)", drained "in ascending order", with ties
    "broken by arrival/internal structure order".  The structure of the
    package is a binary heap laid out in an array, ordered by the
    comparator the caller gives ([compare a b] when [a] is to leave the
    queue before [b]); the definitions below follow its methods [add],
    [peek], [poll], [_percolateDown] and [isEmpty].  The package keeps an
    array and a [size]; the slots at and after [size] are never read, so
    the queue is modelled by its live slots, and [size] is their
    number. *)
Module FastPriorityQueue.
Section Queue.
Context {A : Type}.
Variable compare : A → A → bool.

Definition size (array : list A) : nat := length array.
Definition isEmpty (array : list A) : bool := Nat.eqb (size array) 0.
(** [peek()]: the first slot, [undefined] on an empty queue. *)
Definition peek (array : list A) : option A := array !! 0.

(** The loop of [add]: [myval] travels from slot [i] towards the root
    while it compares before its parent; parents are shifted down into
    the slot left behind, and [myval] is written once at the end.  The
    index halves at every turn, so [i] turns are enough. *)
Fixpoint percolateUp (turns : nat) (myval : A) (i : nat) (array : list A)
  : list A :=
  match turns with
  | O => <[i := myval]> array
  | S turns' =>
    if Nat.eqb i 0 then <[i := myval]> array
    else
      let p := (i - 1) / 2 in
      match array !! p with
      | Some ap =>
        if negb (compare myval ap) then <[i := myval]> array
        else percolateUp turns' myval p (<[i := ap]> array)
      | None => <[i := myval]> array
      end
  end.

(** [add(myval)]. *)
Definition add (myval : A) (array : list A) : list A :=
  let i := size array in
  percolateUp i myval i (array ++ [myval]).

(** The loop of [_percolateDown]: the value [ai] taken at slot [i] sinks
    while its smaller child compares before it.  The index at least
    doubles at every turn, so [size] turns are enough. *)
Fixpoint percolateDown_loop (turns : nat) (ai : A) (i : nat)
  (array : list A) : list A :=
  match turns with
  | O => <[i := ai]> array
  | S turns' =>
    if negb (Nat.ltb i (size array / 2)) then <[i := ai]> array
    else
      let l := 2 * i + 1 in
      let r := l + 1 in
      match array !! l with
      | Some al =>
        let '(l, bestc) :=
          match array !! r with
          | Some ar => if compare ar al then (r, ar) else (l, al)
          | None => (l, al)
          end in
        if negb (compare bestc ai) then <[i := ai]> array
        else percolateDown_loop turns' ai l (<[i := bestc]> array)
      | None => <[i := ai]> array
      end
  end.

(** [_percolateDown(i)]. *)
Definition percolateDown (i : nat) (array : list A) : list A :=
  match array !! i with
  | Some ai => percolateDown_loop (size array) ai i array
  | None => array
  end.

(** [poll()]: the first slot is returned; the last slot takes its place
    and sinks. *)
Definition poll (array : list A) : option A * list A :=
  match array with
  | [] => (None, [])
  | ans :: _ =>
    if Nat.ltb 1 (size array) then
      match last array with
      | Some final =>
        (Some ans, percolateDown 0 (<[0 := final]> (removelast array)))
      | None => (Some ans, [])
      end
    else (Some ans, [])
  end.

(** [while (!queue.isEmpty()) results.push(queue.poll())]: the queue
    shrinks by one at every turn, so [size] turns empty it. *)
Fixpoint drain_loop (turns : nat) (array : list A) : list A :=
  match turns with
  | O => []
  | S turns' =>
    if isEmpty array then []
    else
      match poll array with
      | (Some x, array') => x :: drain_loop turns' array'
      | (None, _) => []
      end
  end.

Definition drain (array : list A) : list A := drain_loop (size array) array.

(** The heap order of the array: no slot compares before its parent.
    Slot [i > 0] has its parent at [(i - 1) / 2]. *)
Definition heap_ordered (array : list A) : Prop :=
  ∀ i x y, 0 < i → array !! i = Some x → array !! ((i - 1) / 2) = Some y →
    compare x y = false.

(** The order while a value climbs through slot [i] ([add]): every slot
    but [i] respects its parent, and the children of [i] respect the
    parent of [i]. *)
Definition ordered_but_up (array : list A) (i : nat) : Prop :=
  (∀ j x y, 0 < j → j ≠ i →
     array !! j = Some x → array !! ((j - 1) / 2) = Some y →
     compare x y = false) ∧
  (∀ c x y, 0 < i → 0 < c → (c - 1) / 2 = i →
     array !! c = Some x → array !! ((i - 1) / 2) = Some y →
     compare x y = false).

(** The order while a value sinks through slot [i] ([poll]): every slot
    but the children of [i] respects its parent, and the children of [i]
    respect the parent of [i]. *)
Definition ordered_but_down (array : list A) (i : nat) : Prop :=
  (∀ j x y, 0 < j → (j - 1) / 2 ≠ i →
     array !! j = Some x → array !! ((j - 1) / 2) = Some y →
     compare x y = false) ∧
  (∀ c x y, 0 < i → 0 < c → (c - 1) / 2 = i →
     array !! c = Some x → array !! ((i - 1) / 2) = Some y →
     compare x y = false).

(** A list in which no element compares before an earlier one. *)
Definition ascending (l : list A) : Prop :=
  ∀ i j x y, i < j → l !! i = Some x → l !! j = Some y → compare y x = false.

End Queue.
End FastPriorityQueue.

(* ===================================================================== *)
(** ** The state of the program and its monad *)
(* ===================================================================== *)

(** The errors the source throws, one constructor per message:
    - [InvalidEmbedding]: 'Object must have an embedding property of type
      number[]';
    - [SchemaMismatch]: 'Object must have the same properties as the
      initial objects';
    - [VectorNotFound]: 'Vector not found';
    - [IndexedDBNotSupported]: 'IndexedDB is not supported';
    - [IndexedDBUndefined]: the ReferenceError of reading the missing
      global [indexedDB];
    - [OpenFailed]: 'Failed to open database for preloading';
    - [ObjectStoreNotFound]: 'Object store ... not found.';
    - [FetchFailed]: 'Failed to fetch data during preload';
    - [PreloadCacheNull]: 'Preload completed but cache is still null.';
    - [NotAFunction]: the TypeError of the runtime when
      [vector.hasOwnProperty] is called and is not a function. *)
Inductive error : Type :=
| InvalidEmbedding
| SchemaMismatch
| VectorNotFound
| IndexedDBNotSupported
| IndexedDBUndefined
| OpenFailed
| ObjectStoreNotFound
| FetchFailed
| PreloadCacheNull
| NotAFunction.

(** The kinds of failure the specification distinguishes, and the
    TypeError of the runtime, which it does not mention. *)
Inductive error_kind : Type :=
| ValidationError | NotFoundError | StorageUnavailable | StorageFailure
| RuntimeTypeError.

Definition kind_of (e : error) : error_kind :=
  match e with
  | InvalidEmbedding | SchemaMismatch => ValidationError
  | VectorNotFound => NotFoundError
  | IndexedDBNotSupported | IndexedDBUndefined => StorageUnavailable
  | OpenFailed | ObjectStoreNotFound | FetchFailed | PreloadCacheNull =>
    StorageFailure
  | NotAFunction => RuntimeTypeError
  end.

(** The fields of an [EmbeddingIndex]. *)
Record EmbeddingIndex : Type := {
  objects : list loc;
  keys : list string;
  indexedDBDataCache : option (list Filter);
  preloadedDBName : option string;
  preloadedObjectStoreName : option string
}.

(** What an attempt to read a whole object store ends in: the three
    [reject] branches of the promise in [preloadIndexedDB], or [resolve]
    with the records. *)
Inductive fetch_outcome : Type :=
| open_onerror
| objectStore_missing
| getAll_onerror
| getAll_onsuccess (records : list Filter).

(** Everything a method can read or write: the record objects, the index
    itself, the global [indexedDB] (absent in some environments), and the
    object stores the index has asked to read so far (one entry for every
    run of the promise in [preloadIndexedDB]), latest first. *)
Record world : Type := {
  mem : heap;
  this : EmbeddingIndex;
  indexedDB : option (string → string → fetch_outcome);
  fetched : list (string * string)
}.

Inductive completion (A : Type) : Type :=
| Normal (a : A)
| Throw (e : error).
Arguments Normal {A} a.
Arguments Throw {A} e.

(** A method: it runs in a world, completes normally or throws, and
    leaves a world behind either way. *)
Definition M (A : Type) : Type := world → completion A * world.

Definition ret {A} (a : A) : M A := λ w, (Normal a, w).
Definition throw {A} (e : error) : M A := λ w, (Throw e, w).
Definition bind {A B} (m : M A) (k : A → M B) : M B :=
  λ w, match m w with
       | (Normal a, w') => k a w'
       | (Throw e, w') => (Throw e, w')
       end.
(** [try { m } catch (error) { handler }]. *)
Definition try_catch {A} (m : M A) (handler : error → M A) : M A :=
  λ w, match m w with
       | (Normal a, w') => (Normal a, w')
       | (Throw e, w') => handler e w'
       end.

Declare Scope js_scope.
Delimit Scope js_scope with js.
Notation "'let!' x ':=' m 'in' k" := (bind m (λ x, k))
  (at level 10, x name, m at level 100, k at level 200) : js_scope.
Notation "m ';;;' k" := (bind m (λ _, k))
  (at level 100, k at level 200, right associativity) : js_scope.
Local Open Scope js_scope.

Definition with_this (t : EmbeddingIndex) (w : world) : world :=
  {| mem := mem w; this := t; indexedDB := indexedDB w;
     fetched := fetched w |}.
Definition with_mem (m : heap) (w : world) : world :=
  {| mem := m; this := this w; indexedDB := indexedDB w;
     fetched := fetched w |}.
Definition with_fetched (l : list (string * string)) (w : world) : world :=
  {| mem := mem w; this := this w; indexedDB := indexedDB w; fetched := l |}.

Definition read {A} (f : world → A) : M A := λ w, (Normal (f w), w).
Definition write_this (f : EmbeddingIndex → EmbeddingIndex) : M unit :=
  λ w, (Normal tt, with_this (f (this w)) w).
Definition write_mem (f : heap → heap) : M unit :=
  λ w, (Normal tt, with_mem (f (mem w)) w).
Definition note_fetch (DBname objectStoreName : string) : M unit :=
  λ w, (Normal tt, with_fetched ((DBname, objectStoreName) :: fetched w) w).

Definition set_objects (os : list loc) (t : EmbeddingIndex) : EmbeddingIndex :=
  {| objects := os; keys := keys t;
     indexedDBDataCache := indexedDBDataCache t;
     preloadedDBName := preloadedDBName t;
     preloadedObjectStoreName := preloadedObjectStoreName t |}.
Definition set_keys (ks : list string) (t : EmbeddingIndex) : EmbeddingIndex :=
  {| objects := objects t; keys := ks;
     indexedDBDataCache := indexedDBDataCache t;
     preloadedDBName := preloadedDBName t;
     preloadedObjectStoreName := preloadedObjectStoreName t |}.
Definition set_cache (cache : option (list Filter)) (db os : option string)
  (t : EmbeddingIndex) : EmbeddingIndex :=
  {| objects := objects t; keys := keys t;
     indexedDBDataCache := cache;
     preloadedDBName := db;
     preloadedObjectStoreName := os |}.

(** [list.forEach(f)]. *)
Fixpoint forEach {A} (f : A → M unit) (l : list A) : M unit :=
  match l with
  | [] => ret tt
  | x :: l' => f x ;;; forEach f l'
  end.

(** [list.findIndex(p)], with [None] for -1. *)
Fixpoint findIndex {A} (p : A → bool) (l : list A) : option nat :=
  match l with
  | [] => None
  | x :: l' => if p x then Some 0 else S <$> findIndex p l'
  end.

(** [v.some(f)] for an array [v]. *)
Definition Array_some (f : value → bool) (v : value) : bool :=
  match v with
  | VArray _ elems => existsb f elems
  | _ => false
  end.

(* ===================================================================== *)
(** ** EmbeddingIndex: the record store *)
(* ===================================================================== *)

Section RecordStore.
Context `{Builtins}.

(** [findVectorIndex(filter)]. *)
Definition findVectorIndex (filter : Filter) : M (option nat) :=
  read (λ w, findIndex (λ object, matches filter (mem w object))
               (objects (this w))).

(** [validateAndAdd(obj)]; [o] is the reference the caller passes and
    [obj] the object it denotes. *)
Definition validateAndAdd (o : loc) : M unit :=
  let! obj := read (λ w, mem w o) in
  if negb (Array_isArray (embedding_of obj))
     || Array_some isNaN (embedding_of obj)
  then throw InvalidEmbedding
  else
    let! ks := read (λ w, keys (this w)) in
    (if Nat.eqb (length ks) 0 then
       write_this (set_keys (Object_keys obj))
     else if negb (forallb (λ key, has_prop obj key) ks) then
       throw SchemaMismatch
     else ret tt) ;;;
    write_this (λ t, set_objects (objects t ++ [o]) t).

(** [add(obj)]. *)
Definition add (o : loc) : M unit := validateAndAdd o.

(** [vector.hasOwnProperty(key)]: the method is looked up on the patch
    itself.  A patch without an own property of that name inherits the
    built-in, which tests for an own property; an own property holds a
    data value, and calling it raises a TypeError. *)
Definition call_hasOwnProperty (vector : Filter) (key : string) : M bool :=
  match get_prop vector "hasOwnProperty" with
  | Builtin _ => ret (has_own vector key)
  | Data _ => throw NotAFunction
  end.

(** [update(filter, vector)]; the filter is only read, the patch
    [vector] is a reference (it is handed to [validateAndAdd]). *)
Definition update (filter : Filter) (vector : loc) : M unit :=
  let! index := findVectorIndex filter in
  match index with
  | None => throw VectorNotFound
  | Some index =>
    let! patch := read (λ w, mem w vector) in
    let! has_embedding := call_hasOwnProperty patch "embedding" in
    (if has_embedding then validateAndAdd vector else ret tt) ;;;
    let! target := read (λ w, objects (this w) !! index) in
    match target with
    | Some target =>
      write_mem (λ m,
        <[target := Object_assign (m target) (m vector)]> m) ;;;
      write_this (λ t, set_objects (<[index := target]> (objects t)) t)
    | None => ret tt
    end
  end.

(** [remove(filter)]. *)
Definition remove (filter : Filter) : M unit :=
  let! index := findVectorIndex filter in
  match index with
  | None => throw VectorNotFound
  | Some index =>
    write_this (λ t, set_objects (delete index (objects t)) t)
  end.

(** [removeBatch(filters)]. *)
Definition removeBatch (filters : list Filter) : M unit :=
  forEach (λ filter,
    let! index := findVectorIndex filter in
    match index with
    | Some index =>
      write_this (λ t, set_objects (delete index (objects t)) t)
    | None => ret tt
    end) filters.

(** [get(filter)]: the record found, or [null] ([None]). *)
Definition get (filter : Filter) : M (option loc) :=
  let! index := findVectorIndex filter in
  read (λ w, match index with
             | Some index => objects (this w) !! index
             | None => None
             end).

(** [size()]. *)
Definition size : M nat := read (λ w, length (objects (this w))).

(** [clear()]. *)
Definition clear : M unit := write_this (set_objects []).

(** One of the two identical blocks of the constructor. *)
Definition constructor_block (initialObjects : option (list loc)) : M unit :=
  write_this (set_objects []) ;;;
  write_this (set_keys []) ;;;
  match initialObjects with
  | Some initialObjects =>
    if Nat.ltb 0 (length initialObjects) then
      forEach validateAndAdd initialObjects ;;;
      match initialObjects !! 0 with
      | Some first =>
        let! obj := read (λ w, mem w first) in
        write_this (set_keys (Object_keys obj))
      | None => ret tt
      end
    else ret tt
  | None => ret tt
  end.

(** [new EmbeddingIndex(initialObjects)]: the field initialisers, the
    block twice, and the cache fields once more. *)
Definition constructor (initialObjects : option (list loc)) : M unit :=
  write_this (set_cache None None None) ;;;
  constructor_block initialObjects ;;;
  constructor_block initialObjects ;;;
  write_this (set_cache None None None).

End RecordStore.

(* ===================================================================== *)
(** ** EmbeddingIndex: the preloaded cache and the search *)
(* ===================================================================== *)

Definition DEFAULT_TOP_K : Z := 3.

Inductive StorageOptions : Type := indexedDB_ | localStorage_ | none_.

Record storageOptions_t : Type := {
  indexedDBName : string;
  indexedDBObjectStoreName : string
}.

(** [SearchOptions]; an absent field is [None].  [topK] counts results:
    it is modelled as an integer (fractions and NaN are left out). *)
Record SearchOptions : Type := {
  topK : option Z;
  filter : option Filter;
  useStorage : option StorageOptions;
  storageOptions : option storageOptions_t
}.

(** What a search result points to: a record of the index, or a record of
    the preloaded snapshot.  The records of a snapshot are kept by their
    contents, apart from the record objects of the heap: the model
    follows the clients that do not hand an object taken from the result
    of a search over storage back to [add] or [update]. *)
Inductive record_ref : Type :=
| InIndex (o : loc)
| InSnapshot (record : Filter).

Record SearchResult : Type := {
  similarity : number;
  object : record_ref
}.

(** The comparator both searches give the queue:
    [(a, b) => a.similarity < b.similarity]. *)
Definition by_similarity (a b : SearchResult) : bool :=
  JSNumber.lt (similarity a) (similarity b).

(** The queue operations of one candidate (lines 323-328 and 451-459):
    added while the queue holds fewer than [topK], otherwise it takes the
    place of the head of the queue when its similarity is greater. *)
Definition offer (topK : Z) (candidate : SearchResult)
  (queue : list SearchResult) : list SearchResult :=
  if (Z.of_nat (FastPriorityQueue.size queue) <? topK)%Z then
    FastPriorityQueue.add by_similarity candidate queue
  else
    match FastPriorityQueue.peek queue with
    | Some peeked =>
      if JSNumber.gt (similarity candidate) (similarity peeked) then
        FastPriorityQueue.add by_similarity candidate
          (FastPriorityQueue.poll by_similarity queue).2
      else queue
    | None => queue
    end.

(** The end of both searches: the queue is emptied into [results], which
    is reversed. *)
Definition results_of (queue : list SearchResult) : list SearchResult :=
  reverse (FastPriorityQueue.drain by_similarity queue).

(** [s || d] for an optional string: absent and empty both give [d]. *)
Definition string_or (s : option string) (d : string) : string :=
  match s with
  | Some s => if String.eqb s "" then d else s
  | None => d
  end.

Section Search.
Context `{Builtins}.

(** [clearIndexedDBCache()]. *)
Definition clearIndexedDBCache : M unit :=
  let! cache := read (λ w, indexedDBDataCache (this w)) in
  match cache with
  | Some _ => write_this (set_cache None None None)
  | None => ret tt
  end.

(** The promise awaited in [preloadIndexedDB]: it opens the database and
    reads the whole object store, and is rejected on any failure. *)
Definition fetchedObjects (DBname objectStoreName : string)
  : M (list Filter) :=
  let! idb := read indexedDB in
  match idb with
  | None => throw IndexedDBUndefined
  | Some idb =>
    note_fetch DBname objectStoreName ;;;
    match idb DBname objectStoreName with
    | open_onerror => throw OpenFailed
    | objectStore_missing => throw ObjectStoreNotFound
    | getAll_onerror => throw FetchFailed
    | getAll_onsuccess records => ret records
    end
  end.

(** [preloadIndexedDB(DBname, objectStoreName)]. *)
Definition preloadIndexedDB (DBname objectStoreName : string) : M unit :=
  clearIndexedDBCache ;;;
  try_catch
    (let! fetchedObjects := fetchedObjects DBname objectStoreName in
     write_this (set_cache (Some fetchedObjects)
                   (Some DBname) (Some objectStoreName)))
    (λ error, clearIndexedDBCache).

(** The loop of the local search (lines 319-330). *)
Definition local_queue (m : heap) (queryEmbedding : value) (topK : Z)
  (filter : Filter) (objects : list loc) : list SearchResult :=
  fold_left (λ queue o,
    if matches filter (m o) then
      let similarity :=
        cosineSimilarity queryEmbedding (embedding_of (m o)) in
      offer topK {| similarity := similarity; object := InIndex o |} queue
    else queue) objects [].

(** The loop of the search over preloaded records (lines 435-461). *)
Definition snapshot_queue (queryEmbedding : value) (topK : Z)
  (filter : Filter) (objectsToSearch : list Filter) : list SearchResult :=
  fold_left (λ queue record,
    if matches filter record then
      let embedding := embedding_of record in
      if negb (Array_isArray embedding) then queue
      else
        let similarity := cosineSimilarity queryEmbedding embedding in
        offer topK
          {| similarity := similarity; object := InSnapshot record |} queue
    else queue) objectsToSearch [].

(** [isCacheValid] in [loadAndSearchFromIndexedDB]. *)
Definition isCacheValid (DBname objectStoreName : string)
  (t : EmbeddingIndex) : bool :=
  match indexedDBDataCache t with
  | Some _ =>
    bool_decide (preloadedDBName t = Some DBname)
    && bool_decide (preloadedObjectStoreName t = Some objectStoreName)
  | None => false
  end.

(** [loadAndSearchFromIndexedDB(DBname, objectStoreName, queryEmbedding,
    topK, filter)].  [None] for [objectsToSearch] stands for the early
    [return []] of the [catch] block. *)
Definition loadAndSearchFromIndexedDB (DBname objectStoreName : string)
  (queryEmbedding : value) (topK : Z) (filter : Filter)
  : M (list SearchResult) :=
  let! valid := read (λ w, isCacheValid DBname objectStoreName (this w)) in
  let! objectsToSearch :=
    (if negb valid then
       try_catch
         (preloadIndexedDB DBname objectStoreName ;;;
          let! cache := read (λ w, indexedDBDataCache (this w)) in
          match cache with
          | None => throw PreloadCacheNull
          | Some cache => ret (Some cache)
          end)
         (λ error, ret None)
     else read (λ w, indexedDBDataCache (this w))) in
  match objectsToSearch with
  | None => ret []
  | Some objectsToSearch =>
    ret (results_of
           (snapshot_queue queryEmbedding topK filter objectsToSearch))
  end.

(** [search(queryEmbedding, options)]. *)
Definition search (queryEmbedding : value) (options : option SearchOptions)
  : M (list SearchResult) :=
  let options :=
    default {| topK := Some 3%Z; filter := None; useStorage := Some none_;
               storageOptions :=
                 Some {| indexedDBName := "clientVectorDB";
                         indexedDBObjectStoreName :=
                           "ClientEmbeddingStore" |} |}
            options in
  let topK :=
    match topK options with
    | Some k => if Z.eqb k 0 then DEFAULT_TOP_K else k
    | None => DEFAULT_TOP_K
    end in
  let filter := default ∅ (filter options) in
  let useStorage := default none_ (useStorage options) in
  match useStorage with
  | indexedDB_ =>
    let DBname :=
      string_or (indexedDBName <$> storageOptions options)
        "clientVectorDB" in
    let objectStoreName :=
      string_or (indexedDBObjectStoreName <$> storageOptions options)
        "ClientEmbeddingStore" in
    let! idb := read indexedDB in
    match idb with
    | None => throw IndexedDBNotSupported
    | Some _ =>
      loadAndSearchFromIndexedDB DBname objectStoreName queryEmbedding
        topK filter
    end
  | _ =>
    let! queue :=
      read (λ w, local_queue (mem w) queryEmbedding topK filter
                   (objects (this w))) in
    ret (results_of queue)
  end.

End Search.

(* ===================================================================== *)
(** ** The scoring function of the specification, and sample data *)
(* ===================================================================== *)

(** The numbers of a numeric array; anything else in it counts as NaN. *)
Definition numbers_of (v : value) : list number :=
  match v with
  | VArray _ elems =>
    map (λ e, match e with VNumber x => x | _ => NaN end) elems
  | _ => []
  end.

(** The sum of the products, accumulated from 0 along the vectors. *)
Definition dot (a b : list number) : number :=
  fold_left (λ sum xy, JSNumber.add sum (JSNumber.mul xy.1 xy.2))
    (zip a b) (of_Z 0).

Definition norm (a : list number) : number := JSNumber.sqrt (dot a a).

(** Modelled from the spec: [cosineSimilarity] is imported from [./utils],
    which is not among the sources.  Section 4.2 of the specification:
    it "computes dot(a,b) / (norm(a) * norm(b))", and "if either norm is
    zero, the result is undefined (not-a-number)", which is what the
    division gives. *)
Definition cosineSimilarity_spec (a b : value) : number :=
  JSNumber.div (dot (numbers_of a) (numbers_of b))
    (JSNumber.mul (norm (numbers_of a)) (norm (numbers_of b))).

(** The built-ins used to run the examples below.  Their embeddings hold
    numbers and [null] only, so the coercion of strings and objects is
    never consulted. *)
Definition sample_builtins : Builtins :=
  {| ToNumber_other := λ _, NaN;
     cosineSimilarity := cosineSimilarity_spec |}.

(** [[x; y]] as an array of numbers with identity [id]. *)
Definition vec (id : loc) (xs : list Z) : value :=
  VArray id (map (λ x, VNumber (of_Z x)) xs).

(** A world before any index is built: record objects [m], no index
    fields set, the given [indexedDB], nothing fetched. *)
Definition blank : EmbeddingIndex :=
  {| objects := []; keys := []; indexedDBDataCache := None;
     preloadedDBName := None; preloadedObjectStoreName := None |}.

Definition boot (m : heap) (idb : option (string → string → fetch_outcome))
  : world :=
  {| mem := m; this := blank; indexedDB := idb; fetched := [] |}.

(** The heap in which every reference denotes the empty object. *)
Definition no_objects : heap := λ _, ∅.

(* ===================================================================== *)
(** ** The statements about the search *)
(* ===================================================================== *)

(** A similarity that takes part in the order of numbers. *)
Definition comparable (r : SearchResult) : Prop :=
  is_nan (similarity r) = false.

(** Results in descending order of similarity: no result has a smaller
    similarity than a later one (equal similarities in any order). *)
Definition descending (results : list SearchResult) : Prop :=
  ∀ i j a b, i < j → results !! i = Some a → results !! j = Some b →
    JSNumber.lt (similarity a) (similarity b) = false.

(** The candidates of a local search, in the order the loop meets them:
    the records that pass the filter, with their similarity. *)
Definition local_candidates `{Builtins} (m : heap) (queryEmbedding : value)
  (filter : Filter) (objects : list loc) : list SearchResult :=
  map (λ o, {| similarity :=
                 cosineSimilarity queryEmbedding (embedding_of (m o));
               object := InIndex o |})
      (List.filter (λ o, matches filter (m o)) objects).

(** The queue once the loop has gone through [candidates]. *)
Definition queue_after (topK : Z) (candidates : list SearchResult)
  : list SearchResult :=
  fold_left (λ queue c, offer topK c queue) candidates [].

(** How the queue takes each candidate [c], met after the candidates
    [seen]: while it holds fewer than [topK] the candidate joins it;
    otherwise the queue holds a minimum [m] that the candidate replaces
    when its similarity is greater, and is left as it was when not. *)
Definition replacement_policy (topK : Z) (candidates : list SearchResult)
  : Prop :=
  ∀ seen c later, candidates = seen ++ c :: later →
    let queue := queue_after topK seen in
    let queue' := queue_after topK (seen ++ [c]) in
    if decide (Z.of_nat (length queue) < topK)%Z then queue' ≡ₚ c :: queue
    else
      ∃ m rest,
        queue ≡ₚ m :: rest ∧
        (∀ x, x ∈ queue → JSNumber.lt (similarity x) (similarity m) = false) ∧
        if JSNumber.gt (similarity c) (similarity m)
        then queue' ≡ₚ c :: rest
        else queue' = queue.

(** Whether a search with this [useStorage] reads the records of the
    index itself: every value but ['indexedDB'] does, and so does its
    absence. *)
Definition local_source (useStorage : option StorageOptions) : bool :=
  match useStorage with
  | Some indexedDB_ => false
  | _ => true
  end.

(** The options of a search over the records of the index itself. *)
Definition local_options (topK : option Z) (filter : option Filter)
  : option SearchOptions :=
  Some {| topK := topK; filter := filter; useStorage := Some none_;
          storageOptions := None |}.

(** The index [w] when it holds the records [os]. *)
Definition holding (os : list loc) (w : world) : world :=
  with_this (set_objects os (this w)) w.

(** What the local search for the [K] best returns in [w]. *)
Definition local_results `{Builtins} (w : world) (queryEmbedding : value)
  (K : Z) (filter : Filter) : list SearchResult :=
  match (search queryEmbedding (local_options (Some K) (Some filter)) w).1
  with
  | Normal results => results
  | Throw _ => []
  end.

(** How the search takes each record [o] of the store, met after the
    records [seen]: the search over [seen] returns the results [held],
    the search over [seen] and [o] returns [held'].  A record that does
    not pass the filter changes nothing.  One that does joins the results
    while they are fewer than [K]; otherwise the results hold a minimum
    [m], which the record replaces when its similarity is greater, and
    they are left as they were when not. *)
Definition search_replacement_policy `{Builtins} (w : world)
  (queryEmbedding : value) (K : Z) (filter : Filter) : Prop :=
  ∀ seen o later, objects (this w) = seen ++ o :: later →
    let held := local_results (holding seen w) queryEmbedding K filter in
    let held' :=
      local_results (holding (seen ++ [o]) w) queryEmbedding K filter in
    let c :=
      {| similarity :=
           cosineSimilarity queryEmbedding (embedding_of (mem w o));
         object := InIndex o |} in
    if matches filter (mem w o) then
      if decide (Z.of_nat (length held) < K)%Z then held' ≡ₚ c :: held
      else
        ∃ m rest,
          held ≡ₚ m :: rest ∧
          (∀ x, x ∈ held → JSNumber.lt (similarity x) (similarity m) = false) ∧
          if JSNumber.gt (similarity c) (similarity m)
          then held' ≡ₚ c :: rest
          else held' = held
    else held' = held.

(** The local search as the specification states it, for every store,
    query, filter and positive [K]. *)
Definition local_search_as_stated `{Builtins} (w : world)
  (queryEmbedding : value) (K : Z) (filter : Filter) : Prop :=
  let candidates :=
    local_candidates (mem w) queryEmbedding filter (objects (this w)) in
  ∃ results,
    search queryEmbedding (local_options (Some K) (Some filter)) w
      = (Normal results, w) ∧
    length results = Nat.min (Z.to_nat K) (length candidates) ∧
    descending results ∧
    search_replacement_policy w queryEmbedding K filter.

(** Four records and a query direction [[1, 0]].  Record 2 has the zero
    vector as embedding (an array of numbers without NaN, which
    [validateAndAdd] accepts); its similarity to any query is 0/0. *)
Definition record (id : nat) (xs : list Z) : Filter :=
  {[ "id" := VNumber (of_Z (Z.of_nat id));
     "embedding" := vec (100 + id) xs ]}.

Definition four_records : heap :=
  λ o, match o with
       | 1 => record 1 [1; 1]%Z
       | 2 => record 2 [0; 0]%Z
       | 3 => record 3 [1; 0]%Z
       | 4 => record 4 [0; 1]%Z
       | _ => ∅
       end.

Definition query_1_0 : value := vec 0 [1; 0]%Z.

(** The index built from the four records, in order. *)
Definition four_records_indexed : world :=
  (constructor (H := sample_builtins) (Some [1; 2; 3; 4])
     (boot four_records None)).2.

(** The index built from records 1, 3 and 4 only. *)
Definition three_records_indexed : world :=
  (constructor (H := sample_builtins) (Some [1; 3; 4])
     (boot four_records None)).2.

(** The four records and a fifth, closer to the query than record 1, and
    the index built from the five in order. *)
Definition five_records : heap :=
  λ o, match o with
       | 5 => record 5 [2; 1]%Z
       | _ => four_records o
       end.

Definition five_records_indexed : world :=
  (constructor (H := sample_builtins) (Some [1; 2; 3; 4; 5])
     (boot five_records None)).2.

(* ===================================================================== *)
(** ** The statements about the record store *)
(* ===================================================================== *)



(** [!this.keys.every((key) => key in obj)] for the keys [ks]: one of
    them is neither an own property of the record nor inherited. *)
Definition lacks_attribute (ks : list string) (record : Filter) : bool :=
  negb (forallb (λ key, has_prop record key) ks).




(** The operations on the store after its construction. *)
Inductive operation : Type :=
| Add (o : loc)
| Update (filter : Filter) (vector : loc)
| Remove (filter : Filter)
| RemoveBatch (filters : list Filter)
| Clear.

Definition perform `{Builtins} (op : operation) : M unit :=
  match op with
  | Add o => add o
  | Update filter vector => update filter vector
  | Remove filter => remove filter
  | RemoveBatch filters => removeBatch filters
  | Clear => clear
  end.







(** [w'] differs from [w] at most in the records held and the schema:
    the record objects, the cache and the storage are the same. *)
Definition store_only (w w' : world) : Prop :=
  mem w' = mem w ∧ indexedDB w' = indexedDB w ∧ fetched w' = fetched w ∧
  indexedDBDataCache (this w') = indexedDBDataCache (this w) ∧
  preloadedDBName (this w') = preloadedDBName (this w) ∧
  preloadedObjectStoreName (this w') = preloadedObjectStoreName (this w).

(** The world at the start of a constructor block: no records, no
    schema. *)
Definition reset (w : world) : world :=
  with_this (set_keys [] (set_objects [] (this w))) w.

(** The world once the field initialisers have run. *)
Definition initialised (w : world) : world :=
  reset (with_this (set_cache None None None (this w)) w).

(** The records that match a filter, in the order of the store. *)
Definition matching (filter : Filter) (w : world) : list loc :=
  List.filter (λ o, matches filter (mem w o)) (objects (this w)).

(** [{ id: n }]. *)
Definition by_id (n : nat) : Filter :=
  {[ "id" := VNumber (of_Z (Z.of_nat n)) ]}.



(** Sample records: the four above, then a record without [id], a record
    with one attribute more, and a patch for record 1 that carries an
    embedding. *)
Definition sample_records : heap :=
  λ o, match o with
       | 5 => {[ "embedding" := vec 105 [1; 0]%Z ]}
       | 6 => <[ "tag" := VString "x" ]> (record 6 [1; 0]%Z)
       | 7 => <[ "embedding" := vec 107 [0; 1]%Z ]> (by_id 1)
       | _ => four_records o
       end.





(** The index built from record 1 alone. *)
Definition one_record_indexed : world :=
  (constructor (H := sample_builtins) (Some [1])
     (boot sample_records None)).2.

(* ===================================================================== *)
(** ** The statements about the preloaded cache *)
(* ===================================================================== *)

(** Whether reading the object store succeeds in the world [w]. *)
Definition fetch_succeeds (w : world) (DBname objectStoreName : string)
  : bool :=
  match indexedDB w with
  | Some idb =>
    match idb DBname objectStoreName with
    | getAll_onsuccess _ => true
    | _ => false
    end
  | None => false
  end.

(** No snapshot and no identity tag. *)
Definition cache_cleared (t : EmbeddingIndex) : Prop :=
  indexedDBDataCache t = None ∧ preloadedDBName t = None ∧
  preloadedObjectStoreName t = None.

(** The three cache fields are set and cleared together: without a
    snapshot there is no tag. *)
Definition cache_consistent (t : EmbeddingIndex) : Prop :=
  indexedDBDataCache t = None →
  preloadedDBName t = None ∧ preloadedObjectStoreName t = None.

(** The world [clearIndexedDBCache] leaves. *)
Definition without_cache (w : world) : world :=
  match indexedDBDataCache (this w) with
  | Some _ => with_this (set_cache None None None (this w)) w
  | None => w
  end.

(** The world [preloadIndexedDB] leaves: the cache is cleared first; when
    [indexedDB] exists the object store is read, and the records read
    become the snapshot. *)
Definition preloaded (DBname objectStoreName : string) (w : world) : world :=
  match indexedDB w with
  | None => without_cache w
  | Some idb =>
    let w1 :=
      with_fetched ((DBname, objectStoreName) :: fetched w)
        (without_cache w) in
    match idb DBname objectStoreName with
    | getAll_onsuccess records =>
      with_this (set_cache (Some records) (Some DBname)
                   (Some objectStoreName) (this w1)) w1
    | _ => w1
    end
  end.

(** A failed explicit preload as the specification states it: the
    failure reaches the caller and the cache is left cleared. *)
Definition preload_failure_as_stated (w : world)
  (DBname objectStoreName : string) : Prop :=
  fetch_succeeds w DBname objectStoreName = false →
  ∃ e w',
    preloadIndexedDB DBname objectStoreName w = (Throw e, w') ∧
    cache_cleared (this w').

(** The options of a search over the records of an object store. *)
Definition storage_options (topK : option Z) (filter : option Filter)
  (storageOptions : option storageOptions_t) : option SearchOptions :=
  Some {| topK := topK; filter := filter; useStorage := Some indexedDB_;
          storageOptions := storageOptions |}.

(** The database and object store these options name. *)
Definition DBname_of (storageOptions : option storageOptions_t) : string :=
  string_or (indexedDBName <$> storageOptions) "clientVectorDB".
Definition objectStoreName_of (storageOptions : option storageOptions_t)
  : string :=
  string_or (indexedDBObjectStoreName <$> storageOptions)
    "ClientEmbeddingStore".

(** [topK] as the search resolves it. *)
Definition topK_of (topK : option Z) : Z :=
  match topK with
  | Some k => if Z.eqb k 0 then DEFAULT_TOP_K else k
  | None => DEFAULT_TOP_K
  end.

(** The number of reads of an object store that [m] makes from [w]. *)
Definition fetches_during {A} (m : M A) (w : world) : nat :=
  length (fetched (m w).2) - length (fetched w).

(** The searches over storage as the specification states them: a search
    fetches exactly when the cache is not valid for the identity asked
    for, and uses a valid snapshot as it is; two searches in a row for one
    identity fetch exactly once; an invalidation between them makes the
    second fetch. *)
Definition storage_searches_as_stated `{Builtins} (w : world)
  (q1 q2 : value) (k1 k2 : option Z) (f1 f2 : option Filter)
  (storageOptions : option storageOptions_t) : Prop :=
  let DBname := DBname_of storageOptions in
  let objectStoreName := objectStoreName_of storageOptions in
  let search1 := search q1 (storage_options k1 f1 storageOptions) in
  let search2 := search q2 (storage_options k2 f2 storageOptions) in
  is_Some (indexedDB w) →
  fetches_during search1 w
    = (if isCacheValid DBname objectStoreName (this w) then 0 else 1) ∧
  (∀ cache, isCacheValid DBname objectStoreName (this w) = true →
     indexedDBDataCache (this w) = Some cache →
     search1 w =
       (Normal (results_of
          (snapshot_queue q1 (topK_of k1) (default ∅ f1) cache)), w)) ∧
  fetches_during (search1 ;;; search2) w = 1 ∧
  fetches_during search2 ((search1 ;;; clearIndexedDBCache) w).2 = 1.

(** A storage whose reads all fail, and one that holds two records in
    every object store. *)
Definition failing_storage : option (string → string → fetch_outcome) :=
  Some (λ _ _, getAll_onerror).
Definition working_storage : option (string → string → fetch_outcome) :=
  Some (λ _ _, getAll_onsuccess [record 1 [1; 1]%Z; record 3 [1; 0]%Z]).

(** Every call a client can make on an index once it is built. *)
Inductive call : Type :=
| Store (op : operation)
| Get (filter : Filter)
| Size
| Preload (DBname objectStoreName : string)
| ClearCache
| Search (queryEmbedding : value) (options : option SearchOptions).

Definition run `{Builtins} (c : call) : M unit :=
  match c with
  | Store op => perform op
  | Get filter => get filter ;;; ret tt
  | Size => size ;;; ret tt
  | Preload DBname objectStoreName => preloadIndexedDB DBname objectStoreName
  | ClearCache => clearIndexedDBCache
  | Search queryEmbedding options => search queryEmbedding options ;;; ret tt
  end.

(* ===================================================================== *)
(** ** Further statements about the record store and the searches *)
(* ===================================================================== *)

(** The checks of [validateAndAdd] on a record, against a schema [ks]:
    the embedding is an array, [isNaN] holds of none of its elements, and
    [key in record] holds of every attribute of [ks]. *)
Definition acceptable `{Builtins} (ks : list string) (record : Filter)
  : bool :=
  Array_isArray (embedding_of record)
  && negb (Array_some isNaN (embedding_of record))
  && forallb (λ key, has_prop record key) ks.

(** The schema after a successful [validateAndAdd] of [record]: the one
    set before, or the attribute names of the record when none was. *)
Definition schema_with (ks : list string) (record : Filter) : list string :=
  match ks with
  | [] => Object_keys record
  | _ :: _ => ks
  end.


(** [removeBatch] written with [remove]: each filter in turn, a filter
    without a match being passed over. *)
Definition remove_each (filters : list Filter) : M unit :=
  forEach (λ filter, try_catch (remove filter) (λ _, ret tt)) filters.

(** No result of [kept] has a smaller similarity than one of
    [left_out]. *)
Definition none_above (kept left_out : list SearchResult) : Prop :=
  ∀ r x, r ∈ kept → x ∈ left_out →
    JSNumber.lt (similarity r) (similarity x) = false.

(** The candidates of a search over preloaded records, in the order the
    loop meets them: the records that pass the filter and whose embedding
    is an array, with their similarity. *)
Definition snapshot_candidates `{Builtins} (queryEmbedding : value)
  (filter : Filter) (records : list Filter) : list SearchResult :=
  map (λ record,
         {| similarity :=
              cosineSimilarity queryEmbedding (embedding_of record);
            object := InSnapshot record |})
      (List.filter (λ record,
         matches filter record
         && Array_isArray (embedding_of record)) records).

(** The records a search over storage ranks in the world [w]: the
    snapshot when it is valid for the identity asked for, otherwise what
    reading the object store gives, if anything. *)
Definition records_searched (DBname objectStoreName : string) (w : world)
  : option (list Filter) :=
  if isCacheValid DBname objectStoreName (this w)
  then indexedDBDataCache (this w)
  else
    match indexedDB w with
    | Some idb =>
      match idb DBname objectStoreName with
      | getAll_onsuccess records => Some records
      | _ => None
      end
    | None => None
    end.

(** The options of a search, field by field. *)
Definition options_of (topK : option Z) (filter : option Filter)
  (useStorage : option StorageOptions)
  (storageOptions : option storageOptions_t) : option SearchOptions :=
  Some {| topK := topK; filter := filter; useStorage := useStorage;
          storageOptions := storageOptions |}.

(** [w'] is [w] with another cache and other reads noted: the records of
    the index, its schema and the record objects are those of [w]. *)
Definition same_store (w w' : world) : Prop :=
  mem w' = mem w ∧ objects (this w') = objects (this w) ∧
  keys (this w') = keys (this w) ∧ indexedDB w' = indexedDB w.

(** The similarities of a list of results, in order. *)
Definition similarities (results : list SearchResult) : list number :=
  map similarity results.

(** The sample records and two patches without embedding: one that
    renumbers a record, and one that sets an attribute to NaN. *)
Definition more_records : heap :=
  λ o, match o with
       | 8 => by_id 9
       | 9 => {[ "rank" := VNumber NaN ]}
       | _ => sample_records o
       end.

(** The index built from records 1 and 3 of [more_records]. *)
Definition two_records_indexed : world :=
  (constructor (H := sample_builtins) (Some [1; 3])
     (boot more_records None)).2.

(** A result over the records of the index, read as a result over a
    snapshot that holds the same records: the reference to a record of
    the index becomes the record it denotes. *)
Definition as_snapshot (m : heap) (r : SearchResult) : SearchResult :=
  {| similarity := similarity r;
     object := match object r with
               | InIndex o => InSnapshot (m o)
               | InSnapshot record => InSnapshot record
               end |}.

(** The index built from records 1 and 3, where every object store holds
    these two records. *)
Definition mirrored_index : world :=
  (constructor (H := sample_builtins) (Some [1; 3])
     (boot four_records working_storage)).2.

(* ===================================================================== *)
(** * Properties *)
(* ===================================================================== *)

Ltac Zify.zify_post_hook ::= Z.to_euclidean_division_equations.

(** After a case analysis on lookups: name the values found. *)
Ltac found :=
  repeat match goal with
  | H : Some _ = Some _ |- _ => apply (inj Some) in H
  | H : None = Some _ |- _ => discriminate H
  end;
  repeat match goal with
  | H : _ = ?b |- _ => is_var b;
    lazymatch type of b with nat => fail | _ => subst b end
  end.

(* ===================================================================== *)
(** ** The order of numbers *)
(* ===================================================================== *)

(** Away from NaN, [<] is the lexicographic order of positions. *)
Lemma lt_before (a b : number) :
  is_nan a = false → is_nan b = false →
  JSNumber.lt a b = true ↔ before (position a) (position b).
Proof.
  unfold JSNumber.lt, SFltb, before.
  destruct a as [sa|sa| |sa ma ea], b as [sb|sb| |sb mb eb]; simpl;
    try discriminate; intros _ _;
    repeat match goal with s : bool |- _ => destruct s end; simpl;
    try (split; [discriminate | lia]); try (split; [lia | reflexivity]);
    try (split; [reflexivity | lia]).
  - change (Pos.compare_cont Eq ma mb) with (ma ?= mb)%positive.
    destruct (Z.compare_spec ea eb), (Pos.compare_spec ma mb); simpl;
      split; try discriminate; try reflexivity; lia.
  - change (Pos.compare_cont Eq ma mb) with (ma ?= mb)%positive.
    destruct (Z.compare_spec ea eb), (Pos.compare_spec ma mb); simpl;
      split; try discriminate; try reflexivity; lia.
Qed.

Lemma lt_nan_l a b : is_nan a = true → JSNumber.lt a b = false.
Proof. destruct a; try discriminate. reflexivity. Qed.
Lemma lt_nan_r a b : is_nan b = true → JSNumber.lt a b = false.
Proof. destruct b; try discriminate. destruct a; reflexivity. Qed.

Lemma lt_asym a b : JSNumber.lt a b = true → JSNumber.lt b a = false.
Proof.
  intros Hab.
  destruct (is_nan a) eqn:Ha; [by rewrite lt_nan_l in Hab|].
  destruct (is_nan b) eqn:Hb; [by rewrite lt_nan_r in Hab|].
  apply lt_before in Hab; [|done..].
  apply not_true_is_false. intros Hba. apply lt_before in Hba; [|done..].
  unfold before in *. destruct (position a) as [[??]?], (position b) as [[??]?].
  lia.
Qed.

Lemma ge_trans a b c :
  is_nan a = false → is_nan b = false → is_nan c = false →
  JSNumber.lt b a = false → JSNumber.lt c b = false → JSNumber.lt c a = false.
Proof.
  intros Ha Hb Hc Hba Hcb.
  apply not_true_is_false. intros Hca.
  apply lt_before in Hca; [|done..].
  apply not_true_iff_false in Hba, Hcb.
  rewrite lt_before in Hba, Hcb by done.
  unfold before in *.
  destruct (position a) as [[??]?], (position b) as [[??]?],
    (position c) as [[??]?].
  lia.
Qed.

(* ===================================================================== *)
(** ** The queue: sizes and contents *)
(* ===================================================================== *)

#[local] Arguments FastPriorityQueue.percolateUp : simpl never.
#[local] Arguments FastPriorityQueue.percolateDown_loop : simpl never.

Section QueuePermutation.
Context {A : Type} (compare : A → A → bool).

Local Abbreviation percolateUp :=
  (FastPriorityQueue.percolateUp compare).
Local Abbreviation percolateDown_loop :=
  (FastPriorityQueue.percolateDown_loop compare).
Local Abbreviation poll :=
  (FastPriorityQueue.poll compare).

Lemma percolateUp_O myval i (array : list A) :
  percolateUp 0 myval i array = <[i := myval]> array.
Proof. reflexivity. Qed.

Lemma percolateUp_S turns myval i (array : list A) :
  percolateUp (S turns) myval i array =
  if Nat.eqb i 0 then <[i := myval]> array
  else
    match array !! ((i - 1) / 2) with
    | Some ap =>
      if negb (compare myval ap) then <[i := myval]> array
      else percolateUp turns myval ((i - 1) / 2) (<[i := ap]> array)
    | None => <[i := myval]> array
    end.
Proof. reflexivity. Qed.

Lemma percolateDown_loop_O ai i (array : list A) :
  percolateDown_loop 0 ai i array = <[i := ai]> array.
Proof. reflexivity. Qed.

Lemma percolateDown_loop_S turns ai i (array : list A) :
  percolateDown_loop (S turns) ai i array =
  if negb (Nat.ltb i (length array / 2)) then <[i := ai]> array
  else
    match array !! (2 * i + 1) with
    | Some al =>
      let '(l, bestc) :=
        match array !! (2 * i + 1 + 1) with
        | Some ar =>
          if compare ar al then (2 * i + 1 + 1, ar) else (2 * i + 1, al)
        | None => (2 * i + 1, al)
        end in
      if negb (compare bestc ai) then <[i := ai]> array
      else percolateDown_loop turns ai l (<[i := bestc]> array)
    | None => <[i := ai]> array
    end.
Proof. reflexivity. Qed.

(** The bounds on the number of turns are never what stops a loop: any
    bound that is large enough gives the same array. *)
Lemma percolateUp_turns turns turns' myval i (array : list A) :
  i ≤ turns → i ≤ turns' →
  percolateUp turns myval i array =
  percolateUp turns' myval i array.
Proof.
  revert turns' i array.
  induction turns as [|turns IH]; intros [|turns'] i array Hi Hi';
    rewrite ?percolateUp_O, ?percolateUp_S; try done.
  - by replace i with 0 by lia.
  - by replace i with 0 by lia.
  - destruct (Nat.eqb_spec i 0); [done|].
    destruct (array !! ((i - 1) / 2)); [|done].
    destruct (negb _); [done|]. apply IH; lia.
Qed.

Lemma percolateDown_loop_turns turns turns' ai i (array : list A) :
  length array ≤ i + turns → length array ≤ i + turns' →
  percolateDown_loop turns ai i array =
  percolateDown_loop turns' ai i array.
Proof.
  revert turns' i array.
  induction turns as [|turns IH]; intros [|turns'] i array Hi Hi';
    rewrite ?percolateDown_loop_O, ?percolateDown_loop_S; try done.
  - by destruct (Nat.ltb_spec i (length array / 2)); [lia|].
  - by destruct (Nat.ltb_spec i (length array / 2)); [lia|].
  - destruct (Nat.ltb_spec i (length array / 2)); [|done]. cbn [negb].
    destruct (array !! (2 * i + 1)) as [al|]; [|done].
    destruct (array !! (2 * i + 1 + 1)) as [ar|]; [destruct (compare ar al)|];
      (destruct (negb _); [done|]); apply IH; rewrite length_insert; lia.
Qed.

Lemma percolateUp_length turns myval i (array : list A) :
  length (percolateUp turns myval i array) = length array.
Proof.
  revert i array. induction turns as [|turns IH]; intros i array.
  - by rewrite percolateUp_O, length_insert.
  - rewrite percolateUp_S. destruct (Nat.eqb i 0); [by rewrite length_insert|].
    destruct (array !! _); [|by rewrite length_insert].
    destruct (negb _); [by rewrite length_insert|].
    by rewrite IH, length_insert.
Qed.

Lemma percolateUp_Permutation turns myval i (array : list A) :
  i < length array →
  percolateUp turns myval i array ≡ₚ <[i := myval]> array.
Proof.
  revert i array.
  induction turns as [|turns IH]; intros i array Hi; [reflexivity|].
  rewrite percolateUp_S.
  destruct (Nat.eqb_spec i 0) as [->|Hi0]; [reflexivity|].
  destruct (array !! ((i - 1) / 2)) as [ap|] eqn:Hp; [|reflexivity].
  destruct (negb _); [reflexivity|].
  rewrite IH by (rewrite length_insert; lia).
  assert ((i - 1) / 2 ≠ i) by lia.
  rewrite <-(list_insert_insert_eq array i ap myval).
  apply Permutation_insert_swap.
  - by apply list_lookup_insert_eq.
  - by rewrite list_lookup_insert_ne.
Qed.

Lemma add_length myval (array : list A) :
  length (FastPriorityQueue.add compare myval array) = S (length array).
Proof.
  unfold FastPriorityQueue.add, FastPriorityQueue.size.
  rewrite percolateUp_length, length_app. simpl. lia.
Qed.

Lemma add_Permutation myval (array : list A) :
  FastPriorityQueue.add compare myval array ≡ₚ myval :: array.
Proof.
  unfold FastPriorityQueue.add, FastPriorityQueue.size.
  rewrite percolateUp_Permutation by (rewrite length_app; simpl; lia).
  rewrite insert_app_r_alt, Nat.sub_diag by lia. simpl.
  by rewrite Permutation_app_comm.
Qed.

Lemma percolateDown_loop_length turns ai i (array : list A) :
  length (percolateDown_loop turns ai i array) = length array.
Proof.
  revert i array. induction turns as [|turns IH]; intros i array.
  - by rewrite percolateDown_loop_O, length_insert.
  - rewrite percolateDown_loop_S.
    destruct (negb _); [by rewrite length_insert|].
    destruct (array !! (2 * i + 1)) as [al|]; [|by rewrite length_insert].
    destruct (array !! _) as [ar|]; [destruct (compare ar al)|];
      (destruct (negb _);
         [by rewrite length_insert|by rewrite IH, length_insert]).
Qed.

Lemma percolateDown_loop_Permutation turns ai i (array : list A) :
  i < length array →
  percolateDown_loop turns ai i array ≡ₚ <[i := ai]> array.
Proof.
  revert i array.
  induction turns as [|turns IH]; intros i array Hi; [reflexivity|].
  rewrite percolateDown_loop_S.
  destruct (negb _); [reflexivity|].
  destruct (array !! (2 * i + 1)) as [al|] eqn:Hl; [|reflexivity].
  assert (∀ c bestc, array !! c = Some bestc → c ≠ i →
    percolateDown_loop turns ai c (<[i:=bestc]> array) ≡ₚ <[i:=ai]> array)
    as Hstep.
  { intros c bestc Hc Hne.
    rewrite IH by (rewrite length_insert; eauto using lookup_lt_Some).
    rewrite <-(list_insert_insert_eq array i bestc ai).
    apply Permutation_insert_swap.
    - by apply list_lookup_insert_eq.
    - by rewrite list_lookup_insert_ne. }
  destruct (array !! (2 * i + 1 + 1)) as [ar|] eqn:Hr;
    [destruct (compare ar al)|];
    (destruct (negb _); [reflexivity|]); eapply Hstep; eauto; lia.
Qed.

Lemma poll_nil : poll (@nil A) = (None, []).
Proof. reflexivity. Qed.

Lemma poll_singleton ans : poll [ans] = (Some ans, []).
Proof. reflexivity. Qed.

Lemma poll_snoc ans rest final :
  poll (ans :: rest ++ [final]) =
  (Some ans,
   percolateDown_loop (S (length rest)) final 0 (final :: rest)).
Proof.
  unfold FastPriorityQueue.poll, FastPriorityQueue.size.
  replace (Nat.ltb 1 (length (ans :: rest ++ [final]))) with true
    by (symmetry; apply Nat.ltb_lt; simpl; rewrite length_app; simpl; lia).
  rewrite app_comm_cons, last_snoc, List.removelast_last. reflexivity.
Qed.

Lemma poll_length (array : list A) :
  length (poll array).2 = length array - 1.
Proof.
  destruct array as [|ans rest]; [done|].
  destruct rest as [|final rest _] using rev_ind; [done|].
  rewrite poll_snoc. cbn [snd].
  rewrite percolateDown_loop_length. simpl. rewrite length_app. simpl. lia.
Qed.

Lemma poll_Permutation (array : list A) x array' :
  poll array = (Some x, array') → array ≡ₚ x :: array'.
Proof.
  destruct array as [|ans rest]; [done|].
  destruct rest as [|final rest _] using rev_ind.
  { by intros [= <- <-]. }
  rewrite poll_snoc. intros [= <- <-].
  rewrite percolateDown_loop_Permutation by (simpl; lia).
  apply Permutation_skip. simpl. by rewrite Permutation_app_comm.
Qed.

Lemma poll_head (array : list A) : (poll array).1 = array !! 0.
Proof.
  destruct array as [|ans rest]; [done|].
  destruct rest as [|final rest _] using rev_ind; [done|].
  by rewrite poll_snoc.
Qed.

End QueuePermutation.

(* ===================================================================== *)
(** ** The queue: heap order *)
(* ===================================================================== *)

Section QueueOrder.
Context {A : Type} (compare : A → A → bool) (comparable : A → Prop).

Local Abbreviation percolateUp :=
  (FastPriorityQueue.percolateUp compare).
Local Abbreviation percolateDown_loop :=
  (FastPriorityQueue.percolateDown_loop compare).
Local Abbreviation poll :=
  (FastPriorityQueue.poll compare).
Local Abbreviation heap_ordered :=
  (FastPriorityQueue.heap_ordered compare).
Local Abbreviation ordered_but_up :=
  (FastPriorityQueue.ordered_but_up compare).
Local Abbreviation ordered_but_down :=
  (FastPriorityQueue.ordered_but_down compare).
Hypothesis compare_asym : ∀ x y, compare x y = true → compare y x = false.
Hypothesis compare_trans : ∀ x y z,
  comparable x → comparable y → comparable z →
  compare y x = false → compare z y = false → compare z x = false.

Lemma compare_irrefl x : compare x x = false.
Proof.
  destruct (compare x x) eqn:E; [|done].
  pose proof (compare_asym _ _ E). congruence.
Qed.

(** Lookups after the two writes of one turn of either loop. *)
Lemma lookup_shift (array : list A) i k v u j :
  i ≠ k → i < length array → k < length array →
  <[k := v]> (<[i := u]> array) !! j =
  if decide (j = k) then Some v
  else if decide (j = i) then Some u else array !! j.
Proof.
  intros. repeat case_decide; subst.
  - by rewrite list_lookup_insert_eq by (rewrite length_insert; lia).
  - rewrite list_lookup_insert_ne by done. by rewrite list_lookup_insert_eq.
  - by rewrite !list_lookup_insert_ne.
Qed.

Lemma shift_Permutation (array : list A) i k v u :
  i < length array → array !! k = Some u → i ≠ k →
  <[k := v]> (<[i := u]> array) ≡ₚ <[i := v]> array.
Proof.
  intros Hi Hk Hne.
  rewrite <-(list_insert_insert_eq array i u v).
  apply Permutation_insert_swap.
  - by apply list_lookup_insert_eq.
  - by rewrite list_lookup_insert_ne.
Qed.

Lemma percolateUp_heap_ordered turns myval i (array : list A) :
  i ≤ turns → i < length array →
  Forall comparable (<[i := myval]> array) →
  ordered_but_up (<[i := myval]> array) i →
  heap_ordered (percolateUp turns myval i array).
Proof.
  revert i array.
  induction turns as [|turns IH]; intros i array Hturns Hi Hall [Hedges Hgrand].
  { rewrite percolateUp_O. intros j x y Hj Hx Hy.
    apply (Hedges j x y); auto; lia. }
  rewrite percolateUp_S.
  destruct (Nat.eqb_spec i 0) as [->|Hi0].
  { intros j x y Hj Hx Hy. apply (Hedges j x y); auto; lia. }
  set (p := (i - 1) / 2).
  assert (p < i) as Hpi by (unfold p; lia).
  destruct (lookup_lt_is_Some_2 array p) as [ap Hap]; [lia|]. rewrite Hap.
  assert (<[i:=myval]> array !! i = Some myval) as Hbi
    by (by apply list_lookup_insert_eq).
  assert (<[i:=myval]> array !! p = Some ap) as Hbp
    by (rewrite list_lookup_insert_ne by lia; done).
  destruct (compare myval ap) eqn:Hcmp; cbn [negb].
  2:{ intros j x y Hj Hx Hy. destruct (decide (j = i)) as [->|Hne].
      - fold p in Hy. congruence.
      - by apply (Hedges j x y). }
  assert (comparable myval) as Hokv by (eapply Forall_lookup_1; eauto).
  assert (comparable ap) as Hokp by (eapply Forall_lookup_1; eauto).
  assert (∀ j x, <[i:=myval]> array !! j = Some x → comparable x) as Hok
    by (intros; eapply Forall_lookup_1; eauto).
  assert (∀ j, <[p:=myval]> (<[i:=ap]> array) !! j =
    if decide (j = p) then Some myval else if decide (j = i) then Some ap
    else <[i:=myval]> array !! j) as Hlk.
  { intros j. rewrite lookup_shift by lia. repeat case_decide; try done.
    by rewrite list_lookup_insert_ne. }
  apply IH.
  - lia.
  - rewrite length_insert. lia.
  - rewrite shift_Permutation by (done || lia). done.
  - split.
    + intros j x y Hj Hjp. rewrite !Hlk.
      repeat case_decide; intros Hx Hy; found; try lia.
      * by apply compare_asym.
      * assert (compare x ap = false)
          by (apply (Hedges j x ap); auto; congruence).
        apply (compare_trans myval ap x); eauto.
      * apply (Hgrand j x ap); auto; try lia. 
      * by apply (Hedges j x y).
    + intros c x y Hp Hc Hcp. rewrite !Hlk.
      repeat case_decide; intros Hx Hy; found; try lia.
      * apply (Hedges p ap y); auto. lia.
      * assert (compare x ap = false)
          by (apply (Hedges c x ap); auto; congruence).
        assert (compare ap y = false) by (apply (Hedges p ap y); auto; lia).
        apply (compare_trans y ap x); eauto.
Qed.

Lemma add_heap_ordered myval (array : list A) :
  comparable myval → Forall comparable array →
  heap_ordered array →
  heap_ordered (FastPriorityQueue.add compare myval array).
Proof.
  intros Hv Hall Hheap. unfold FastPriorityQueue.add, FastPriorityQueue.size.
  assert (<[length array:=myval]> (array ++ [myval]) = array ++ [myval]) as Hb.
  { rewrite insert_app_r_alt, Nat.sub_diag by lia. done. }
  apply percolateUp_heap_ordered; rewrite ?Hb.
  - done.
  - rewrite length_app. simpl. lia.
  - apply Forall_app. split; [done|]. by apply Forall_singleton.
  - split.
    + intros j x y Hj Hne Hx Hy.
      assert (j < length array).
      { apply lookup_lt_Some in Hx. rewrite length_app in Hx.
        simpl in Hx. lia. }
      rewrite lookup_app_l in Hx, Hy by lia. by apply (Hheap j x y).
    + intros c x y _ Hc Hcp Hx.
      apply lookup_lt_Some in Hx. rewrite length_app in Hx. simpl in Hx. lia.
Qed.

Lemma percolateDown_loop_heap_ordered turns ai i (array : list A) :
  length array ≤ i + turns → i < length array →
  Forall comparable (<[i := ai]> array) →
  ordered_but_down (<[i := ai]> array) i →
  heap_ordered (percolateDown_loop turns ai i array).
Proof.
  revert i array.
  induction turns as [|turns IH]; intros i array Hturns Hi Hall [Hedges Hgrand].
  { lia. }
  rewrite percolateDown_loop_S.
  destruct (Nat.ltb_spec i (length array / 2)) as [Hhalf|Hhalf]; cbn [negb].
  2:{ intros j x y Hj Hx Hy. apply (Hedges j x y); auto.
      apply lookup_lt_Some in Hx. rewrite length_insert in Hx. lia. }
  destruct (lookup_lt_is_Some_2 array (2 * i + 1)) as [al Hal]; [lia|].
  rewrite Hal.
  assert (<[i:=ai]> array !! i = Some ai) as Hbi
    by (by apply list_lookup_insert_eq).
  assert (∀ j x, <[i:=ai]> array !! j = Some x → comparable x) as Hok
    by (intros; eapply Forall_lookup_1; eauto).
  (* the smaller child *)
  assert (∃ l bestc,
    match array !! (2 * i + 1 + 1) with
    | Some ar => if compare ar al then (2 * i + 1 + 1, ar) else (2 * i + 1, al)
    | None => (2 * i + 1, al)
    end = (l, bestc) ∧ array !! l = Some bestc ∧ 0 < l ∧ (l - 1) / 2 = i ∧
    ∀ c x, 0 < c → (c - 1) / 2 = i → array !! c = Some x →
      compare x bestc = false)
    as (l & bestc & -> & Hl & Hl0 & Hli & Hbest).
  { destruct (array !! (2 * i + 1 + 1)) as [ar|] eqn:Har;
      [destruct (compare ar al) eqn:Hcmp|].
    - exists (2 * i + 1 + 1), ar. repeat split; [done|lia|lia|].
      intros c x Hc Hci Hx.
      assert (c = 2 * i + 1 ∨ c = 2 * i + 1 + 1) as [->| ->] by lia.
      + rewrite Hal in Hx. found. by apply compare_asym.
      + rewrite Har in Hx. found. apply compare_irrefl.
    - exists (2 * i + 1), al. repeat split; [done|lia|lia|].
      intros c x Hc Hci Hx.
      assert (c = 2 * i + 1 ∨ c = 2 * i + 1 + 1) as [->| ->] by lia.
      + rewrite Hal in Hx. found. apply compare_irrefl.
      + rewrite Har in Hx. by found.
    - exists (2 * i + 1), al. repeat split; [done|lia|lia|].
      intros c x Hc Hci Hx.
      assert (c = 2 * i + 1 ∨ c = 2 * i + 1 + 1) as [->| ->] by lia.
      + rewrite Hal in Hx. found. apply compare_irrefl.
      + rewrite Har in Hx. done. }
  assert (l ≠ i) as Hlne by lia.
  assert (l < length array) as Hllen by (by eapply lookup_lt_Some).
  assert (<[i:=ai]> array !! l = Some bestc) as Hbl
    by (by rewrite list_lookup_insert_ne).
  assert (comparable ai) as Hoka by eauto.
  assert (comparable bestc) as Hokb by eauto.
  destruct (compare bestc ai) eqn:Hcmp; cbn [negb].
  2:{ intros j x y Hj Hx Hy. destruct (decide ((j - 1) / 2 = i)) as [Hji|Hji].
      - rewrite Hji, Hbi in Hy. found.
        assert (compare x bestc = false).
        { apply (Hbest j); auto.
          rewrite list_lookup_insert_ne in Hx by lia. done. }
        apply (compare_trans ai bestc x); eauto.
      - by apply (Hedges j x y). }
  assert (∀ j, <[l:=ai]> (<[i:=bestc]> array) !! j =
    if decide (j = l) then Some ai else if decide (j = i) then Some bestc
    else <[i:=ai]> array !! j) as Hlk.
  { intros j. rewrite lookup_shift by lia. repeat case_decide; try done.
    by rewrite list_lookup_insert_ne. }
  apply IH.
  - rewrite length_insert. lia.
  - rewrite length_insert. lia.
  - rewrite shift_Permutation by (done || lia). done.
  - split.
    + intros j x y Hj Hjl. rewrite !Hlk.
      repeat case_decide; intros Hx Hy; found; try lia.
      * by apply compare_asym.
      * apply (Hgrand l bestc y); auto; [lia|congruence].
      * apply (Hbest j); auto. by rewrite list_lookup_insert_ne in Hx.
      * by apply (Hedges j x y).
    + intros c x y _ Hc Hcl. rewrite !Hlk.
      repeat case_decide; intros Hx Hy; found; try lia.
      apply (Hedges c x bestc); auto; [lia|]. by rewrite Hcl.
Qed.

Lemma poll_heap_ordered (array : list A) :
  Forall comparable array → heap_ordered array →
  heap_ordered (poll array).2.
Proof.
  intros Hall Hheap.
  destruct array as [|ans rest]; [by intros ? ? ? ? ?|].
  destruct rest as [|final rest _] using rev_ind; [by intros ? ? ? ? ?|].
  rewrite poll_snoc. cbn [snd].
  apply percolateDown_loop_heap_ordered; simpl.
  - lia.
  - lia.
  - apply Forall_cons in Hall as [_ Hall].
    apply Forall_app in Hall as [? [? _]%Forall_cons].
    by constructor.
  - split; [|intros; lia].
    intros j x y Hj Hjp Hx Hy.
    assert (j < S (length rest))
      by (apply lookup_lt_Some in Hx; simpl in Hx; lia).
    destruct j as [|j]; [lia|].
    destruct ((S j - 1) / 2) as [|k] eqn:Hk; [lia|].
    simpl in Hx, Hy.
    apply (Hheap (S j) x y); [lia|..].
    + simpl. rewrite lookup_app_l by lia. done.
    + rewrite Hk. simpl. rewrite lookup_app_l; [done|]. lia.
Qed.

Lemma root_minimal (array : list A) m :
  Forall comparable array → heap_ordered array →
  array !! 0 = Some m → ∀ x, x ∈ array → compare x m = false.
Proof.
  intros Hall Hheap Hm x [i Hx]%list_elem_of_lookup.
  revert x Hx. induction (lt_wf i) as [i _ IH]. intros x Hx.
  destruct (decide (i = 0)) as [->|Hi].
  { rewrite Hm in Hx. found. apply compare_irrefl. }
  destruct (lookup_lt_is_Some_2 array ((i - 1) / 2)) as [y Hy].
  { apply lookup_lt_Some in Hx. lia. }
  apply (compare_trans m y x).
  - eapply Forall_lookup_1; eauto.
  - eapply Forall_lookup_1; eauto.
  - eapply Forall_lookup_1; eauto.
  - apply (IH ((i - 1) / 2)); [lia|done].
  - apply (Hheap i x y); [lia|done..].
Qed.

End QueueOrder.

(* ===================================================================== *)
(** ** The queue: draining *)
(* ===================================================================== *)

Section QueueDrain.
Context {A : Type} (compare : A → A → bool).

Local Abbreviation poll :=
  (FastPriorityQueue.poll compare).
Local Abbreviation drain_loop :=
  (FastPriorityQueue.drain_loop compare).
Local Abbreviation drain :=
  (FastPriorityQueue.drain compare).
Local Abbreviation heap_ordered :=
  (FastPriorityQueue.heap_ordered compare).
Local Abbreviation ascending :=
  (FastPriorityQueue.ascending compare).

Lemma drain_loop_O (array : list A) : drain_loop 0 array = [].
Proof. reflexivity. Qed.

Lemma drain_loop_S turns (array : list A) :
  drain_loop (S turns) array =
  if FastPriorityQueue.isEmpty array then []
  else
    match poll array with
    | (Some x, array') => x :: drain_loop turns array'
    | (None, _) => []
    end.
Proof. reflexivity. Qed.

Lemma poll_Some (array : list A) :
  array ≠ [] → ∃ x, poll array = (Some x, (poll array).2) ∧
                    array !! 0 = Some x.
Proof.
  intros Hne. destruct array as [|x rest]; [done|]. exists x.
  pose proof (poll_head compare (x :: rest)) as Hhead.
  destruct (poll (x :: rest)) as [o array']. simpl in *. by subst.
Qed.

Lemma drain_loop_Permutation turns (array : list A) :
  length array ≤ turns → drain_loop turns array ≡ₚ array.
Proof.
  revert array. induction turns as [|turns IH]; intros array Hlen.
  { destruct array; [done|simpl in Hlen; lia]. }
  rewrite drain_loop_S. destruct array as [|a rest]; [done|].
  change (FastPriorityQueue.isEmpty (a :: rest)) with false. cbv iota.
  destruct (poll_Some (a :: rest)) as (x & Hpoll & _); [done|].
  rewrite Hpoll. rewrite IH.
  - symmetry. by apply (poll_Permutation compare).
  - rewrite poll_length. simpl in *. lia.
Qed.

Lemma drain_loop_turns turns turns' (array : list A) :
  length array ≤ turns → length array ≤ turns' →
  drain_loop turns array =
  drain_loop turns' array.
Proof.
  revert turns' array.
  induction turns as [|turns IH]; intros [|turns'] array Hlen Hlen';
    rewrite ?drain_loop_O, ?drain_loop_S; try done.
  - by destruct array; [|simpl in *; lia].
  - by destruct array; [|simpl in *; lia].
  - destruct array as [|a rest]; [done|].
    change (FastPriorityQueue.isEmpty (a :: rest)) with false. cbv iota.
    destruct (poll_Some (a :: rest)) as (x & Hpoll & _); [done|].
    rewrite Hpoll. f_equal.
    apply IH; rewrite poll_length; simpl in *; lia.
Qed.

Lemma drain_Permutation (array : list A) : drain array ≡ₚ array.
Proof. by apply drain_loop_Permutation. Qed.

Lemma ascending_cons x (l : list A) :
  (∀ y, y ∈ l → compare y x = false) → ascending l →
  ascending (x :: l).
Proof.
  intros Hx Hl i j a b Hij Ha Hb.
  destruct j as [|j]; [lia|]. simpl in Hb.
  destruct i as [|i]; simpl in Ha.
  - found. apply Hx. by eapply list_elem_of_lookup_2.
  - apply (Hl i j); [lia|done..].
Qed.

Context (comparable : A → Prop).
Hypothesis compare_asym : ∀ x y, compare x y = true → compare y x = false.
Hypothesis compare_trans : ∀ x y z,
  comparable x → comparable y → comparable z →
  compare y x = false → compare z y = false → compare z x = false.

Lemma drain_loop_ascending turns (array : list A) :
  length array ≤ turns → Forall comparable array →
  heap_ordered array →
  ascending (drain_loop turns array).
Proof.
  revert array. induction turns as [|turns IH]; intros array Hlen Hall Hheap.
  { by intros i j a b _ Ha. }
  rewrite drain_loop_S. destruct array as [|a rest]; [by intros i j ? ? _ ?|].
  change (FastPriorityQueue.isEmpty (a :: rest)) with false. cbv iota.
  destruct (poll_Some (a :: rest)) as (x & Hpoll & Hroot); [done|].
  rewrite Hpoll.
  pose proof (poll_Permutation compare _ _ _ Hpoll) as Hperm.
  assert (length (poll (a :: rest)).2 ≤ turns) as Hlen'.
  { rewrite poll_length. simpl in *. lia. }
  apply ascending_cons.
  - intros y Hy. eapply (root_minimal compare comparable); eauto.
    rewrite Hperm. right.
    by rewrite <-(drain_loop_Permutation turns) by done.
  - apply IH; [done| |].
    + rewrite Hperm in Hall. by apply Forall_cons in Hall as [_ ?].
    + by apply (poll_heap_ordered compare comparable).
Qed.

Lemma drain_ascending (array : list A) :
  Forall comparable array → heap_ordered array →
  ascending (drain array).
Proof. by apply drain_loop_ascending. Qed.

End QueueDrain.

(* ===================================================================== *)
(** ** The top-K loop *)
(* ===================================================================== *)

Lemma by_similarity_asym x y :
  by_similarity x y = true → by_similarity y x = false.
Proof. apply lt_asym. Qed.

Lemma by_similarity_trans x y z :
  comparable x → comparable y → comparable z →
  by_similarity y x = false → by_similarity z y = false →
  by_similarity z x = false.
Proof. unfold comparable, by_similarity. apply ge_trans. Qed.

Lemma gt_comparable c m :
  JSNumber.gt (similarity c) (similarity m) = true → comparable c.
Proof.
  unfold JSNumber.gt, comparable. intros Hgt.
  destruct (is_nan (similarity c)) eqn:E; [|done].
  by rewrite (lt_nan_r _ _ E) in Hgt.
Qed.

(** The two cases of [offer]. *)
Lemma offer_room topK c queue :
  (Z.of_nat (length queue) < topK)%Z →
  offer topK c queue = FastPriorityQueue.add by_similarity c queue.
Proof.
  intros Hlt. unfold offer, FastPriorityQueue.size.
  by destruct (Z.ltb_spec (Z.of_nat (length queue)) topK); [|lia].
Qed.

Lemma offer_full topK c queue m :
  ¬ (Z.of_nat (length queue) < topK)%Z → queue !! 0 = Some m →
  offer topK c queue =
  if JSNumber.gt (similarity c) (similarity m)
  then FastPriorityQueue.add by_similarity c
         (FastPriorityQueue.poll by_similarity queue).2
  else queue.
Proof.
  intros Hge Hm. unfold offer, FastPriorityQueue.size, FastPriorityQueue.peek.
  destruct (Z.ltb_spec (Z.of_nat (length queue)) topK); [lia|].
  by rewrite Hm.
Qed.

Lemma offer_full_empty topK c :
  ¬ (0 < topK)%Z → offer topK c [] = [].
Proof.
  intros Hge. unfold offer, FastPriorityQueue.size, FastPriorityQueue.peek.
  simpl.
  destruct (Z.ltb_spec (Z.of_nat 0) topK); [lia|reflexivity].
Qed.

Lemma offer_length topK c queue :
  length (offer topK c queue) =
  if decide (Z.of_nat (length queue) < topK)%Z then S (length queue)
  else length queue.
Proof.
  case_decide as Hlt.
  - by rewrite offer_room, add_length.
  - destruct queue as [|m rest]; [by rewrite offer_full_empty|].
    rewrite (offer_full _ _ _ m) by done.
    destruct (JSNumber.gt _ _); [|done].
    rewrite add_length, poll_length. simpl. lia.
Qed.

Lemma queue_after_snoc topK seen c :
  queue_after topK (seen ++ [c]) = offer topK c (queue_after topK seen).
Proof. unfold queue_after. by rewrite fold_left_app. Qed.

Lemma queue_after_length topK candidates :
  length (queue_after topK candidates) =
  Nat.min (Z.to_nat topK) (length candidates).
Proof.
  induction candidates as [|c seen IH] using rev_ind; [simpl; lia|].
  rewrite queue_after_snoc, offer_length, length_app, IH. simpl.
  case_decide; lia.
Qed.

(** The queue is a heap of comparable results as long as the candidates
    that found room in it were comparable: a candidate met once the queue
    is full only enters by being greater than its head, which NaN never
    is. *)
Lemma offer_heap topK c queue :
  ((Z.of_nat (length queue) < topK)%Z → comparable c) →
  Forall comparable queue → FastPriorityQueue.heap_ordered by_similarity queue →
  Forall comparable (offer topK c queue) ∧
  FastPriorityQueue.heap_ordered by_similarity (offer topK c queue).
Proof.
  intros Hc Hall Hheap.
  destruct (decide (Z.of_nat (length queue) < topK)%Z) as [Hlt|Hge].
  - rewrite offer_room by done. split.
    + rewrite add_Permutation. constructor; auto.
    + apply (add_heap_ordered by_similarity comparable
               by_similarity_asym by_similarity_trans); auto.
  - destruct queue as [|m rest]; [by rewrite offer_full_empty|].
    rewrite (offer_full _ _ _ m) by done.
    destruct (JSNumber.gt _ _) eqn:Hgt; [|done].
    apply gt_comparable in Hgt.
    destruct (poll_Some by_similarity (m :: rest)) as (x & Hpoll & _); [done|].
    apply poll_Permutation in Hpoll.
    assert (Forall comparable
              (FastPriorityQueue.poll by_similarity (m :: rest)).2).
    { rewrite Hpoll in Hall. by apply Forall_cons in Hall as [_ ?]. }
    split.
    + rewrite add_Permutation. by constructor.
    + apply (add_heap_ordered by_similarity comparable
               by_similarity_asym by_similarity_trans); auto.
      apply (poll_heap_ordered by_similarity comparable
               by_similarity_asym by_similarity_trans); auto.
Qed.

Lemma queue_after_heap topK candidates :
  Forall comparable (take (Z.to_nat topK) candidates) →
  Forall comparable (queue_after topK candidates) ∧
  FastPriorityQueue.heap_ordered by_similarity (queue_after topK candidates).
Proof.
  induction candidates as [|c seen IH] using rev_ind.
  { intros _. split; [constructor|]. by intros i x y _ ?. }
  intros Hall. rewrite queue_after_snoc.
  assert (Forall comparable (take (Z.to_nat topK) seen)) as Hseen.
  { rewrite take_app in Hall. by apply Forall_app in Hall as [? _]. }
  destruct (IH Hseen) as [? ?].
  apply offer_heap; [|done..].
  rewrite queue_after_length. intros Hlt.
  rewrite take_app in Hall. apply Forall_app in Hall as [_ Hall].
  destruct (Z.to_nat topK - length seen) as [|n] eqn:E; [lia|].
  simpl in Hall. by apply Forall_cons in Hall as [? _].
Qed.

Lemma results_of_length queue : length (results_of queue) = length queue.
Proof.
  unfold results_of. rewrite length_reverse.
  apply Permutation_length, drain_Permutation.
Qed.

Lemma results_of_Permutation queue : results_of queue ≡ₚ queue.
Proof.
  unfold results_of. rewrite reverse_Permutation. apply drain_Permutation.
Qed.

Lemma results_of_descending queue :
  Forall comparable queue → FastPriorityQueue.heap_ordered by_similarity queue →
  descending (results_of queue).
Proof.
  intros Hall Hheap i j a b Hij Ha Hb. unfold results_of in *.
  pose proof (drain_ascending by_similarity comparable
    by_similarity_asym by_similarity_trans queue Hall Hheap) as Hasc.
  assert (j < length (FastPriorityQueue.drain by_similarity queue)).
  { apply lookup_lt_Some in Hb. by rewrite length_reverse in Hb. }
  rewrite reverse_lookup in Ha, Hb by lia.
  unfold descending, by_similarity in *. eapply Hasc; [|exact Hb|exact Ha]. lia.
Qed.

Lemma replacement_policy_holds topK candidates :
  (0 < topK)%Z →
  Forall comparable (take (Z.to_nat topK) candidates) →
  replacement_policy topK candidates.
Proof.
  intros HK Hall seen c later -> queue queue'.
  assert (Forall comparable (take (Z.to_nat topK) seen)) as Hseen.
  { rewrite take_app in Hall. by apply Forall_app in Hall as [? _]. }
  destruct (queue_after_heap topK seen Hseen) as [Hok Hheap].
  fold queue in Hok, Hheap. unfold queue'. rewrite queue_after_snoc. fold queue.
  case_decide as Hlt.
  - rewrite offer_room by done. apply add_Permutation.
  - destruct (poll_Some by_similarity queue) as (m & Hpoll & Hm).
    { intros Hq. rewrite Hq in Hlt. simpl in Hlt. lia. }
    exists m, (FastPriorityQueue.poll by_similarity queue).2. split; [|split].
    + by apply (poll_Permutation by_similarity).
    + intros x Hx.
      apply (root_minimal by_similarity comparable
               by_similarity_asym by_similarity_trans queue m); auto.
    + rewrite (offer_full _ _ _ m) by done.
      destruct (JSNumber.gt _ _); [apply add_Permutation|done].
Qed.

(* ===================================================================== *)
(** ** The local search *)
(* ===================================================================== *)

Section LocalSearch.
Context `{Builtins}.

Lemma local_queue_candidates m queryEmbedding topK filter objects :
  local_queue m queryEmbedding topK filter objects =
  queue_after topK (local_candidates m queryEmbedding filter objects).
Proof.
  unfold local_queue, queue_after, local_candidates.
  generalize (@nil SearchResult) as queue.
  induction objects as [|o objects IH]; intros queue; [done|].
  simpl. destruct (matches filter (m o)); simpl; apply IH.
Qed.

(** What [search] does when [useStorage] selects the records of the
    index: it reads the index and changes nothing. *)
Lemma search_local queryEmbedding K filter useStorage storageOptions w :
  local_source useStorage = true →
  search queryEmbedding
    (Some {| topK := K; filter := filter; useStorage := useStorage;
             storageOptions := storageOptions |}) w =
  (Normal
     (results_of
        (queue_after (topK_of K)
           (local_candidates (mem w) queryEmbedding (default ∅ filter)
              (objects (this w))))), w).
Proof.
  intros Hlocal. unfold search, topK_of. simpl.
  destruct useStorage as [[| |]|]; try discriminate Hlocal;
    simpl; unfold bind, read, ret; by rewrite local_queue_candidates.
Qed.

Lemma search_local_options queryEmbedding K filter w :
  search queryEmbedding (local_options K filter) w =
  (Normal
     (results_of
        (queue_after (topK_of K)
           (local_candidates (mem w) queryEmbedding (default ∅ filter)
              (objects (this w))))), w).
Proof. by apply search_local. Qed.

(** A search called without options is the local search for the 3 best
    records. *)
Lemma search_without_options queryEmbedding w :
  search queryEmbedding None w =
  search queryEmbedding (local_options (Some 3%Z) None) w.
Proof. done. Qed.

Lemma local_candidates_app m queryEmbedding filter os1 os2 :
  local_candidates m queryEmbedding filter (os1 ++ os2) =
  local_candidates m queryEmbedding filter os1
  ++ local_candidates m queryEmbedding filter os2.
Proof. unfold local_candidates. by rewrite List.filter_app, map_app. Qed.

Lemma local_candidates_singleton m queryEmbedding filter o :
  local_candidates m queryEmbedding filter [o] =
  if matches filter (m o)
  then [ {| similarity :=
              cosineSimilarity queryEmbedding (embedding_of (m o));
            object := InIndex o |} ]
  else [].
Proof. unfold local_candidates. simpl. by destruct (matches _ _). Qed.

(** What the search returns when the index holds the records [os]. *)
Lemma local_results_holding w queryEmbedding K filter os :
  (0 < K)%Z →
  local_results (holding os w) queryEmbedding K filter =
  results_of
    (queue_after K (local_candidates (mem w) queryEmbedding filter os)).
Proof.
  intros HK. unfold local_results. rewrite search_local_options. cbn [fst].
  unfold topK_of. simpl. by destruct (Z.eqb_spec K 0) as [->|_]; [lia|].
Qed.

Lemma search_replacement_policy_holds w queryEmbedding K filter :
  (0 < K)%Z →
  Forall comparable
    (take (Z.to_nat K)
       (local_candidates (mem w) queryEmbedding filter (objects (this w)))) →
  search_replacement_policy w queryEmbedding K filter.
Proof.
  intros HK Hall seen o later Hsplit. cbv zeta.
  rewrite !local_results_holding by done.
  rewrite Hsplit in Hall.
  change (o :: later) with ([o] ++ later) in Hall.
  rewrite !local_candidates_app, local_candidates_singleton in Hall.
  rewrite local_candidates_app, local_candidates_singleton.
  destruct (matches filter (mem w o)).
  2:{ by rewrite app_nil_r. }
  set (c := {| similarity := _; object := InIndex o |}) in Hall |- *.
  pose proof (replacement_policy_holds K _ HK Hall
                (local_candidates (mem w) queryEmbedding filter seen) c
                (local_candidates (mem w) queryEmbedding filter later)
                eq_refl) as Hpolicy.
  cbv zeta in Hpolicy. rewrite results_of_length.
  revert Hpolicy.
  generalize (queue_after K
                (local_candidates (mem w) queryEmbedding filter seen ++ [c]))
    as queue'.
  generalize (queue_after K
                (local_candidates (mem w) queryEmbedding filter seen))
    as queue.
  intros queue queue' Hpolicy. case_decide as Hlt.
  - by rewrite !results_of_Permutation.
  - destruct Hpolicy as (m & rest & Hperm & Hmin & Hgt).
    exists m, rest. split; [by rewrite results_of_Permutation|]. split.
    + intros x Hx. apply Hmin. by rewrite results_of_Permutation in Hx.
    + destruct (JSNumber.gt _ _); [by rewrite results_of_Permutation|].
      by rewrite Hgt.
Qed.

End LocalSearch.

(* ===================================================================== *)
(** ** C1 and C9: the results of a local search *)
(* ===================================================================== *)

(** C1.  For every store, query, filter and positive [K], a search that
    reads the records of the index ([useStorage] absent or other than
    ['indexedDB']) returns exactly [min K (number of matching records)]
    results and leaves the index as it was.  When none of the first [K]
    matching records has NaN for similarity, the results are in
    descending order of similarity (equal similarities in any order), and
    the search takes the records of the store one after the other in
    this way: what it returns over the records up to and including a
    record is what it returns over those before it, where the record, if
    it passes the filter, has joined the results while they are fewer
    than [K], and has otherwise replaced a minimum of them exactly when
    its similarity is greater. *)
Theorem search_local_top_k `{Builtins} (w : world) (queryEmbedding : value)
  (K : Z) (filter : Filter) (useStorage : option StorageOptions)
  (storageOptions : option storageOptions_t) :
  (0 < K)%Z →
  local_source useStorage = true →
  let candidates :=
    local_candidates (mem w) queryEmbedding filter (objects (this w)) in
  ∃ results,
    search queryEmbedding
      (Some {| topK := Some K; filter := Some filter;
               useStorage := useStorage;
               storageOptions := storageOptions |}) w
      = (Normal results, w) ∧
    length results = Nat.min (Z.to_nat K) (length candidates) ∧
    (Forall comparable (take (Z.to_nat K) candidates) →
     descending results ∧
     search_replacement_policy w queryEmbedding K filter).
Proof.
  intros HK Hlocal candidates.
  exists (results_of (queue_after K candidates)). split.
  { rewrite search_local by done. unfold topK_of. simpl.
    by destruct (Z.eqb_spec K 0) as [->|_]; [lia|]. }
  split.
  - by rewrite results_of_length, queue_after_length.
  - intros Hall. split.
    + destruct (queue_after_heap K candidates Hall).
      by apply results_of_descending.
    + by apply search_replacement_policy_holds.
Qed.

Lemma search_local_top_k_witness :
  (0 < 2)%Z ∧
  local_source None = true ∧
  Forall comparable
    (take 2 (local_candidates (H := sample_builtins) four_records query_1_0 ∅
               [1; 3; 4])) ∧
  ∃ results,
    search (H := sample_builtins) query_1_0
      (Some {| topK := Some 2%Z; filter := Some ∅; useStorage := None;
               storageOptions := None |})
      three_records_indexed = (Normal results, three_records_indexed) ∧
    length results = 2 ∧ descending results.
Proof.
  assert (0 < 2)%Z as HK by lia.
  assert (local_source None = true) as Hlocal by reflexivity.
  assert (Forall comparable
    (take 2 (local_candidates (H := sample_builtins) four_records query_1_0 ∅
               [1; 3; 4]))) as Hall.
  { vm_compute. repeat constructor. }
  destruct (search_local_top_k (H := sample_builtins) three_records_indexed
              query_1_0 2 ∅ None None HK Hlocal)
    as (results & Hsearch & Hlen & Hrest).
  split; [exact HK|]. split; [exact Hlocal|]. split; [exact Hall|].
  exists results. split; [exact Hsearch|]. split; [exact Hlen|].
  exact (proj1 (Hrest Hall)).
Defined.

(** With the zero vector among the embeddings the order is lost: the
    four records score [0.707..], NaN, [1] and [0], and the search returns
    them as NaN, [1], [0], [0.707..]. *)
Lemma four_records_search :
  (search (H := sample_builtins) query_1_0 (local_options (Some 4%Z) (Some ∅))
     four_records_indexed).1 =
  Normal
    [ {| similarity := NaN; object := InIndex 2 |};
      {| similarity := of_Z 1; object := InIndex 3 |};
      {| similarity := of_Z 0; object := InIndex 4 |};
      {| similarity := S754_finite false 6369051672525772 (-53);
         object := InIndex 1 |} ].
Proof. vm_compute. reflexivity. Qed.

(** With a fifth record the replacement goes wrong too: record 5 scores
    [0.894..], and takes the place of record 1 ([0.707..]) although
    record 4 ([0]) is held. *)
Lemma five_records_search :
  objects (this five_records_indexed) = [1; 2; 3; 4] ++ [5] ∧
  matches ∅ (mem five_records_indexed 5) = true ∧
  local_results (H := sample_builtins) (holding [1; 2; 3; 4]
    five_records_indexed) query_1_0 4 ∅ =
    [ {| similarity := NaN; object := InIndex 2 |};
      {| similarity := of_Z 1; object := InIndex 3 |};
      {| similarity := of_Z 0; object := InIndex 4 |};
      {| similarity := S754_finite false 6369051672525772 (-53);
         object := InIndex 1 |} ] ∧
  local_results (H := sample_builtins) (holding ([1; 2; 3; 4] ++ [5])
    five_records_indexed) query_1_0 4 ∅ =
    [ {| similarity := NaN; object := InIndex 2 |};
      {| similarity := of_Z 1; object := InIndex 3 |};
      {| similarity := S754_finite false 8056283928194521 (-53);
         object := InIndex 5 |};
      {| similarity := of_Z 0; object := InIndex 4 |} ] ∧
  cosineSimilarity (Builtins := sample_builtins) query_1_0
    (embedding_of (mem five_records_indexed 5)) =
    S754_finite false 8056283928194521 (-53).
Proof. vm_compute. repeat split. Qed.

Lemma search_local_not_descending :
  ¬ local_search_as_stated (H := sample_builtins) four_records_indexed
      query_1_0 4 ∅ ∧
  ¬ search_replacement_policy (H := sample_builtins) five_records_indexed
      query_1_0 4 ∅.
Proof.
  split.
  - (* the order of the results *)
    intros (results & Hsearch & _ & Hdesc & _).
    apply (f_equal fst) in Hsearch. rewrite four_records_search in Hsearch.
    injection Hsearch as <-.
    specialize (Hdesc 2 3 _ _ (le_n 3) eq_refl eq_refl).
    vm_compute in Hdesc. discriminate Hdesc.
  - (* the record that is replaced *)
    intros Hpolicy.
    destruct five_records_search
      as (Hobjects & Hmatch & Hheld & Hheld' & Hc).
    specialize (Hpolicy [1; 2; 3; 4] 5 [] Hobjects). cbv zeta in Hpolicy.
    unfold loc in Hpolicy.
    rewrite Hmatch, Hheld, Hheld', Hc in Hpolicy.
    clear Hobjects Hmatch Hheld Hheld' Hc.
    destruct Hpolicy as (m & rest & Hperm & Hmin & Hgt).
    assert (m ∈ m :: rest) as Hm by left. rewrite <-Hperm in Hm.
    set (r1 := {| similarity := S754_finite false 6369051672525772 (-53);
                  object := InIndex 1 |}) in *.
    set (r4 := {| similarity := of_Z 0; object := InIndex 4 |}) in *.
    assert (JSNumber.lt (similarity r4) (similarity r1) = true) as Hlt41
      by (vm_compute; reflexivity).
    assert (r4 ∈ [ {| similarity := NaN; object := InIndex 2 |};
                   {| similarity := of_Z 1; object := InIndex 3 |}; r4; r1 ])
      as H4 by (right; right; left).
    assert (r1 ∈ [ {| similarity := NaN; object := InIndex 2 |};
                   {| similarity := of_Z 1; object := InIndex 3 |}; r4; r1 ])
      as H1 by (right; right; right; left).
    apply elem_of_cons in Hm as [->|Hm]; [discriminate Hgt|].
    apply elem_of_cons in Hm as [->|Hm].
    { specialize (Hmin r4 H4). vm_compute in Hmin. discriminate Hmin. }
    apply elem_of_cons in Hm as [->|Hm].
    2:{ apply elem_of_cons in Hm as [->|Hm].
        - specialize (Hmin r4 H4). congruence.
        - apply elem_of_nil in Hm. destruct Hm. }
    (* the minimum: record 4 *)
    rewrite Hperm in H1. apply elem_of_cons in H1 as [H1|H1];
      [discriminate H1|].
    assert (r1 ∈ {| similarity := S754_finite false 8056283928194521 (-53);
                    object := InIndex 5 |} :: rest) as Hin by (by right).
    change (JSNumber.gt _ _) with true in Hgt. cbv iota in Hgt.
    rewrite <-Hgt in Hin. clear -Hin.
    apply elem_of_cons in Hin as [Hin|Hin]; [discriminate Hin|].
    apply elem_of_cons in Hin as [Hin|Hin]; [discriminate Hin|].
    apply elem_of_cons in Hin as [Hin|Hin]; [discriminate Hin|].
    apply elem_of_cons in Hin as [Hin|Hin]; [discriminate Hin|].
    apply elem_of_nil in Hin. destruct Hin.
Qed.

(* ===================================================================== *)
(** ** The record store: what each method computes *)
(* ===================================================================== *)

Lemma with_this_this w : with_this (this w) w = w.
Proof. by destruct w. Qed.

Lemma set_objects_keys t :
  set_objects (objects t) t = t ∧ set_keys (keys t) t = t.
Proof. by destruct t. Qed.

Section RecordStoreFacts.
Context `{Builtins}.

Lemma validateAndAdd_run o w :
  validateAndAdd o w =
  let record := mem w o in
  if negb (Array_isArray (embedding_of record))
     || Array_some isNaN (embedding_of record)
  then (Throw InvalidEmbedding, w)
  else
    match keys (this w) with
    | [] =>
      (Normal tt,
       with_this (set_objects (objects (this w) ++ [o])
                    (set_keys (Object_keys record) (this w))) w)
    | _ :: _ =>
      if lacks_attribute (keys (this w)) record
      then (Throw SchemaMismatch, w)
      else (Normal tt,
            with_this (set_objects (objects (this w) ++ [o]) (this w)) w)
    end.
Proof.
  unfold validateAndAdd, bind, read, lacks_attribute. cbv zeta.
  destruct (negb _ || _); [done|].
  destruct (keys (this w)) as [|k ks] eqn:Hks; [done|].
  cbn [length Nat.eqb]. rewrite <-Hks.
  destruct (negb _); [done|]. 
  unfold ret, write_this. simpl. by destruct w.
Qed.


Lemma findIndex_None {A} (p : A → bool) l :
  findIndex p l = None ↔ List.filter p l = [].
Proof.
  induction l as [|x l IH]; simpl; [done|].
  destruct (p x); [done|]. rewrite <-IH.
  destruct (findIndex p l); simpl; split; congruence.
Qed.

Lemma findIndex_lookup {A} (p : A → bool) l :
  match findIndex p l with
  | Some i => l !! i
  | None => None
  end = head (List.filter p l).
Proof.
  induction l as [|x l IH]; simpl; [done|].
  destruct (p x); [done|].
  destruct (findIndex p l); simpl in *; done.
Qed.

Lemma findIndex_Some {A} (p : A → bool) l i :
  findIndex p l = Some i → ∃ x, l !! i = Some x ∧ p x = true.
Proof.
  revert i. induction l as [|x l IH]; intros i; simpl; [done|].
  destruct (p x) eqn:Hp.
  - intros [= <-]. by exists x.
  - destruct (findIndex p l) as [j|]; [|done]. intros [= <-]. by apply IH.
Qed.

Lemma matches_empty o : matches ∅ o = true.
Proof. unfold matches. by rewrite map_to_list_empty. Qed.

Lemma remove_run filter w :
  remove filter w =
  match findIndex (λ o, matches filter (mem w o)) (objects (this w)) with
  | None => (Throw VectorNotFound, w)
  | Some index =>
    (Normal tt,
     with_this (set_objects (delete index (objects (this w))) (this w)) w)
  end.
Proof.
  unfold remove, findVectorIndex, bind, read.
  by destruct (findIndex _ _).
Qed.

Lemma get_run filter w : get filter w = (Normal (head (matching filter w)), w).
Proof.
  unfold get, findVectorIndex, bind, read, matching.
  by rewrite <-findIndex_lookup.
Qed.

End RecordStoreFacts.


(* ===================================================================== *)
(** ** C5: add *)
(* ===================================================================== *)






(* ===================================================================== *)
(** ** C8: remove and get *)
(* ===================================================================== *)

(** C8.  For every store and filter, [remove(filter)] raises a
    [NotFoundError] exactly when no record matches the filter, as on an
    empty store, and then changes nothing; [get(filter)] never raises and
    changes nothing: it returns the first matching record in the order of
    the store, or null when none matches; the empty filter matches every
    record, so [get({})] returns the first record of the store. *)
Theorem remove_raises_get_returns (filter : Filter) (w : world) :
  ((∃ e w', remove filter w = (Throw e, w') ∧ kind_of e = NotFoundError)
     ↔ matching filter w = []) ∧
  (matching filter w = [] → remove filter w = (Throw VectorNotFound, w)) ∧
  (objects (this w) = [] → remove filter w = (Throw VectorNotFound, w)) ∧
  get filter w = (Normal (head (matching filter w)), w) ∧
  get ∅ w = (Normal (head (objects (this w))), w).
Proof.
  assert (matching filter w = [] → remove filter w = (Throw VectorNotFound, w))
    as Hnone.
  { intros Hm. rewrite remove_run. by apply findIndex_None in Hm as ->. }
  repeat split.
  - intros (e & w' & Hrun & _). rewrite remove_run in Hrun.
    destruct (findIndex _ _) eqn:Hfind; [done|]. by apply findIndex_None.
  - intros Hm. exists VectorNotFound, w. by rewrite Hnone.
  - done.
  - intros Hempty. apply Hnone. unfold matching. by rewrite Hempty.
  - apply get_run.
  - rewrite get_run. unfold matching. do 3 f_equal.
    induction (objects (this w)) as [|o os IH]; simpl; [done|].
    by rewrite matches_empty, IH.
Qed.

Lemma remove_raises_get_returns_witness :
  (matching (by_id 2) three_records_indexed = [] ∧
   remove (by_id 2) three_records_indexed
     = (Throw VectorNotFound, three_records_indexed)) ∧
  (objects (this (boot sample_records None)) = [] ∧
   remove (by_id 2) (boot sample_records None)
     = (Throw VectorNotFound, boot sample_records None)).
Proof.
  destruct (remove_raises_get_returns (by_id 2) three_records_indexed)
    as (_ & Hnone & _).
  destruct (remove_raises_get_returns (by_id 2) (boot sample_records None))
    as (_ & _ & Hempty & _).
  assert (matching (by_id 2) three_records_indexed = []) as Hmatching
    by (vm_compute; reflexivity).
  split; split.
  - exact Hmatching.
  - exact (Hnone Hmatching).
  - reflexivity.
  - exact (Hempty eq_refl).
Defined.

(* ===================================================================== *)
(** ** The constructor *)
(* ===================================================================== *)

Lemma store_only_refl w : store_only w w.
Proof. by repeat split. Qed.

Lemma store_only_trans w1 w2 w3 :
  store_only w1 w2 → store_only w2 w3 → store_only w1 w3.
Proof.
  unfold store_only. intros (?&?&?&?&?&?) (?&?&?&?&?&?).
  repeat split; congruence.
Qed.

Lemma store_only_reset w w' : store_only w w' → reset w' = reset w.
Proof.
  destruct w as [m [os ks c d s] i f], w' as [m' [os' ks' c' d' s'] i' f'].
  unfold store_only, reset, with_this, set_keys, set_objects. simpl.
  intros (?&?&?&?&?&?). by subst.
Qed.

Lemma reset_store_only w : store_only w (reset w).
Proof. by repeat split. Qed.

Lemma reset_reset w : reset (reset w) = reset w.
Proof. apply store_only_reset, reset_store_only. Qed.

Lemma Object_keys_nonempty (record : Filter) key :
  is_Some (record !! key) → Object_keys record ≠ [].
Proof.
  intros [v Hv] Hnil. unfold Object_keys in Hnil.
  apply fmap_nil_inv, map_to_list_empty_iff in Hnil. by subst.
Qed.

Lemma isArray_is_Some (record : Filter) :
  Array_isArray (embedding_of record) = true →
  is_Some (record !! "embedding").
Proof. unfold embedding_of. by destruct (record !! "embedding"). Qed.

Section ConstructorFacts.
Context `{Builtins}.

Lemma validateAndAdd_store_only o w c w' :
  validateAndAdd o w = (c, w') → store_only w w'.
Proof.
  rewrite validateAndAdd_run. cbv zeta.
  destruct (_ || _); [intros [= <- <-]; apply store_only_refl|].
  destruct (keys (this w)); [by intros [= <- <-]|].
  destruct (lacks_attribute _ _); intros [= <- <-]; by repeat split.
Qed.

Lemma validateAndAdd_keys o w w' :
  validateAndAdd o w = (Normal tt, w') →
  keys (this w') ≠ [] ∧
  keys (this w') =
    match keys (this w) with [] => Object_keys (mem w o) | ks => ks end.
Proof.
  rewrite validateAndAdd_run. cbv zeta.
  destruct (Array_isArray _) eqn:Harr; [|done]. simpl.
  destruct (Array_some _ _); [done|].
  destruct (keys (this w)) as [|k ks] eqn:Hks.
  - intros [= <-]. simpl. split; [|done].
    eapply Object_keys_nonempty, isArray_is_Some, Harr.
  - destruct (lacks_attribute _ _); [done|]. intros [= <-]. simpl.
    by rewrite Hks.
Qed.

Lemma forEach_cons {A} (f : A → M unit) x l w :
  forEach f (x :: l) w =
  match f x w with
  | (Normal _, w') => forEach f l w'
  | (Throw e, w') => (Throw e, w')
  end.
Proof. reflexivity. Qed.

Lemma forEach_validateAndAdd_store_only l w c w' :
  forEach validateAndAdd l w = (c, w') → store_only w w'.
Proof.
  revert w. induction l as [|o l IH]; intros w.
  { intros [= <- <-]. apply store_only_refl. }
  rewrite forEach_cons.
  destruct (validateAndAdd o w) as [[[]|e] w1] eqn:Hadd.
  - intros Hrest. eapply store_only_trans; [|by apply IH].
    by eapply validateAndAdd_store_only.
  - intros [= <- <-]. by eapply validateAndAdd_store_only.
Qed.

Lemma forEach_validateAndAdd_keys_kept l w w' :
  keys (this w) ≠ [] → forEach validateAndAdd l w = (Normal tt, w') →
  keys (this w') = keys (this w).
Proof.
  revert w. induction l as [|o l IH]; intros w Hks.
  { by intros [= <-]. }
  rewrite forEach_cons.
  destruct (validateAndAdd o w) as [[[]|e] w1] eqn:Hadd; [|done].
  apply validateAndAdd_keys in Hadd as [Hne Heq].
  intros Hrest. rewrite (IH w1 Hne Hrest), Heq.
  by destruct (keys (this w)).
Qed.

Lemma forEach_validateAndAdd_keys_set first rest w w' :
  keys (this w) = [] →
  forEach validateAndAdd (first :: rest) w = (Normal tt, w') →
  keys (this w') = Object_keys (mem w first).
Proof.
  intros Hks. rewrite forEach_cons.
  destruct (validateAndAdd first w) as [[[]|e] w1] eqn:Hadd; [|done].
  apply validateAndAdd_keys in Hadd as [Hne Heq]. rewrite Hks in Heq.
  intros Hrest. by rewrite (forEach_validateAndAdd_keys_kept _ _ _ Hne Hrest).
Qed.

(** A constructor block is the successive [validateAndAdd] of the
    initial records from an empty store without schema: the assignment
    to [keys] that ends the block writes what the first
    [validateAndAdd] has already set. *)
Lemma constructor_block_run initialObjects w :
  constructor_block initialObjects w =
  forEach validateAndAdd (default [] initialObjects) (reset w).
Proof.
  unfold constructor_block, bind, write_this.
  change (with_this (set_keys [] (this (with_this (set_objects [] (this w)) w)))
            (with_this (set_objects [] (this w)) w)) with (reset w).
  destruct initialObjects as [[|first rest]|]; [done| |done].
  change (default [] (Some (first :: rest))) with (first :: rest).
  cbn [length Nat.ltb Nat.leb lookup list_lookup].
  destruct (forEach validateAndAdd (first :: rest) (reset w))
    as [[[]|e] w1] eqn:Hrun; [|done].
  unfold read. f_equal.
  pose proof (forEach_validateAndAdd_keys_set first rest (reset w) w1
                eq_refl Hrun) as Hkeys.
  apply forEach_validateAndAdd_store_only in Hrun as (Hmem & _).
  rewrite Hmem, <-Hkeys, (proj2 (set_objects_keys _)). apply with_this_this.
Qed.

Lemma constructor_run initialObjects w :
  constructor initialObjects w =
  forEach validateAndAdd (default [] initialObjects) (initialised w).
Proof.
  unfold constructor, bind, write_this. rewrite constructor_block_run.
  fold (initialised w).
  destruct (forEach validateAndAdd (default [] initialObjects) (initialised w))
    as [[[]|e] w1] eqn:Hrun; [|done].
  pose proof (forEach_validateAndAdd_store_only _ _ _ _ Hrun) as Hframe.
  rewrite constructor_block_run, (store_only_reset _ _ Hframe).
  unfold initialised at 1. rewrite reset_reset. fold (initialised w).
  rewrite Hrun. f_equal. destruct Hframe as (_ & _ & _ & Hc & Hd & Hs).
  destruct w1 as [m [os ks c d s] i f]. simpl in *. by subst.
Qed.

End ConstructorFacts.

(* ===================================================================== *)
(** ** C10: construction from initial records *)
(* ===================================================================== *)

(** C10.  Constructing an index from an initial sequence of records
    yields exactly what constructing an empty index and calling [add] on
    each record in order yields: the same records in the same order, the
    same schema, an empty cache, and, when a record is rejected, the same
    error. *)
Theorem constructor_as_adds `{Builtins} (initialObjects : list loc)
  (w : world) :
  constructor (Some initialObjects) w =
  (constructor None ;;; forEach add initialObjects) w.
Proof.
  unfold bind at 1. rewrite !constructor_run. reflexivity.
Qed.

(* ===================================================================== *)
(** ** update *)
(* ===================================================================== *)

Lemma has_own_true (o : Filter) key :
  has_own o key = true ↔ is_Some (o !! key).
Proof. apply bool_decide_eq_true. Qed.

Lemma has_own_false (o : Filter) key :
  has_own o key = false ↔ o !! key = None.
Proof.
  unfold has_own. rewrite bool_decide_eq_false. symmetry.
  apply eq_None_not_Some.
Qed.


Lemma has_prop_embedding (o : Filter) :
  has_prop o "embedding" = has_own o "embedding".
Proof. unfold has_prop. apply orb_false_r. Qed.

Lemma Object_assign_lookup (target source : Filter) key :
  key ≠ "__proto__" →
  Object_assign target source !! key = (source ∪ target) !! key.
Proof.
  intros Hkey. unfold Object_assign.
  destruct (has_own target "__proto__"); [done|].
  by rewrite !lookup_union, lookup_delete_ne.
Qed.

Lemma Object_assign_union (target source : Filter) :
  source !! "__proto__" = None → Object_assign target source = source ∪ target.
Proof.
  intros Hnone. unfold Object_assign.
  destruct (has_own target "__proto__"); [done|]. by rewrite delete_id.
Qed.




Section UpdateFacts.
Context `{Builtins}.

Lemma call_hasOwnProperty_run (vector : Filter) key w :
  call_hasOwnProperty vector key w =
  if has_own vector "hasOwnProperty" then (Throw NotAFunction, w)
  else (Normal (has_own vector key), w).
Proof.
  unfold call_hasOwnProperty, get_prop.
  destruct (vector !! "hasOwnProperty") as [v|] eqn:Hv.
  - replace (has_own vector "hasOwnProperty") with true; [done|].
    symmetry. apply bool_decide_eq_true_2. by eexists.
  - replace (has_own vector "hasOwnProperty") with false; [done|].
    symmetry. apply bool_decide_eq_false_2. rewrite Hv. by intros [? ?].
Qed.

Lemma update_run filter vector w :
  update filter vector w =
  match findIndex (λ o, matches filter (mem w o)) (objects (this w)) with
  | None => (Throw VectorNotFound, w)
  | Some index =>
    if has_own (mem w vector) "hasOwnProperty" then (Throw NotAFunction, w)
    else
      match (if has_own (mem w vector) "embedding"
             then validateAndAdd vector w else (Normal tt, w)) with
      | (Throw e, w1) => (Throw e, w1)
      | (Normal _, w1) =>
        match objects (this w1) !! index with
        | Some target =>
          (Normal tt,
           with_mem
             (<[target := Object_assign (mem w1 target) (mem w1 vector)]>
                (mem w1)) w1)
        | None => (Normal tt, w1)
        end
      end
  end.
Proof.
  unfold update, findVectorIndex, bind at 1. unfold read at 1.
  destruct (findIndex _ _) as [index|]; [|done].
  unfold bind at 1. unfold read at 1. unfold bind at 1.
  rewrite call_hasOwnProperty_run.
  destruct (has_own (mem w vector) "hasOwnProperty"); [done|].
  assert (∀ w1 target, objects (this w1) !! index = Some target →
    with_this
      (set_objects (<[index:=target]> (objects (this w1))) (this w1))
      (with_mem (<[target := Object_assign (mem w1 target) (mem w1 vector)]>
                   (mem w1)) w1) =
    with_mem (<[target := Object_assign (mem w1 target) (mem w1 vector)]>
                (mem w1)) w1) as Hassign.
  { intros w1 target Ht. rewrite list_insert_id by done.
    destruct w1 as [m t i f]. unfold with_this, with_mem. simpl.
    by rewrite (proj1 (set_objects_keys _)). }
  unfold bind, read.
  destruct (has_own _ _).
  - destruct (validateAndAdd vector w) as [[[]|e] w1]; [|done].
    destruct (objects (this w1) !! index) as [target|] eqn:Ht; [|done].
    unfold write_mem, write_this. simpl. f_equal. by apply Hassign.
  - unfold ret.
    destruct (objects (this w) !! index) as [target|] eqn:Ht; [|done].
    unfold write_mem, write_this. simpl. f_equal. by apply Hassign.
Qed.

End UpdateFacts.

(* ===================================================================== *)
(** ** C2: update with a patch that carries an embedding *)
(* ===================================================================== *)

(** C2, for a patch that carries an embedding.  In the index that holds
    record 1 ([{ id: 1, embedding: [1, 1] }]), [update({ id: 1 }, patch)]
    with the patch [{ id: 1, embedding: [0, 1] }] succeeds and leaves two
    records in the store: the patch object itself has been appended after
    the record it was merged into, so the record count is not unchanged. *)
Theorem update_with_embedding_appends_patch :
  objects (this one_record_indexed) = [1] ∧
  (update (H := sample_builtins) (by_id 1) 7 one_record_indexed).1
    = Normal tt ∧
  objects (this (update (H := sample_builtins) (by_id 1) 7
                   one_record_indexed).2) = [1; 7] ∧
  (size (update (H := sample_builtins) (by_id 1) 7 one_record_indexed).2).1
    = Normal 2.
Proof. vm_compute. repeat split. Qed.

(* ===================================================================== *)
(** ** The invariant of the store *)
(* ===================================================================== *)

Section InvariantFacts.
Context `{Builtins}.



















End InvariantFacts.

(* ===================================================================== *)
(** ** C6: the invariant of the store *)
(* ===================================================================== *)










(* ===================================================================== *)
(** ** C9: topK equal to 0 *)
(* ===================================================================== *)

(** C9.  A search called with [topK] equal to 0 is the search called
    without [topK], and the search called with [topK] equal to 3,
    whatever the other options are; so over the records of an index of
    which at least 3 match the filter it returns 3 results. *)
Theorem search_topK_zero_is_default `{Builtins} (w : world)
  (queryEmbedding : value) (filter : option Filter)
  (useStorage : option StorageOptions)
  (storageOptions : option storageOptions_t) :
  let options k :=
    Some {| topK := k; filter := filter; useStorage := useStorage;
            storageOptions := storageOptions |} in
  search queryEmbedding (options (Some 0%Z)) w
    = search queryEmbedding (options None) w ∧
  search queryEmbedding (options (Some 0%Z)) w
    = search queryEmbedding (options (Some 3%Z)) w ∧
  (local_source useStorage = true →
   3 ≤ length (local_candidates (mem w) queryEmbedding (default ∅ filter)
                 (objects (this w))) →
   ∃ results,
     search queryEmbedding (options (Some 0%Z)) w = (Normal results, w) ∧
     length results = 3).
Proof.
  intros options. split; [done|]. split; [done|].
  intros Hlocal Hthree. eexists. split; [by apply search_local|].
  rewrite results_of_length, queue_after_length.
  change (Z.to_nat (topK_of (Some 0%Z))) with 3. lia.
Qed.

Lemma search_topK_zero_is_default_witness :
  local_source None = true ∧
  3 ≤ length (local_candidates (H := sample_builtins)
                (mem three_records_indexed) query_1_0 (default ∅ None)
                (objects (this three_records_indexed))) ∧
  ∃ results,
    search (H := sample_builtins) query_1_0
      (Some {| topK := Some 0%Z; filter := None; useStorage := None;
               storageOptions := None |})
      three_records_indexed = (Normal results, three_records_indexed) ∧
    length results = 3.
Proof.
  destruct (search_topK_zero_is_default (H := sample_builtins)
              three_records_indexed query_1_0 None None None)
    as (_ & _ & Hcount).
  assert (local_source None = true) as Hlocal by reflexivity.
  assert (3 ≤ length (local_candidates (H := sample_builtins)
                (mem three_records_indexed) query_1_0 (default ∅ None)
                (objects (this three_records_indexed)))) as Hthree.
  { vm_compute. apply le_n. }
  split; [exact Hlocal|]. split; [exact Hthree|exact (Hcount Hlocal Hthree)].
Defined.

(* ===================================================================== *)
(** ** The preloaded cache: what each method computes *)
(* ===================================================================== *)

Lemma clearIndexedDBCache_run w :
  clearIndexedDBCache w = (Normal tt, without_cache w).
Proof.
  unfold clearIndexedDBCache, without_cache, bind, read.
  by destruct (indexedDBDataCache (this w)).
Qed.

Lemma without_cache_cache w :
  indexedDBDataCache (this (without_cache w)) = None.
Proof.
  unfold without_cache. by destruct (indexedDBDataCache (this w)) eqn:E.
Qed.

Lemma without_cache_cleared w :
  cache_consistent (this w) → cache_cleared (this (without_cache w)).
Proof.
  unfold without_cache, cache_consistent, cache_cleared.
  destruct (indexedDBDataCache (this w)) eqn:E; [done|]. intros Hc.
  by destruct (Hc eq_refl).
Qed.

Lemma without_cache_idem w : without_cache (without_cache w) = without_cache w.
Proof.
  unfold without_cache at 1. by rewrite without_cache_cache.
Qed.

Lemma without_cache_fetched w : fetched (without_cache w) = fetched w.
Proof. unfold without_cache. by destruct (indexedDBDataCache (this w)). Qed.

Lemma without_cache_indexedDB w : indexedDB (without_cache w) = indexedDB w.
Proof. unfold without_cache. by destruct (indexedDBDataCache (this w)). Qed.

(** [preloadIndexedDB] never throws: a failed read is caught, and the
    [throw] that would pass it on is commented out in the source. *)
Lemma preloadIndexedDB_run DBname objectStoreName w :
  preloadIndexedDB DBname objectStoreName w =
  (Normal tt, preloaded DBname objectStoreName w).
Proof.
  unfold preloaded, preloadIndexedDB, bind at 1.
  rewrite clearIndexedDBCache_run.
  unfold try_catch, fetchedObjects, bind, read.
  rewrite without_cache_indexedDB.
  destruct (indexedDB w) as [idb|].
  2:{ unfold throw. cbv beta iota.
      by rewrite clearIndexedDBCache_run, without_cache_idem. }
  unfold note_fetch, throw, ret, write_this. rewrite without_cache_fetched.
  assert (without_cache
            (with_fetched ((DBname, objectStoreName) :: fetched w)
               (without_cache w)) =
          with_fetched ((DBname, objectStoreName) :: fetched w)
            (without_cache w)) as Hclear.
  { unfold without_cache at 1. simpl. by rewrite without_cache_cache. }
  destruct (idb DBname objectStoreName); cbv beta iota;
    rewrite ?clearIndexedDBCache_run, ?Hclear; done.
Qed.

Lemma preloaded_indexedDB DBname objectStoreName w :
  indexedDB (preloaded DBname objectStoreName w) = indexedDB w.
Proof.
  unfold preloaded. destruct (indexedDB w) as [idb|] eqn:Hidb;
    [|by rewrite without_cache_indexedDB].
  destruct (idb DBname objectStoreName); simpl;
    by rewrite without_cache_indexedDB.
Qed.

Lemma preloaded_fetched DBname objectStoreName w :
  fetched (preloaded DBname objectStoreName w) =
  match indexedDB w with
  | Some _ => (DBname, objectStoreName) :: fetched w
  | None => fetched w
  end.
Proof.
  unfold preloaded. destruct (indexedDB w) as [idb|];
    [|by rewrite without_cache_fetched].
  by destruct (idb DBname objectStoreName).
Qed.

Lemma preloaded_failure DBname objectStoreName w :
  fetch_succeeds w DBname objectStoreName = false →
  indexedDBDataCache (this (preloaded DBname objectStoreName w)) = None ∧
  (cache_consistent (this w) →
   cache_cleared (this (preloaded DBname objectStoreName w))).
Proof.
  unfold fetch_succeeds, preloaded. destruct (indexedDB w) as [idb|].
  - destruct (idb DBname objectStoreName); try done; intros _; simpl;
      (split; [apply without_cache_cache|apply without_cache_cleared]).
  - intros _. split; [apply without_cache_cache|apply without_cache_cleared].
Qed.

Lemma preloaded_success DBname objectStoreName w :
  fetch_succeeds w DBname objectStoreName = true →
  isCacheValid DBname objectStoreName
    (this (preloaded DBname objectStoreName w)) = true ∧
  is_Some (indexedDBDataCache (this (preloaded DBname objectStoreName w))).
Proof.
  unfold fetch_succeeds, preloaded, isCacheValid.
  destruct (indexedDB w) as [idb|]; [|done].
  destruct (idb DBname objectStoreName); try done. intros _. simpl.
  by rewrite !bool_decide_eq_true_2.
Qed.

(* ===================================================================== *)
(** ** C3: a failed explicit preload *)
(* ===================================================================== *)

(** C3.  When an explicit preload fails (the database
    cannot be opened, the object store is absent, the read fails, or
    there is no [indexedDB] at all), the call completes normally: the
    failure is caught and not passed on to the caller.  The cache is left
    cleared, without snapshot and without identity tag. *)
Theorem preload_failure_is_swallowed (w : world)
  (DBname objectStoreName : string) :
  cache_consistent (this w) →
  fetch_succeeds w DBname objectStoreName = false →
  ∃ w',
    preloadIndexedDB DBname objectStoreName w = (Normal tt, w') ∧
    cache_cleared (this w').
Proof.
  intros Hconsistent Hfails. eexists. split; [apply preloadIndexedDB_run|].
  by apply preloaded_failure.
Qed.

Lemma preload_failure_is_swallowed_witness :
  cache_consistent (this (boot no_objects failing_storage)) ∧
  fetch_succeeds (boot no_objects failing_storage)
    "clientVectorDB" "ClientEmbeddingStore" = false ∧
  ∃ w',
    preloadIndexedDB "clientVectorDB" "ClientEmbeddingStore"
      (boot no_objects failing_storage) = (Normal tt, w') ∧
    cache_cleared (this w').
Proof.
  assert (cache_consistent (this (boot no_objects failing_storage)))
    as Hconsistent by (intros _; split; reflexivity).
  split; [exact Hconsistent|]. split; [reflexivity|].
  exact (preload_failure_is_swallowed (boot no_objects failing_storage)
           "clientVectorDB" "ClientEmbeddingStore" Hconsistent eq_refl).
Defined.

Lemma preload_failure_not_raised :
  ¬ preload_failure_as_stated (boot no_objects failing_storage)
      "clientVectorDB" "ClientEmbeddingStore".
Proof.
  intros Hstated. destruct (Hstated eq_refl) as (e & w' & Hrun & _).
  rewrite preloadIndexedDB_run in Hrun. discriminate Hrun.
Qed.

(* ===================================================================== *)
(** ** The search over preloaded records *)
(* ===================================================================== *)

(** The cache fields stay consistent: the constructor clears them, the
    store methods do not touch them, and the cache methods set or clear
    the three of them together. *)
Lemma without_cache_consistent w :
  cache_consistent (this w) → cache_consistent (this (without_cache w)).
Proof. intros Hc _. by apply without_cache_cleared. Qed.

Lemma preloaded_consistent DBname objectStoreName w :
  cache_consistent (this w) →
  cache_consistent (this (preloaded DBname objectStoreName w)).
Proof.
  intros Hc. unfold preloaded. destruct (indexedDB w) as [idb|];
    [|by apply without_cache_consistent].
  destruct (idb DBname objectStoreName); simpl;
    try (by apply without_cache_consistent). done.
Qed.

Lemma store_only_consistent w w' :
  store_only w w' → cache_consistent (this w) → cache_consistent (this w').
Proof.
  unfold cache_consistent. intros (_ & _ & _ & -> & -> & ->). done.
Qed.

Section StorageSearch.
Context `{Builtins}.

Lemma constructor_consistent initialObjects w c w' :
  constructor initialObjects w = (c, w') → cache_consistent (this w').
Proof.
  rewrite constructor_run. intros Hrun%forEach_validateAndAdd_store_only.
  by eapply store_only_consistent.
Qed.

Lemma loadAndSearchFromIndexedDB_run DBname objectStoreName queryEmbedding
  topK filter w :
  loadAndSearchFromIndexedDB DBname objectStoreName queryEmbedding topK
    filter w =
  let w' :=
    if isCacheValid DBname objectStoreName (this w) then w
    else preloaded DBname objectStoreName w in
  (Normal
     match indexedDBDataCache (this w') with
     | Some objectsToSearch =>
       results_of (snapshot_queue queryEmbedding topK filter objectsToSearch)
     | None => []
     end, w').
Proof.
  unfold loadAndSearchFromIndexedDB, bind at 1. unfold read at 1.
  destruct (isCacheValid DBname objectStoreName (this w)) eqn:Hvalid;
    cbn [negb]; cbv zeta.
  - unfold bind, read. by destruct (indexedDBDataCache (this w)).
  - unfold bind, try_catch. rewrite preloadIndexedDB_run. unfold read.
    by destruct (indexedDBDataCache (this (preloaded _ _ w))).
Qed.

Lemma search_storage_options queryEmbedding topK filter storageOptions w :
  search queryEmbedding (storage_options topK filter storageOptions) w =
  match indexedDB w with
  | None => (Throw IndexedDBNotSupported, w)
  | Some _ =>
    loadAndSearchFromIndexedDB (DBname_of storageOptions)
      (objectStoreName_of storageOptions) queryEmbedding (topK_of topK)
      (default ∅ filter) w
  end.
Proof.
  unfold search, storage_options. simpl. unfold bind, read.
  by destruct (indexedDB w).
Qed.

End StorageSearch.

(* ===================================================================== *)
(** ** C4: a search whose preload fails *)
(* ===================================================================== *)

(** C4.  For every query, a search over storage that finds no valid
    snapshot and whose preload fails does not raise the failure: it
    returns the empty list of results.  The same holds of
    [loadAndSearchFromIndexedDB] called directly. *)
Theorem search_degrades_on_failed_preload `{Builtins} (w : world)
  (queryEmbedding : value) (topK : option Z) (filter : option Filter)
  (storageOptions : option storageOptions_t) :
  let DBname := DBname_of storageOptions in
  let objectStoreName := objectStoreName_of storageOptions in
  isCacheValid DBname objectStoreName (this w) = false →
  fetch_succeeds w DBname objectStoreName = false →
  (is_Some (indexedDB w) →
   ∃ w', search queryEmbedding (storage_options topK filter storageOptions) w
           = (Normal [], w')) ∧
  ∃ w', loadAndSearchFromIndexedDB DBname objectStoreName queryEmbedding
          (topK_of topK) (default ∅ filter) w = (Normal [], w').
Proof.
  intros DBname objectStoreName Hmiss Hfails.
  assert (∃ w', loadAndSearchFromIndexedDB DBname objectStoreName
                  queryEmbedding (topK_of topK) (default ∅ filter) w
                = (Normal [], w')) as Hload.
  { eexists. rewrite loadAndSearchFromIndexedDB_run, Hmiss. cbv zeta.
    by rewrite (proj1 (preloaded_failure _ _ _ Hfails)). }
  split; [|done]. intros [idb Hidb].
  rewrite search_storage_options, Hidb. exact Hload.
Qed.

Lemma search_degrades_on_failed_preload_witness :
  isCacheValid (DBname_of None) (objectStoreName_of None)
    (this (boot no_objects failing_storage)) = false ∧
  fetch_succeeds (boot no_objects failing_storage)
    (DBname_of None) (objectStoreName_of None) = false ∧
  is_Some (indexedDB (boot no_objects failing_storage)) ∧
  ∃ w',
    search (H := sample_builtins) query_1_0 (storage_options None None None)
      (boot no_objects failing_storage) = (Normal [], w').
Proof.
  assert (is_Some (indexedDB (boot no_objects failing_storage))) as Hidb
    by (by eexists).
  split; [reflexivity|]. split; [reflexivity|]. split; [exact Hidb|].
  exact (proj1 (search_degrades_on_failed_preload (H := sample_builtins)
                  (boot no_objects failing_storage) query_1_0 None None None
                  eq_refl eq_refl) Hidb).
Defined.

(* ===================================================================== *)
(** ** C7: when a search over storage fetches *)
(* ===================================================================== *)

(** C7.  Where [indexedDB] exists, a search over storage
    reads the object store exactly when the cache is not valid for the
    identity asked for (no snapshot, or a tag that differs from the pair
    of names); with a valid snapshot it ranks the snapshot and changes
    nothing.  Two searches in a row for one identity, without
    invalidation between them, read the store once when the cache was
    not valid and the read succeeds; they do not read it when the cache
    was valid, and read it twice when the read fails.  After an
    invalidation the next search reads the store. *)
Theorem storage_search_fetches_on_miss `{Builtins} (w : world)
  (q1 q2 : value) (k1 k2 : option Z) (f1 f2 : option Filter)
  (storageOptions : option storageOptions_t) :
  let DBname := DBname_of storageOptions in
  let objectStoreName := objectStoreName_of storageOptions in
  let search1 := search q1 (storage_options k1 f1 storageOptions) in
  let search2 := search q2 (storage_options k2 f2 storageOptions) in
  is_Some (indexedDB w) →
  fetches_during search1 w
    = (if isCacheValid DBname objectStoreName (this w) then 0 else 1) ∧
  (∀ cache, isCacheValid DBname objectStoreName (this w) = true →
     indexedDBDataCache (this w) = Some cache →
     search1 w =
       (Normal (results_of
          (snapshot_queue q1 (topK_of k1) (default ∅ f1) cache)), w)) ∧
  fetches_during (search1 ;;; search2) w
    = (if isCacheValid DBname objectStoreName (this w) then 0
       else if fetch_succeeds w DBname objectStoreName then 1 else 2) ∧
  fetches_during search2 ((search1 ;;; clearIndexedDBCache) w).2 = 1.
Proof.
  intros DBname objectStoreName search1 search2 [idb Hidb].
  assert (∀ q k f w0, indexedDB w0 = Some idb →
    search q (storage_options k f storageOptions) w0 =
    loadAndSearchFromIndexedDB DBname objectStoreName q (topK_of k)
      (default ∅ f) w0) as Hload.
  { intros q k f w0 Hidb0. by rewrite search_storage_options, Hidb0. }
  clearbody DBname objectStoreName.
  assert (∀ q k f w0, indexedDB w0 = Some idb →
    (search q (storage_options k f storageOptions) w0).2 =
    if isCacheValid DBname objectStoreName (this w0) then w0
    else preloaded DBname objectStoreName w0) as Hworld.
  { intros q k f w0 Hidb0.
    by rewrite Hload, loadAndSearchFromIndexedDB_run. }
  assert (∀ w0, indexedDB w0 = Some idb →
    length (fetched (preloaded DBname objectStoreName w0))
      = S (length (fetched w0))) as Hfetched.
  { intros w0 Hidb0. by rewrite preloaded_fetched, Hidb0. }
  assert (∀ q k f w0, indexedDB w0 = Some idb →
    ∃ r, search q (storage_options k f storageOptions) w0 =
         (Normal r, (search q (storage_options k f storageOptions) w0).2))
    as Hnormal.
  { intros q k f w0 Hidb0.
    rewrite Hload, loadAndSearchFromIndexedDB_run by done. by eexists. }
  split; [|split; [|split]].
  - unfold fetches_during, search1. rewrite Hworld by done.
    destruct (isCacheValid _ _ _); [lia|]. rewrite Hfetched by done. lia.
  - intros cache Hvalid Hcache. unfold search1.
    rewrite Hload, loadAndSearchFromIndexedDB_run by done.
    rewrite Hvalid. cbv zeta iota. by rewrite Hcache.
  - unfold fetches_during, bind.
    destruct (Hnormal q1 k1 f1 w Hidb) as [r1 Hsearch1].
    fold search1 in Hsearch1. rewrite Hsearch1. unfold search1, search2.
    rewrite (Hworld q1 k1 f1 w Hidb).
    destruct (isCacheValid DBname objectStoreName (this w)) eqn:Hvalid.
    { rewrite Hworld, Hvalid by done. lia. }
    assert (indexedDB (preloaded DBname objectStoreName w) = Some idb)
      as Hidb1 by (by rewrite preloaded_indexedDB).
    rewrite Hworld by done.
    destruct (fetch_succeeds w DBname objectStoreName) eqn:Hfetch.
    + rewrite (proj1 (preloaded_success _ _ _ Hfetch)).
      rewrite Hfetched by done. lia.
    + unfold isCacheValid at 1.
      rewrite (proj1 (preloaded_failure _ _ _ Hfetch)).
      rewrite !Hfetched by done. lia.
  - unfold fetches_during, bind.
    destruct (Hnormal q1 k1 f1 w Hidb) as [r1 Hsearch1].
    fold search1 in Hsearch1. rewrite Hsearch1, clearIndexedDBCache_run.
    cbn [snd]. set (w1 := without_cache _).
    assert (indexedDB w1 = Some idb) as Hidb1.
    { unfold w1, search1. rewrite without_cache_indexedDB, Hworld by done.
      destruct (isCacheValid _ _ _); [done|]. by rewrite preloaded_indexedDB. }
    unfold search2. rewrite Hworld by done.
    unfold isCacheValid at 1. unfold w1 at 1. rewrite without_cache_cache.
    rewrite Hfetched by done. lia.
Qed.

Lemma storage_search_fetches_on_miss_witness :
  is_Some (indexedDB (boot no_objects working_storage)) ∧
  fetches_during
    (search (H := sample_builtins) query_1_0
       (storage_options None None None) ;;;
     search (H := sample_builtins) query_1_0
       (storage_options None None None))
    (boot no_objects working_storage) = 1.
Proof.
  assert (is_Some (indexedDB (boot no_objects working_storage))) as Hidb
    by (by eexists).
  split; [exact Hidb|].
  exact (proj1 (proj2 (proj2
    (storage_search_fetches_on_miss (H := sample_builtins)
       (boot no_objects working_storage) query_1_0 query_1_0
       None None None None None Hidb)))).
Defined.

(** With a storage whose reads fail, each of two searches in a row reads
    the object store: the first leaves no snapshot behind. *)
Lemma two_searches_two_fetches :
  ¬ storage_searches_as_stated (H := sample_builtins)
      (boot no_objects failing_storage) query_1_0 query_1_0
      None None None None None.
Proof.
  intros Hstated. destruct Hstated as (_ & _ & Htwo & _); [by eexists|].
  vm_compute in Htwo. discriminate Htwo.
Qed.

(* ===================================================================== *)
(** ** The cache is consistent in every index a client can reach *)
(* ===================================================================== *)

Section Consistency.
Context `{Builtins}.

Lemma search_world queryEmbedding options w :
  (search queryEmbedding options w).2 = w ∨
  ∃ DBname objectStoreName,
    (search queryEmbedding options w).2 = preloaded DBname objectStoreName w.
Proof.
  unfold search. cbv zeta.
  destruct (default none_ (useStorage (default _ options))); try by left.
  unfold bind, read. destruct (indexedDB w); [|by left].
  rewrite loadAndSearchFromIndexedDB_run. cbv zeta.
  destruct (isCacheValid _ _ _); [by left|]. right. by eexists _, _.
Qed.

Lemma update_cache filter vector w c w' :
  update filter vector w = (c, w') →
  cache_consistent (this w) → cache_consistent (this w').
Proof.
  rewrite update_run. intros Hrun Hc.
  destruct (findIndex _ _) as [index|]; [|by injection Hrun as <- <-].
  destruct (has_own (mem w vector) "hasOwnProperty");
    [by injection Hrun as <- <-|].
  assert (∃ c1 w1,
    (if has_own (mem w vector) "embedding" then validateAndAdd vector w
     else (Normal (), w)) = (c1, w1) ∧ cache_consistent (this w1))
    as (c1 & w1 & Hvalidate & Hc1).
  { destruct (has_own _ _); [|by eexists _, _].
    destruct (validateAndAdd vector w) as [c1 w1] eqn:Hadd.
    exists c1, w1. split; [done|].
    apply validateAndAdd_store_only in Hadd. by eapply store_only_consistent. }
  rewrite Hvalidate in Hrun. destruct c1 as [[]|e].
  - destruct (objects (this w1) !! index); by injection Hrun as <- <-.
  - by injection Hrun as <- <-.
Qed.

Lemma removeBatch_cache filters w c w' :
  removeBatch filters w = (c, w') →
  cache_consistent (this w) → cache_consistent (this w').
Proof.
  unfold removeBatch. revert w.
  induction filters as [|filter filters IH]; intros w.
  { by intros [= <- <-]. }
  rewrite forEach_cons. unfold findVectorIndex, bind, read.
  destruct (findIndex _ _); intros Hrun Hc;
    (eapply IH; [exact Hrun|exact Hc]).
Qed.

Lemma perform_cache op w c w' :
  perform op w = (c, w') →
  cache_consistent (this w) → cache_consistent (this w').
Proof.
  destruct op; simpl.
  - intros Hadd%validateAndAdd_store_only. by apply store_only_consistent.
  - apply update_cache.
  - rewrite remove_run. by destruct (findIndex _ _); intros [= <- <-].
  - apply removeBatch_cache.
  - by intros [= <- <-].
Qed.

Lemma run_cache call w c w' :
  run call w = (c, w') →
  cache_consistent (this w) → cache_consistent (this w').
Proof.
  destruct call as [op|filter| |DBname objectStoreName| |q options]; simpl.
  - apply perform_cache.
  - unfold bind. rewrite get_run. by intros [= <- <-].
  - by intros [= <- <-].
  - rewrite preloadIndexedDB_run. intros [= <- <-].
    apply preloaded_consistent.
  - rewrite clearIndexedDBCache_run. intros [= <- <-].
    apply without_cache_consistent.
  - unfold bind.
    destruct (search_world q options w) as [Hw|(DBname & os & Hw)];
      destruct (search q options w) as [[r|e] w1]; simpl in Hw; subst w1;
      intros [= <- <-]; auto using preloaded_consistent.
Qed.

(** From the construction on, whatever the client calls and whether or
    not the calls succeed. *)
Lemma cache_always_consistent initialObjects calls w c w' :
  (constructor initialObjects ;;; forEach run calls) w = (c, w') →
  cache_consistent (this w').
Proof.
  unfold bind.
  destruct (constructor initialObjects w) as [[[]|e] w1] eqn:Hnew.
  2:{ intros [= <- <-]. by eapply constructor_consistent. }
  apply constructor_consistent in Hnew. revert w1 Hnew.
  induction calls as [|call calls IH]; intros w1 Hc.
  { by intros [= <- <-]. }
  rewrite forEach_cons.
  destruct (run call w1) as [[[]|e] w2] eqn:Hrun.
  - apply IH. by eapply run_cache.
  - intros [= <- <-]. by eapply run_cache.
Qed.

End Consistency.

(* ===================================================================== *)
(** ** remove, removeBatch and get, on a filter that matches *)
(* ===================================================================== *)

(** Where [findIndex] stops: nothing before it passes the test. *)
Lemma findIndex_split {A} (p : A → bool) l i :
  findIndex p l = Some i →
  ∃ x, l = take i l ++ x :: drop (S i) l ∧ p x = true ∧
       Forall (λ y, p y = false) (take i l).
Proof.
  revert i. induction l as [|y l IH]; intros i; simpl; [done|].
  destruct (p y) eqn:Hp.
  - intros [= <-]. exists y. simpl. rewrite drop_0. by repeat split.
  - destruct (findIndex p l) as [j|]; [|done]. intros [= <-].
    destruct (IH j eq_refl) as (x & Hl & Hx & Hbefore).
    exists x. simpl. split; [by f_equal|]. split; [done|]. by constructor.
Qed.

Lemma filter_none {A} (p : A → bool) l :
  Forall (λ y, p y = false) l → List.filter p l = [].
Proof.
  induction 1 as [|y l Hy _ IH]; simpl; [done|]. by rewrite Hy.
Qed.

Lemma filter_delete_first {A} (p : A → bool) l i :
  findIndex p l = Some i →
  List.filter p (delete i l) = tail (List.filter p l).
Proof.
  intros (x & Hl & Hx & Hbefore)%findIndex_split.
  rewrite delete_take_drop. rewrite Hl at 3.
  rewrite !List.filter_app. simpl. rewrite Hx.
  by rewrite (filter_none _ _ Hbefore).
Qed.

Lemma sublist_delete {A} (l : list A) i : sublist (delete i l) l.
Proof.
  revert i. induction l as [|x l IH]; intros [|i]; simpl.
  - done.
  - done.
  - by apply sublist_cons.
  - by apply sublist_skip.
Qed.

Lemma removeBatch_cons filter filters w :
  removeBatch (filter :: filters) w =
  removeBatch filters
    match findIndex (λ o, matches filter (mem w o)) (objects (this w)) with
    | Some index =>
      with_this (set_objects (delete index (objects (this w))) (this w)) w
    | None => w
    end.
Proof.
  unfold removeBatch. rewrite forEach_cons.
  unfold findVectorIndex, bind, read.
  by destruct (findIndex _ _).
Qed.

(** [remove(filter)] takes out of the store the record that
    [get(filter)] returns, and nothing else: the records before it (none
    of which matches) and after it keep their order, the schema, the
    cache and the record objects are as they were, one record fewer is
    held, and the records that match the filter are the former ones
    without their first. *)
Theorem remove_takes_what_get_returns (filter : Filter) (w : world)
  (target : loc) :
  (get filter w).1 = Normal (Some target) →
  ∃ before after w',
    objects (this w) = before ++ target :: after ∧
    Forall (λ o, matches filter (mem w o) = false) before ∧
    remove filter w = (Normal tt, w') ∧
    w' = with_this (set_objects (before ++ after) (this w)) w ∧
    (size w').1 = Normal (length (objects (this w)) - 1) ∧
    matching filter w' = tail (matching filter w).
Proof.
  rewrite get_run. simpl. intros [= Hhead].
  rewrite remove_run.
  destruct (findIndex _ _) as [index|] eqn:Hfind.
  2:{ apply findIndex_None in Hfind. unfold matching in Hhead.
      by rewrite Hfind in Hhead. }
  pose proof (findIndex_lookup (λ o, matches filter (mem w o))
                (objects (this w))) as Hlookup.
  rewrite Hfind in Hlookup. fold (matching filter w) in Hlookup.
  rewrite Hhead in Hlookup.
  destruct (findIndex_split _ _ _ Hfind) as (x & Hsplit & Hx & Hbefore).
  assert (x = target) as ->.
  { apply lookup_lt_Some in Hlookup as Hlt.
    apply (f_equal (λ l, l !! index)) in Hsplit.
    rewrite list_lookup_middle in Hsplit by (rewrite length_take; lia).
    congruence. }
  exists (take index (objects (this w))), (drop (S index) (objects (this w))).
  eexists. split; [done|]. split; [done|]. split; [done|].
  rewrite <-delete_take_drop. split; [done|]. split.
  - unfold size, read. simpl. f_equal. rewrite length_delete; [done|].
    by eexists.
  - unfold matching. simpl. by apply filter_delete_first.
Qed.

Lemma remove_takes_what_get_returns_witness :
  (get (by_id 3) three_records_indexed).1 = Normal (Some 3) ∧
  ∃ before after w',
    objects (this three_records_indexed) = before ++ 3 :: after ∧
    remove (by_id 3) three_records_indexed = (Normal tt, w') ∧
    matching (by_id 3) w' = tail (matching (by_id 3) three_records_indexed).
Proof.
  assert ((get (by_id 3) three_records_indexed).1 = Normal (Some 3)) as Hget
    by (vm_compute; reflexivity).
  split; [exact Hget|].
  destruct (remove_takes_what_get_returns (by_id 3) three_records_indexed 3
              Hget) as (before & after & w' & Hsplit & _ & Hrun & _ & _ & Hm).
  exists before, after, w'. split; [exact Hsplit|]. split; [exact Hrun|].
  exact Hm.
Defined.

(** [removeBatch(filters)] is [remove] called on each filter in turn
    with a failure to find a record passed over; so it never raises. *)
Theorem removeBatch_is_remove_each (filters : list Filter) (w : world) :
  removeBatch filters w = remove_each filters w ∧
  (removeBatch filters w).1 = Normal tt.
Proof.
  revert w. induction filters as [|filter filters IH]; intros w; [done|].
  rewrite removeBatch_cons. unfold remove_each. rewrite forEach_cons.
  unfold try_catch. rewrite remove_run.
  destruct (findIndex _ _); apply IH.
Qed.

(** [removeBatch(filters)] only takes records out: the records left are
    those of the store with some struck out, in their order, and at most
    one record goes for each filter; the schema, the cache and the record
    objects are as they were. *)
Theorem removeBatch_takes_out_at_most_one_each (filters : list Filter)
  (w : world) :
  let w' := (removeBatch filters w).2 in
  sublist (objects (this w')) (objects (this w)) ∧
  length (objects (this w)) ≤ length (objects (this w')) + length filters ∧
  keys (this w') = keys (this w) ∧
  store_only w w'.
Proof.
  revert w. induction filters as [|filter filters IH]; intros w.
  { simpl. repeat split; done || lia. }
  cbv zeta. rewrite removeBatch_cons.
  destruct (findIndex _ _) as [index|] eqn:Hfind.
  - destruct (IH (with_this (set_objects (delete index (objects (this w)))
                               (this w)) w)) as (Hsub & Hlen & Hkeys & Hframe).
    simpl in *. split; [|split; [|split]].
    + etrans; [exact Hsub|]. apply sublist_delete.
    + assert (length (delete index (objects (this w)))
              = length (objects (this w)) - 1) as Hdel.
      { apply length_delete.
        apply findIndex_Some in Hfind as (x & Hx & _). by eexists. }
      lia.
    + done.
    + eapply store_only_trans; [|exact Hframe]. by repeat split.
  - destruct (IH w) as (Hsub & Hlen & Hkeys & Hframe).
    simpl. repeat split; try done; try lia; apply Hframe.
Qed.

(* ===================================================================== *)
(** ** add, update and the constructor: what they accept and leave *)
(* ===================================================================== *)

Section AcceptFacts.
Context `{Builtins}.

Lemma acceptable_checks ks (record : Filter) :
  acceptable ks record =
  negb (negb (Array_isArray (embedding_of record))
        || Array_some isNaN (embedding_of record))
  && negb (lacks_attribute ks record).
Proof.
  unfold acceptable, lacks_attribute.
  destruct (Array_isArray _), (Array_some _ _), (forallb _ _); done.
Qed.


(** [validateAndAdd] in terms of [acceptable]. *)
Lemma validateAndAdd_acceptable o w :
  validateAndAdd o w =
  if acceptable (keys (this w)) (mem w o) then
    (Normal tt,
     with_this (set_objects (objects (this w) ++ [o])
                  (set_keys (schema_with (keys (this w)) (mem w o)) (this w)))
       w)
  else
    (Throw (if negb (Array_isArray (embedding_of (mem w o)))
               || Array_some isNaN (embedding_of (mem w o))
            then InvalidEmbedding else SchemaMismatch), w).
Proof.
  rewrite validateAndAdd_run, acceptable_checks. cbv zeta.
  destruct (_ || _); [done|]. simpl.
  destruct (keys (this w)) as [|k ks] eqn:Hks; [done|].
  destruct (lacks_attribute _ _); [done|]. simpl.
  rewrite <-Hks. by rewrite (proj2 (set_objects_keys _)).
Qed.



End AcceptFacts.


(* ===================================================================== *)
(** ** add and get *)
(* ===================================================================== *)

(** After a successful [add(obj)] the store holds one record more, and
    the records that match a filter are those that matched before,
    followed by [obj] when it matches: [get(filter)] finds [obj] exactly
    when [obj] matches and no earlier record does. *)
Theorem get_after_add `{Builtins} (filter : Filter) (o : loc)
  (w w' : world) :
  add o w = (Normal tt, w') →
  matching filter w' =
    matching filter w ++ (if matches filter (mem w o) then [o] else []) ∧
  get filter w' =
    (Normal match head (matching filter w) with
            | Some earlier => Some earlier
            | None => if matches filter (mem w o) then Some o else None
            end, w') ∧
  size w' = (Normal (S (length (objects (this w)))), w').
Proof.
  unfold add. rewrite validateAndAdd_acceptable.
  destruct (acceptable _ _); [|done]. intros [= <-].
  assert (matching filter
            (with_this
               (set_objects (objects (this w) ++ [o])
                  (set_keys (schema_with (keys (this w)) (mem w o)) (this w)))
               w) =
          matching filter w ++ (if matches filter (mem w o) then [o] else []))
    as Hm.
  { unfold matching. simpl. by rewrite List.filter_app. }
  split; [exact Hm|]. split.
  - rewrite get_run, Hm. do 2 f_equal.
    destruct (matching filter w); [|done].
    by destruct (matches filter (mem w o)).
  - unfold size, read. simpl. do 2 f_equal. rewrite length_app. simpl. lia.
Qed.

Lemma get_after_add_witness :
  add (H := sample_builtins) 6 one_record_indexed
    = (Normal tt, (add (H := sample_builtins) 6 one_record_indexed).2) ∧
  get (by_id 6) (add (H := sample_builtins) 6 one_record_indexed).2 =
    (Normal match head (matching (by_id 6) one_record_indexed) with
            | Some earlier => Some earlier
            | None =>
              if matches (by_id 6) (mem one_record_indexed 6) then Some 6
              else None
            end, (add (H := sample_builtins) 6 one_record_indexed).2).
Proof.
  assert (add (H := sample_builtins) 6 one_record_indexed
    = (Normal tt, (add (H := sample_builtins) 6 one_record_indexed).2))
    as Hadd.
  { apply injective_projections; [vm_compute; reflexivity|reflexivity]. }
  split; [exact Hadd|].
  exact (proj1 (proj2 (get_after_add (H := sample_builtins) (by_id 6) 6
                         one_record_indexed _ Hadd))).
Defined.

(* ===================================================================== *)
(** ** update *)
(* ===================================================================== *)

Lemma matching_head_findIndex filter w target :
  (get filter w).1 = Normal (Some target) →
  ∃ index,
    findIndex (λ o, matches filter (mem w o)) (objects (this w)) = Some index ∧
    objects (this w) !! index = Some target.
Proof.
  rewrite get_run. simpl. intros [= Hhead].
  pose proof (findIndex_lookup (λ o, matches filter (mem w o))
                (objects (this w))) as Hlookup.
  fold (matching filter w) in Hlookup. rewrite Hhead in Hlookup.
  destruct (findIndex _ _) as [index|]; [|done]. by exists index.
Qed.


(** [update(filter, vector)] with a patch that has no attribute of its
    own named [embedding], [hasOwnProperty] or [__proto__] writes the
    attributes of the patch into the record that [get(filter)] returns,
    the other attributes of that record staying as they were; the store
    holds the same references in the same order, the schema and the cache
    are the same, and no other object is written to. *)
Theorem update_merges_patch `{Builtins} (filter : Filter) (vector : loc)
  (w : world) (target : loc) :
  (get filter w).1 = Normal (Some target) →
  mem w vector !! "hasOwnProperty" = None →
  mem w vector !! "__proto__" = None →
  mem w vector !! "embedding" = None →
  ∃ w',
    update filter vector w = (Normal tt, w') ∧
    this w' = this w ∧
    (∀ key, mem w' target !! key =
            match mem w vector !! key with
            | Some v => Some v
            | None => mem w target !! key
            end) ∧
    ∀ o, o ≠ target → mem w' o = mem w o.
Proof.
  intros (index & Hfind & Htarget)%matching_head_findIndex.
  intros Hmethod%has_own_false Hproto Hpatch%has_own_false.
  eexists. split.
  { by rewrite update_run, Hfind, Hmethod, Hpatch, Htarget. }
  split; [done|]. simpl. split.
  - intros key. rewrite fn_lookup_insert, Object_assign_union by done.
    rewrite lookup_union.
    by destruct (mem w vector !! key), (mem w target !! key).
  - intros o Hne. by rewrite fn_lookup_insert_ne.
Qed.

Lemma update_merges_patch_witness :
  (get (by_id 3) two_records_indexed).1 = Normal (Some 3) ∧
  mem two_records_indexed 8 !! "hasOwnProperty" = None ∧
  mem two_records_indexed 8 !! "__proto__" = None ∧
  mem two_records_indexed 8 !! "embedding" = None ∧
  ∃ w',
    update (H := sample_builtins) (by_id 3) 8 two_records_indexed
      = (Normal tt, w') ∧
    this w' = this two_records_indexed ∧
    mem w' 3 !! "id" = Some (VNumber (of_Z 9)).
Proof.
  assert ((get (by_id 3) two_records_indexed).1 = Normal (Some 3)) as Hget
    by (vm_compute; reflexivity).
  assert (mem two_records_indexed 8 !! "hasOwnProperty" = None) as Hmethod
    by (vm_compute; reflexivity).
  assert (mem two_records_indexed 8 !! "__proto__" = None) as Hproto
    by (vm_compute; reflexivity).
  assert (mem two_records_indexed 8 !! "embedding" = None) as Hpatch
    by (vm_compute; reflexivity).
  split; [exact Hget|]. split; [exact Hmethod|]. split; [exact Hproto|].
  split; [exact Hpatch|].
  destruct (update_merges_patch (H := sample_builtins) (by_id 3) 8
              two_records_indexed 3 Hget Hmethod Hproto Hpatch)
    as (w' & Hrun & Hthis & Hmerged & _).
  exists w'. split; [exact Hrun|]. split; [exact Hthis|].
  rewrite Hmerged. vm_compute. reflexivity.
Defined.

(** [update(filter, vector)] with a patch that has an [embedding]
    attribute of its own, none named [hasOwnProperty] or [__proto__], and
    passes the checks of [validateAndAdd] does two things: the patch
    object itself is appended to the store, which then holds one record
    more, and the attributes of the patch are written into the record
    that [get(filter)] returns, the other attributes of that record
    staying as they were. *)
Theorem update_appends_accepted_patch `{Builtins} (filter : Filter)
  (vector : loc) (w : world) (target : loc) :
  (get filter w).1 = Normal (Some target) →
  mem w vector !! "hasOwnProperty" = None →
  mem w vector !! "__proto__" = None →
  is_Some (mem w vector !! "embedding") →
  acceptable (keys (this w)) (mem w vector) = true →
  ∃ w',
    update filter vector w = (Normal tt, w') ∧
    objects (this w') = objects (this w) ++ [vector] ∧
    keys (this w') = schema_with (keys (this w)) (mem w vector) ∧
    (∀ key, mem w' target !! key =
            match mem w vector !! key with
            | Some v => Some v
            | None => mem w target !! key
            end) ∧
    (∀ o, o ≠ target → mem w' o = mem w o) ∧
    (size w').1 = Normal (S (length (objects (this w)))).
Proof.
  intros (index & Hfind & Htarget)%matching_head_findIndex.
  intros Hmethod%has_own_false Hproto Hpatch%has_own_true Hok.
  eexists. split.
  { rewrite update_run, Hfind, Hmethod, Hpatch, validateAndAdd_acceptable, Hok.
    cbn [this with_this objects set_objects mem].
    by rewrite (lookup_app_l_Some _ _ _ _ Htarget). }
  simpl. split; [done|]. split; [done|]. split.
  { intros key. rewrite fn_lookup_insert, Object_assign_union by done.
    rewrite lookup_union.
    by destruct (mem w vector !! key), (mem w target !! key). }
  split.
  { intros o Hne. by rewrite fn_lookup_insert_ne. }
  rewrite length_app. simpl. do 2 f_equal. lia.
Qed.

Lemma update_appends_accepted_patch_witness :
  (get (by_id 1) one_record_indexed).1 = Normal (Some 1) ∧
  mem one_record_indexed 7 !! "hasOwnProperty" = None ∧
  mem one_record_indexed 7 !! "__proto__" = None ∧
  is_Some (mem one_record_indexed 7 !! "embedding") ∧
  acceptable (H := sample_builtins) (keys (this one_record_indexed))
    (mem one_record_indexed 7) = true ∧
  ∃ w',
    update (H := sample_builtins) (by_id 1) 7 one_record_indexed
      = (Normal tt, w') ∧
    objects (this w') = objects (this one_record_indexed) ++ [7].
Proof.
  assert ((get (by_id 1) one_record_indexed).1 = Normal (Some 1)) as Hget
    by (vm_compute; reflexivity).
  assert (mem one_record_indexed 7 !! "hasOwnProperty" = None) as Hmethod
    by (vm_compute; reflexivity).
  assert (mem one_record_indexed 7 !! "__proto__" = None) as Hproto
    by (vm_compute; reflexivity).
  assert (is_Some (mem one_record_indexed 7 !! "embedding")) as Hpatch
    by (vm_compute; eexists; reflexivity).
  assert (acceptable (H := sample_builtins) (keys (this one_record_indexed))
            (mem one_record_indexed 7) = true) as Hok
    by (vm_compute; reflexivity).
  split; [exact Hget|]. split; [exact Hmethod|]. split; [exact Hproto|].
  split; [exact Hpatch|]. split; [exact Hok|].
  destruct (update_appends_accepted_patch (H := sample_builtins) (by_id 1) 7
              one_record_indexed 1 Hget Hmethod Hproto Hpatch Hok)
    as (w' & Hrun & Hobjects & _).
  exists w'. split; [exact Hrun|exact Hobjects].
Defined.

(* ===================================================================== *)
(** ** The schema, once set *)
(* ===================================================================== *)

Lemma without_cache_same_store w : same_store w (without_cache w).
Proof.
  unfold without_cache. by destruct (indexedDBDataCache (this w)).
Qed.

Lemma preloaded_same_store DBname objectStoreName w :
  same_store w (preloaded DBname objectStoreName w).
Proof.
  unfold preloaded.
  destruct (indexedDB w) as [idb|] eqn:Hidb; [|apply without_cache_same_store].
  destruct (without_cache_same_store w) as (Hm & Ho & Hk & Hi).
  destruct (idb DBname objectStoreName); by repeat split.
Qed.

Section SchemaFacts.
Context `{Builtins}.

Lemma search_same_store queryEmbedding options w :
  same_store w (search queryEmbedding options w).2.
Proof.
  destruct (search_world queryEmbedding options w)
    as [->|(DBname & objectStoreName & ->)]; [done|].
  apply preloaded_same_store.
Qed.

Lemma perform_keys op w c w' :
  keys (this w) ≠ [] → perform op w = (c, w') →
  keys (this w') = keys (this w).
Proof.
  intros Hks. destruct op as [o|filter vector|filter|filters|]; simpl.
  - rewrite validateAndAdd_acceptable.
    destruct (acceptable _ _); intros [= <- <-]; [|done]. simpl.
    by destruct (keys (this w)).
  - rewrite update_run. destruct (findIndex _ _) as [index|];
      [|by intros [= <- <-]].
    destruct (has_own (mem w vector) "hasOwnProperty");
      [by intros [= <- <-]|].
    destruct (has_own _ _).
    + rewrite validateAndAdd_acceptable.
      destruct (acceptable _ _); [|by intros [= <- <-]].
      cbn [this with_this objects set_objects mem].
      destruct (_ !! index); intros [= <- <-]; simpl;
        by destruct (keys (this w)).
    + by destruct (_ !! index); intros [= <- <-].
  - rewrite remove_run. by destruct (findIndex _ _); intros [= <- <-].
  - clear Hks. revert w.
    induction filters as [|filter filters IH]; intros w.
    { by intros [= <- <-]. }
    rewrite removeBatch_cons.
    destruct (findIndex _ _); intros Hrun; exact (IH _ Hrun).
  - by intros [= <- <-].
Qed.

Lemma run_keys call w c w' :
  keys (this w) ≠ [] → run call w = (c, w') →
  keys (this w') = keys (this w).
Proof.
  intros Hks.
  destruct call as [op|filter| |DBname objectStoreName| |q options]; simpl.
  - by apply perform_keys.
  - unfold bind. rewrite get_run. by intros [= <- <-].
  - by intros [= <- <-].
  - rewrite preloadIndexedDB_run. intros [= <- <-].
    apply preloaded_same_store.
  - rewrite clearIndexedDBCache_run. intros [= <- <-].
    apply without_cache_same_store.
  - unfold bind.
    pose proof (search_same_store q options w) as (_ & _ & Hkeys & _).
    by destruct (search q options w) as [[r|e] w1]; intros [= <- <-].
Qed.

End SchemaFacts.

(** Once the index has a schema, no call replaces it: after any calls a
    client makes ([add], [update], [remove], [removeBatch], [clear],
    [get], [size], the preload, the clearing of the cache, [search]),
    whether they succeed or the run stops at one that raises, the schema
    is the one the index had.  [clear()] in particular empties the store
    and keeps the schema. *)
Theorem schema_is_never_replaced `{Builtins} (calls : list call)
  (w : world) (c : completion unit) (w' : world) :
  keys (this w) ≠ [] →
  forEach run calls w = (c, w') →
  keys (this w') = keys (this w).
Proof.
  revert w. induction calls as [|call calls IH]; intros w Hks.
  { by intros [= <- <-]. }
  rewrite forEach_cons.
  destruct (run call w) as [[[]|e] w1] eqn:Hrun.
  - pose proof (run_keys _ _ _ _ Hks Hrun) as Hkeys.
    intros Hrest. rewrite <-Hkeys. apply IH; [by rewrite Hkeys|done].
  - intros [= <- <-]. by eapply run_keys.
Qed.

Lemma schema_is_never_replaced_witness :
  keys (this one_record_indexed) ≠ [] ∧
  objects (this (forEach (run (H := sample_builtins))
                   [Store Clear; Store (Add 5)] one_record_indexed).2) = [] ∧
  keys (this (forEach (run (H := sample_builtins))
                [Store Clear; Store (Add 5)] one_record_indexed).2)
    = keys (this one_record_indexed).
Proof.
  assert (keys (this one_record_indexed) ≠ []) as Hks.
  { vm_compute. discriminate. }
  split; [exact Hks|]. split; [vm_compute; reflexivity|].
  exact (schema_is_never_replaced (H := sample_builtins)
           [Store Clear; Store (Add 5)] one_record_indexed _ _ Hks
           (surjective_pairing _)).
Defined.

(* ===================================================================== *)
(** ** Filters that match by strict equality *)
(* ===================================================================== *)

Lemma strict_eq_NaN v : strict_eq v (VNumber NaN) = false.
Proof. destruct v as [| | |x| | |]; try done. by destruct x. Qed.

Lemma prop_strict_eq_NaN o key : prop_strict_eq o key (VNumber NaN) = false.
Proof.
  unfold prop_strict_eq. destruct (get_prop o key); [|done].
  apply strict_eq_NaN.
Qed.

Lemma matches_false filter o key v :
  filter !! key = Some v → prop_strict_eq o key v = false →
  matches filter o = false.
Proof.
  intros Hkey Hne. unfold matches. apply not_true_is_false.
  rewrite forallb_forall. intros Hall.
  specialize (Hall (key, v)). simpl in Hall. rewrite Hne in Hall.
  discriminate Hall. apply list_elem_of_In. by apply elem_of_map_to_list.
Qed.

Lemma matching_none filter w :
  (∀ o, matches filter (mem w o) = false) → matching filter w = [].
Proof.
  intros Hnone. unfold matching.
  induction (objects (this w)) as [|o os IH]; simpl; [done|].
  by rewrite Hnone.
Qed.

Lemma results_of_nil : results_of [] = [].
Proof. reflexivity. Qed.

(** A filter that asks for NaN in an attribute matches no record, since
    NaN is not [===] to anything: with it [get] returns null, [remove] and
    [update] raise 'Vector not found', [removeBatch] does nothing, and a
    search over the records of the index has no result. *)
Theorem NaN_filter_finds_nothing `{Builtins} (filter : Filter)
  (key : string) (w : world) (queryEmbedding : value) (K : option Z) :
  filter !! key = Some (VNumber NaN) →
  get filter w = (Normal None, w) ∧
  remove filter w = (Throw VectorNotFound, w) ∧
  (∀ vector, update filter vector w = (Throw VectorNotFound, w)) ∧
  removeBatch [filter] w = (Normal tt, w) ∧
  search queryEmbedding (local_options K (Some filter)) w = (Normal [], w).
Proof.
  intros Hkey.
  assert (∀ o, matches filter (mem w o) = false) as Hnone.
  { intros o. eapply matches_false; [exact Hkey|apply prop_strict_eq_NaN]. }
  pose proof (matching_none _ _ Hnone) as Hm.
  assert (findIndex (λ o, matches filter (mem w o)) (objects (this w)) = None)
    as Hfind by (by apply findIndex_None).
  split; [by rewrite get_run, Hm|].
  split; [by rewrite remove_run, Hfind|].
  split; [intros vector; by rewrite update_run, Hfind|].
  split; [by rewrite removeBatch_cons, Hfind|].
  rewrite search_local_options. unfold local_candidates.
  change (default ∅ (Some filter)) with filter.
  fold (matching filter w). by rewrite Hm.
Qed.

Lemma NaN_filter_finds_nothing_witness :
  ({[ "id" := VNumber NaN ]} : Filter) !! "id" = Some (VNumber NaN) ∧
  get {[ "id" := VNumber NaN ]} three_records_indexed
    = (Normal None, three_records_indexed) ∧
  search (H := sample_builtins) query_1_0
    (local_options None (Some {[ "id" := VNumber NaN ]}))
    three_records_indexed = (Normal [], three_records_indexed).
Proof.
  assert (({[ "id" := VNumber NaN ]} : Filter) !! "id" = Some (VNumber NaN))
    as Hkey by reflexivity.
  split; [exact Hkey|].
  destruct (NaN_filter_finds_nothing (H := sample_builtins)
              {[ "id" := VNumber NaN ]} "id" three_records_indexed
              query_1_0 None Hkey) as (Hget & _ & _ & _ & Hsearch).
  split; [exact Hget|exact Hsearch].
Defined.

(** A filter that asks for [undefined] in an attribute matches the
    records that hold [undefined] in an attribute of their own of that
    name, and the records that have no attribute of that name, unless
    the name is that of a member of [Object.prototype], which every
    record then inherits: [get] returns the first of them. *)
Theorem undefined_filter_finds_missing_attribute (key : string)
  (w : world) :
  get {[ key := VUndefined ]} w =
  (Normal
     (head (List.filter
              (λ o, match mem w o !! key with
                    | Some VUndefined => true
                    | Some _ => false
                    | None => negb (inherited key)
                    end) (objects (this w)))), w).
Proof.
  rewrite get_run. unfold matching. do 3 f_equal.
  induction (objects (this w)) as [|o os IH]; simpl; [done|].
  rewrite IH. unfold matches. rewrite map_to_list_singleton.
  simpl. unfold prop_strict_eq, get_prop.
  destruct (mem w o !! key) as [[]|]; try done.
  by destruct (inherited key).
Qed.

(* ===================================================================== *)
(** ** The results of a search are the best candidates *)
(* ===================================================================== *)

(** What [offer] does to the queue, up to the order of the slots: the
    candidate joins it, takes the place of its head, or is left out. *)
Lemma offer_Permutation topK c queue :
  (offer topK c queue ≡ₚ c :: queue ∧
   (Z.of_nat (length queue) < topK)%Z) ∨
  (∃ m rest, queue !! 0 = Some m ∧ queue ≡ₚ m :: rest ∧
             offer topK c queue ≡ₚ c :: rest ∧
             JSNumber.gt (similarity c) (similarity m) = true ∧
             ¬ (Z.of_nat (length queue) < topK)%Z) ∨
  (offer topK c queue = queue ∧
   ¬ (Z.of_nat (length queue) < topK)%Z ∧
   ∀ m, queue !! 0 = Some m →
        JSNumber.gt (similarity c) (similarity m) = false).
Proof.
  destruct (decide (Z.of_nat (length queue) < topK)%Z) as [Hlt|Hge].
  { left. split; [|done]. rewrite offer_room by done. apply add_Permutation. }
  right. destruct queue as [|m rest].
  { right. rewrite offer_full_empty by (simpl in Hge; lia). by repeat split. }
  rewrite (offer_full _ _ _ m) by done.
  destruct (JSNumber.gt _ _) eqn:Hgt.
  - left. exists m, (FastPriorityQueue.poll by_similarity (m :: rest)).2.
    destruct (poll_Some by_similarity (m :: rest)) as (x & Hpoll & Hx);
      [done|].
    simpl in Hx. injection Hx as <-.
    split; [done|]. split; [by apply (poll_Permutation by_similarity)|].
    split; [apply add_Permutation|done].
  - right. split; [done|]. split; [done|].
    intros m' [= <-]. done.
Qed.

(** The queue after the loop holds candidates, each at most as often as
    it was met; the others are the candidates left out. *)
Lemma queue_after_split topK candidates :
  ∃ left_out, candidates ≡ₚ queue_after topK candidates ++ left_out.
Proof.
  induction candidates as [|c seen IH] using rev_ind; [by exists []|].
  destruct IH as [left_out IH]. rewrite queue_after_snoc.
  revert IH. generalize (queue_after topK seen) as queue. intros queue IH.
  destruct (offer_Permutation topK c queue)
    as [[Hin _]|[(m & rest & _ & Hq & Hin & _)|[Hin _]]].
  - exists left_out. rewrite Hin, IH.
    by rewrite <-Permutation_cons_append.
  - exists (m :: left_out). rewrite Hin, IH, Hq.
    rewrite <-Permutation_cons_append. simpl. apply perm_skip.
    apply Permutation_middle.
  - exists (c :: left_out). rewrite Hin, IH.
    rewrite <-Permutation_cons_append. apply Permutation_middle.
Qed.

(** No candidate left out is greater than one the queue holds, as long
    as the candidates that found room in the queue were comparable. *)
Lemma queue_after_best topK candidates :
  Forall comparable (take (Z.to_nat topK) candidates) →
  ∃ left_out,
    candidates ≡ₚ queue_after topK candidates ++ left_out ∧
    none_above (queue_after topK candidates) left_out.
Proof.
  induction candidates as [|c seen IH] using rev_ind.
  { intros _. exists []. split; [done|]. by intros r x ?%elem_of_nil. }
  intros Hall.
  assert (Forall comparable (take (Z.to_nat topK) seen)) as Hseen.
  { rewrite take_app in Hall. by apply Forall_app in Hall as [? _]. }
  destruct (IH Hseen) as (left_out & Hperm & Hbest).
  destruct (queue_after_heap topK seen Hseen) as [Hok Hheap].
  pose proof (queue_after_length topK seen) as Hlen.
  rewrite queue_after_snoc.
  revert Hperm Hbest Hok Hheap Hlen.
  generalize (queue_after topK seen) as queue.
  intros queue Hperm Hbest Hok Hheap Hlen.
  assert (∀ m, queue !! 0 = Some m →
            comparable m ∧
            ∀ x, x ∈ queue →
                 JSNumber.lt (similarity x) (similarity m) = false)
    as Hroot.
  { intros m Hm. split; [by eapply Forall_lookup_1|].
    apply (root_minimal by_similarity comparable
             by_similarity_asym by_similarity_trans queue m); auto. }
  destruct (offer_Permutation topK c queue)
    as [[Hin Hroom]|[(m & rest & Hm & Hq & Hin & Hgt & _)|(Hin & _ & Hle)]].
  - (* room in the queue: nothing has been left out so far *)
    assert (left_out = []) as ->.
    { apply Permutation_length in Hperm. rewrite length_app in Hperm.
      destruct left_out; [done|]. simpl in Hperm. lia. }
    exists []. split.
    + rewrite Hin, Hperm, !app_nil_r. by rewrite <-Permutation_cons_append.
    + by intros r x _ ?%elem_of_nil.
  - (* the head [m] of the queue is left out for [c] *)
    destruct (Hroot m Hm) as [Hcm Hmin].
    pose proof (gt_comparable _ _ Hgt) as Hcc.
    exists (m :: left_out). split.
    + rewrite Hin, Hperm, Hq.
      rewrite <-Permutation_cons_append. simpl. apply perm_skip.
      apply Permutation_middle.
    + intros r x Hr Hx. rewrite Hin in Hr.
      assert (JSNumber.lt (similarity c) (similarity m) = false) as Hcm'.
      { by apply lt_asym. }
      apply elem_of_cons in Hr as [->|Hr], Hx as [->|Hx].
      * done.
      * destruct (is_nan (similarity x)) eqn:Hnan; [by apply lt_nan_r|].
        apply (ge_trans _ (similarity m)); auto.
        apply Hbest; [|done]. by eapply list_elem_of_lookup_2.
      * apply Hmin. rewrite Hq. by right.
      * apply Hbest; [|done]. rewrite Hq. by right.
  - (* [c] is left out *)
    exists (c :: left_out). split.
    + rewrite Hin, Hperm.
      rewrite <-Permutation_cons_append. apply Permutation_middle.
    + intros r x Hr Hx. rewrite Hin in Hr.
      apply elem_of_cons in Hx as [->|Hx]; [|by apply Hbest].
      destruct (is_nan (similarity c)) eqn:Hnan; [by apply lt_nan_r|].
      apply list_elem_of_lookup in Hr as Hr'. destruct Hr' as [i Hi].
      destruct (lookup_lt_is_Some_2 queue 0) as [m Hm].
      { apply lookup_lt_Some in Hi. lia. }
      destruct (Hroot m Hm) as [Hcm Hmin].
      apply (ge_trans _ (similarity m)); auto.
      * eapply (Forall_lookup_1 comparable); eauto.
      * apply (Hle m Hm).
Qed.

Section SearchResults.
Context `{Builtins}.

Lemma local_candidates_elem m queryEmbedding filter objects r :
  r ∈ local_candidates m queryEmbedding filter objects →
  ∃ o, o ∈ objects ∧ matches filter (m o) = true ∧
       r = {| similarity :=
                cosineSimilarity queryEmbedding (embedding_of (m o));
              object := InIndex o |}.
Proof.
  unfold local_candidates.
  intros (o & -> & Ho)%list_elem_of_fmap.
  apply list_elem_of_In, filter_In in Ho as [Ho Hm].
  exists o. split; [by apply list_elem_of_In|done].
Qed.

End SearchResults.

(** A search over the records of the index returns only records of the
    store that pass the filter, each with the similarity of its embedding
    to the query, and none more often than the store holds it: the
    results are some of the candidates, whatever [topK] is and whether or
    not some similarity is NaN. *)
Theorem search_local_returns_candidates `{Builtins} (w : world)
  (queryEmbedding : value) (K : option Z) (filter : option Filter)
  (useStorage : option StorageOptions)
  (storageOptions : option storageOptions_t) :
  local_source useStorage = true →
  ∃ results,
    search queryEmbedding (options_of K filter useStorage storageOptions) w
      = (Normal results, w) ∧
    results ⊆+ local_candidates (mem w) queryEmbedding (default ∅ filter)
                 (objects (this w)) ∧
    ∀ r, r ∈ results →
      ∃ o, o ∈ objects (this w) ∧
           matches (default ∅ filter) (mem w o) = true ∧
           object r = InIndex o ∧
           similarity r =
             cosineSimilarity queryEmbedding
               (embedding_of (mem w o)).
Proof.
  intros Hlocal. eexists. split; [by apply search_local|].
  set (candidates := local_candidates _ _ _ _).
  assert (results_of (queue_after (topK_of K) candidates) ⊆+ candidates)
    as Hsub.
  { destruct (queue_after_split (topK_of K) candidates) as [left_out Hperm].
    rewrite results_of_Permutation. revert Hperm.
    generalize (queue_after (topK_of K) candidates) as queue.
    intros queue ->. by apply submseteq_inserts_r. }
  split; [exact Hsub|].
  intros r Hr. eapply elem_of_submseteq in Hr; [|exact Hsub].
  apply local_candidates_elem in Hr as (o & Ho & Hm & ->).
  by exists o.
Qed.

Lemma search_local_returns_candidates_witness :
  local_source None = true ∧
  ∃ results,
    search (H := sample_builtins) query_1_0
      (options_of (Some 2%Z) (Some (by_id 3)) None None) four_records_indexed
      = (Normal results, four_records_indexed) ∧
    ∀ r, r ∈ results →
      ∃ o, o ∈ objects (this four_records_indexed) ∧
           matches (by_id 3) (mem four_records_indexed o) = true ∧
           object r = InIndex o ∧
           similarity r =
             cosineSimilarity_spec query_1_0
               (embedding_of (mem four_records_indexed o)).
Proof.
  assert (local_source None = true) as Hlocal by reflexivity.
  split; [exact Hlocal|].
  destruct (search_local_returns_candidates (H := sample_builtins)
              four_records_indexed query_1_0 (Some 2%Z) (Some (by_id 3))
              None None Hlocal) as (results & Hsearch & _ & Hall).
  exists results. split; [exact Hsearch|exact Hall].
Defined.

(** A search over the records of the index returns the best candidates:
    the candidates are the results together with the candidates left out,
    and no candidate left out has a greater similarity than a result,
    provided none of the first [K] matching records has NaN for
    similarity. *)
Theorem search_local_keeps_the_best `{Builtins} (w : world)
  (queryEmbedding : value) (K : option Z) (filter : option Filter)
  (useStorage : option StorageOptions)
  (storageOptions : option storageOptions_t) :
  let candidates :=
    local_candidates (mem w) queryEmbedding (default ∅ filter)
      (objects (this w)) in
  local_source useStorage = true →
  Forall comparable (take (Z.to_nat (topK_of K)) candidates) →
  ∃ results left_out,
    search queryEmbedding (options_of K filter useStorage storageOptions) w
      = (Normal results, w) ∧
    candidates ≡ₚ results ++ left_out ∧
    none_above results left_out.
Proof.
  intros candidates Hlocal Hall.
  destruct (queue_after_best (topK_of K) candidates Hall)
    as (left_out & Hperm & Hbest).
  eexists _, left_out. split; [by apply search_local|].
  fold candidates. split.
  - by rewrite results_of_Permutation.
  - intros r x Hr Hx. apply Hbest; [|done].
    by rewrite results_of_Permutation in Hr.
Qed.

Lemma search_local_keeps_the_best_witness :
  local_source None = true ∧
  Forall comparable
    (take (Z.to_nat (topK_of (Some 2%Z)))
       (local_candidates (H := sample_builtins) (mem three_records_indexed)
          query_1_0 (default ∅ None) (objects (this three_records_indexed)))) ∧
  ∃ results left_out,
    search (H := sample_builtins) query_1_0
      (options_of (Some 2%Z) None None None) three_records_indexed
      = (Normal results, three_records_indexed) ∧
    none_above results left_out.
Proof.
  assert (local_source None = true) as Hlocal by reflexivity.
  assert (Forall comparable
    (take (Z.to_nat (topK_of (Some 2%Z)))
       (local_candidates (H := sample_builtins) (mem three_records_indexed)
          query_1_0 (default ∅ None) (objects (this three_records_indexed)))))
    as Hall.
  { vm_compute. repeat constructor. }
  split; [exact Hlocal|]. split; [exact Hall|].
  destruct (search_local_keeps_the_best (H := sample_builtins)
              three_records_indexed query_1_0 (Some 2%Z) None None None
              Hlocal Hall) as (results & left_out & Hsearch & _ & Hbest).
  exists results, left_out. split; [exact Hsearch|exact Hbest].
Defined.

(* ===================================================================== *)
(** ** The search over preloaded records: what it ranks *)
(* ===================================================================== *)

Lemma queue_after_nonpositive topK candidates :
  (topK ≤ 0)%Z → queue_after topK candidates = [].
Proof.
  intros HK. apply length_zero_iff_nil.
  rewrite queue_after_length. lia.
Qed.

Lemma preloaded_cache DBname objectStoreName w idb records :
  indexedDB w = Some idb →
  idb DBname objectStoreName = getAll_onsuccess records →
  this (preloaded DBname objectStoreName w) =
    set_cache (Some records) (Some DBname) (Some objectStoreName) (this w) ∧
  fetched (preloaded DBname objectStoreName w)
    = (DBname, objectStoreName) :: fetched w.
Proof.
  intros Hidb Hread. unfold preloaded. rewrite Hidb, Hread.
  unfold without_cache. by destruct (indexedDBDataCache (this w)).
Qed.

Section StorageRanking.
Context `{Builtins}.

Lemma snapshot_queue_candidates queryEmbedding topK filter records :
  snapshot_queue queryEmbedding topK filter records =
  queue_after topK (snapshot_candidates queryEmbedding filter records).
Proof.
  unfold snapshot_queue, queue_after, snapshot_candidates.
  generalize (@nil SearchResult) as queue.
  induction records as [|record records IH]; intros queue; [done|].
  simpl. destruct (matches filter record); simpl; [|apply IH].
  destruct (Array_isArray _); simpl; apply IH.
Qed.

Lemma snapshot_candidates_elem queryEmbedding filter records r :
  r ∈ snapshot_candidates queryEmbedding filter records →
  ∃ record,
    record ∈ records ∧ matches filter record = true ∧
    Array_isArray (embedding_of record) = true ∧
    r = {| similarity :=
             cosineSimilarity queryEmbedding (embedding_of record);
           object := InSnapshot record |}.
Proof.
  unfold snapshot_candidates.
  intros (record & -> & Hr)%list_elem_of_fmap.
  apply list_elem_of_In, filter_In in Hr as [Hr [Hm Ha]%andb_true_iff].
  exists record. split; [by apply list_elem_of_In|done].
Qed.

(** What a search over storage returns and leaves, given the records it
    ranks. *)
Lemma search_storage_records queryEmbedding K filter storageOptions w
  records :
  is_Some (indexedDB w) →
  records_searched (DBname_of storageOptions)
    (objectStoreName_of storageOptions) w = Some records →
  ∃ w',
    search queryEmbedding (storage_options K filter storageOptions) w =
    (Normal
       (results_of
          (queue_after (topK_of K)
             (snapshot_candidates queryEmbedding (default ∅ filter)
                records))), w') ∧
    indexedDBDataCache (this w') = Some records ∧
    isCacheValid (DBname_of storageOptions)
      (objectStoreName_of storageOptions) (this w') = true ∧
    same_store w w'.
Proof.
  intros [idb Hidb]. unfold records_searched.
  rewrite search_storage_options, Hidb, loadAndSearchFromIndexedDB_run.
  cbv zeta.
  destruct (isCacheValid _ _ (this w)) eqn:Hvalid.
  - intros Hcache. exists w. rewrite Hcache, snapshot_queue_candidates.
    by repeat split.
  - destruct (idb _ _) eqn:Hread; try done. intros [= ->].
    destruct (preloaded_cache _ _ _ _ _ Hidb Hread) as [Hthis _].
    exists (preloaded (DBname_of storageOptions)
              (objectStoreName_of storageOptions) w).
    rewrite Hthis. cbn [indexedDBDataCache set_cache].
    rewrite snapshot_queue_candidates.
    split; [done|]. split; [done|]. split.
    + unfold isCacheValid. simpl. by rewrite !bool_decide_eq_true_2.
    + apply preloaded_same_store.
Qed.

End StorageRanking.

(** A search over storage returns [min topK (number of candidates)]
    results, all of them candidates and none more often than it was met:
    a candidate is a record of the snapshot ranked (the valid snapshot,
    or the records just read) that passes the filter and whose embedding
    is an array; a record without an array for embedding is passed over.
    The search leaves that snapshot in the cache, valid for the identity
    asked for, and does not touch the records of the index. *)
Theorem search_storage_returns_candidates `{Builtins} (w : world)
  (queryEmbedding : value) (K : option Z) (filter : option Filter)
  (storageOptions : option storageOptions_t) (records : list Filter) :
  let DBname := DBname_of storageOptions in
  let objectStoreName := objectStoreName_of storageOptions in
  let candidates :=
    snapshot_candidates queryEmbedding (default ∅ filter) records in
  is_Some (indexedDB w) →
  records_searched DBname objectStoreName w = Some records →
  ∃ results w',
    search queryEmbedding (storage_options K filter storageOptions) w
      = (Normal results, w') ∧
    indexedDBDataCache (this w') = Some records ∧
    isCacheValid DBname objectStoreName (this w') = true ∧
    same_store w w' ∧
    length results = Nat.min (Z.to_nat (topK_of K)) (length candidates) ∧
    results ⊆+ candidates ∧
    ∀ r, r ∈ results →
      ∃ record,
        record ∈ records ∧ matches (default ∅ filter) record = true ∧
        Array_isArray (embedding_of record) = true ∧
        object r = InSnapshot record ∧
        similarity r =
          cosineSimilarity queryEmbedding (embedding_of record).
Proof.
  intros DBname objectStoreName candidates Hidb Hrecords.
  destruct (search_storage_records queryEmbedding K filter storageOptions w
              records Hidb Hrecords) as (w' & Hsearch & Hcache & Hvalid & Hw).
  fold candidates in Hsearch.
  exists (results_of (queue_after (topK_of K) candidates)), w'.
  split; [done|]. split; [done|]. split; [done|]. split; [done|].
  assert (results_of (queue_after (topK_of K) candidates) ⊆+ candidates)
    as Hsub.
  { destruct (queue_after_split (topK_of K) candidates) as [left_out Hperm].
    rewrite results_of_Permutation. revert Hperm.
    generalize (queue_after (topK_of K) candidates) as queue.
    intros queue ->. by apply submseteq_inserts_r. }
  split; [by rewrite results_of_length, queue_after_length|].
  split; [exact Hsub|].
  intros r Hr. eapply elem_of_submseteq in Hr; [|exact Hsub].
  apply snapshot_candidates_elem in Hr as (record & ? & ? & ? & ->).
  by exists record.
Qed.

Lemma search_storage_returns_candidates_witness :
  is_Some (indexedDB (boot no_objects working_storage)) ∧
  records_searched (DBname_of None) (objectStoreName_of None)
    (boot no_objects working_storage)
    = Some [record 1 [1; 1]%Z; record 3 [1; 0]%Z] ∧
  ∃ results w',
    search (H := sample_builtins) query_1_0 (storage_options None None None)
      (boot no_objects working_storage) = (Normal results, w') ∧
    length results = 2.
Proof.
  assert (is_Some (indexedDB (boot no_objects working_storage))) as Hidb
    by (by eexists).
  assert (records_searched (DBname_of None) (objectStoreName_of None)
            (boot no_objects working_storage)
          = Some [record 1 [1; 1]%Z; record 3 [1; 0]%Z]) as Hrecords
    by reflexivity.
  split; [exact Hidb|]. split; [exact Hrecords|].
  destruct (search_storage_returns_candidates (H := sample_builtins)
              (boot no_objects working_storage) query_1_0 None None None
              _ Hidb Hrecords)
    as (results & w' & Hsearch & _ & _ & _ & Hlen & _).
  exists results, w'. split; [exact Hsearch|exact Hlen].
Defined.

(** A search over storage returns the best candidates in descending
    order of similarity (equal similarities in any order): no candidate
    left out has a greater similarity than a result, provided none of the
    first [topK] candidates has NaN for similarity. *)
Theorem search_storage_keeps_the_best `{Builtins} (w : world)
  (queryEmbedding : value) (K : option Z) (filter : option Filter)
  (storageOptions : option storageOptions_t) (records : list Filter) :
  let DBname := DBname_of storageOptions in
  let objectStoreName := objectStoreName_of storageOptions in
  let candidates :=
    snapshot_candidates queryEmbedding (default ∅ filter) records in
  is_Some (indexedDB w) →
  records_searched DBname objectStoreName w = Some records →
  Forall comparable (take (Z.to_nat (topK_of K)) candidates) →
  ∃ results left_out,
    (search queryEmbedding (storage_options K filter storageOptions) w).1
      = Normal results ∧
    descending results ∧
    candidates ≡ₚ results ++ left_out ∧
    none_above results left_out.
Proof.
  intros DBname objectStoreName candidates Hidb Hrecords Hall.
  destruct (search_storage_records queryEmbedding K filter storageOptions w
              records Hidb Hrecords) as (w' & Hsearch & _).
  fold candidates in Hsearch.
  destruct (queue_after_best (topK_of K) candidates Hall)
    as (left_out & Hperm & Hbest).
  exists (results_of (queue_after (topK_of K) candidates)), left_out.
  split; [by rewrite Hsearch|]. split; [|split].
  - destruct (queue_after_heap (topK_of K) candidates Hall).
    by apply results_of_descending.
  - by rewrite results_of_Permutation.
  - intros r x Hr Hx. apply Hbest; [|done].
    by rewrite results_of_Permutation in Hr.
Qed.

Lemma search_storage_keeps_the_best_witness :
  is_Some (indexedDB (boot no_objects working_storage)) ∧
  records_searched (DBname_of None) (objectStoreName_of None)
    (boot no_objects working_storage)
    = Some [record 1 [1; 1]%Z; record 3 [1; 0]%Z] ∧
  Forall comparable
    (take (Z.to_nat (topK_of (Some 1%Z)))
       (snapshot_candidates (H := sample_builtins) query_1_0 (default ∅ None)
          [record 1 [1; 1]%Z; record 3 [1; 0]%Z])) ∧
  ∃ results left_out,
    (search (H := sample_builtins) query_1_0
       (storage_options (Some 1%Z) None None)
       (boot no_objects working_storage)).1 = Normal results ∧
    descending results ∧
    none_above results left_out.
Proof.
  assert (is_Some (indexedDB (boot no_objects working_storage))) as Hidb
    by (by eexists).
  assert (records_searched (DBname_of None) (objectStoreName_of None)
            (boot no_objects working_storage)
          = Some [record 1 [1; 1]%Z; record 3 [1; 0]%Z]) as Hrecords
    by reflexivity.
  assert (Forall comparable
    (take (Z.to_nat (topK_of (Some 1%Z)))
       (snapshot_candidates (H := sample_builtins) query_1_0 (default ∅ None)
          [record 1 [1; 1]%Z; record 3 [1; 0]%Z]))) as Hall.
  { vm_compute. repeat constructor. }
  split; [exact Hidb|]. split; [exact Hrecords|]. split; [exact Hall|].
  destruct (search_storage_keeps_the_best (H := sample_builtins)
              (boot no_objects working_storage) query_1_0 (Some 1%Z) None None
              _ Hidb Hrecords Hall)
    as (results & left_out & Hsearch & Hdesc & _ & Hbest).
  exists results, left_out.
  split; [exact Hsearch|]. split; [exact Hdesc|exact Hbest].
Defined.

(* ===================================================================== *)
(** ** The edges of the search options *)
(* ===================================================================== *)

(** A negative [topK] is kept as it is (only 0 and an absent [topK] give
    the default), and no candidate ever enters the queue: the search
    returns the empty list, over the records of the index as over
    storage. *)
Theorem search_negative_topK_is_empty `{Builtins} (w : world)
  (queryEmbedding : value) (K : Z) (filter : option Filter)
  (useStorage : option StorageOptions)
  (storageOptions : option storageOptions_t) :
  (K < 0)%Z →
  (local_source useStorage = true →
   search queryEmbedding
     (options_of (Some K) filter useStorage storageOptions) w
     = (Normal [], w)) ∧
  (is_Some (indexedDB w) →
   (search queryEmbedding (storage_options (Some K) filter storageOptions)
      w).1 = Normal []).
Proof.
  intros HK.
  assert (topK_of (Some K) = K) as HtopK.
  { unfold topK_of. by destruct (Z.eqb_spec K 0); [lia|]. }
  split.
  - intros Hlocal. unfold options_of. rewrite search_local by done.
    rewrite HtopK, queue_after_nonpositive by lia. done.
  - intros [idb Hidb].
    rewrite search_storage_options, Hidb, loadAndSearchFromIndexedDB_run.
    cbv zeta. cbn [fst].
    destruct (indexedDBDataCache _); [|done].
    rewrite snapshot_queue_candidates, HtopK.
    by rewrite queue_after_nonpositive by lia.
Qed.

Lemma search_negative_topK_is_empty_witness :
  (-1 < 0)%Z ∧
  search (H := sample_builtins) query_1_0
    (options_of (Some (-1)%Z) None None None) three_records_indexed
    = (Normal [], three_records_indexed).
Proof.
  assert (-1 < 0)%Z as HK by lia.
  split; [exact HK|].
  exact (proj1 (search_negative_topK_is_empty (H := sample_builtins)
                  three_records_indexed query_1_0 (-1) None None None HK)
           eq_refl).
Defined.

(** Where there is no [indexedDB], a search over storage raises
    'IndexedDB is not supported' and changes nothing, whether or not a
    snapshot is in the cache; [loadAndSearchFromIndexedDB] called
    directly does not raise there: it ranks the snapshot when it is valid
    for the identity asked for, and returns the empty list when not. *)
Theorem search_without_indexedDB_raises `{Builtins} (w : world)
  (queryEmbedding : value) (K : option Z) (filter : option Filter)
  (storageOptions : option storageOptions_t) :
  let DBname := DBname_of storageOptions in
  let objectStoreName := objectStoreName_of storageOptions in
  indexedDB w = None →
  search queryEmbedding (storage_options K filter storageOptions) w
    = (Throw IndexedDBNotSupported, w) ∧
  (loadAndSearchFromIndexedDB DBname objectStoreName queryEmbedding
     (topK_of K) (default ∅ filter) w).1 =
    Normal
      (if isCacheValid DBname objectStoreName (this w) then
         results_of
           (snapshot_queue queryEmbedding (topK_of K) (default ∅ filter)
              (default [] (indexedDBDataCache (this w))))
       else []).
Proof.
  intros DBname objectStoreName Hidb.
  split; [by rewrite search_storage_options, Hidb|].
  rewrite loadAndSearchFromIndexedDB_run. cbv zeta. simpl.
  destruct (isCacheValid _ _ _) eqn:Hvalid.
  - unfold isCacheValid in Hvalid. by destruct (indexedDBDataCache (this w)).
  - unfold preloaded. rewrite Hidb. by rewrite without_cache_cache.
Qed.

Lemma search_without_indexedDB_raises_witness :
  indexedDB three_records_indexed = None ∧
  search (H := sample_builtins) query_1_0 (storage_options None None None)
    three_records_indexed
    = (Throw IndexedDBNotSupported, three_records_indexed).
Proof.
  assert (indexedDB three_records_indexed = None) as Hidb
    by (vm_compute; reflexivity).
  split; [exact Hidb|].
  exact (proj1 (search_without_indexedDB_raises (H := sample_builtins)
                  three_records_indexed query_1_0 None None None Hidb)).
Defined.

Lemma isCacheValid_preloaded_other DBname objectStoreName d s w :
  d ≠ DBname →
  isCacheValid d s (this (preloaded DBname objectStoreName w)) = false.
Proof.
  intros Hne. unfold isCacheValid, preloaded.
  destruct (indexedDB w) as [idb|]; [|by rewrite without_cache_cache].
  destruct (idb DBname objectStoreName); simpl;
    rewrite ?without_cache_cache; try done.
  rewrite bool_decide_eq_false_2; [done|]. congruence.
Qed.

(** The names of the database and of the object store fall back on
    ['clientVectorDB'] and ['ClientEmbeddingStore'] when [storageOptions]
    is absent and also when a name is the empty string: the three
    searches are the same.  So a search that names the database [''] does
    not use what [preloadIndexedDB('', ...)] has put in the cache: it
    reads the object store of ['clientVectorDB']. *)
Theorem search_empty_names_are_defaults `{Builtins} (w : world)
  (queryEmbedding : value) (K : option Z) (filter : option Filter)
  (objectStoreName : string) :
  let empty_names :=
    Some {| indexedDBName := ""; indexedDBObjectStoreName := "" |} in
  search queryEmbedding (storage_options K filter empty_names) w
    = search queryEmbedding (storage_options K filter None) w ∧
  search queryEmbedding
    (storage_options K filter
       (Some {| indexedDBName := "clientVectorDB";
                indexedDBObjectStoreName := "ClientEmbeddingStore" |})) w
    = search queryEmbedding (storage_options K filter None) w ∧
  (is_Some (indexedDB w) →
   let w' := (preloadIndexedDB "" objectStoreName w).2 in
   fetched (search queryEmbedding
              (storage_options K filter
                 (Some {| indexedDBName := "";
                          indexedDBObjectStoreName := objectStoreName |}))
              w').2
   = ("clientVectorDB",
      string_or (Some objectStoreName) "ClientEmbeddingStore") :: fetched w').
Proof.
  cbv zeta. split; [by rewrite !search_storage_options|].
  split; [by rewrite !search_storage_options|].
  intros [idb Hidb]. rewrite preloadIndexedDB_run. cbn [snd].
  rewrite search_storage_options, preloaded_indexedDB, Hidb.
  rewrite loadAndSearchFromIndexedDB_run. cbv zeta. cbn [snd].
  change (DBname_of _) with "clientVectorDB".
  rewrite isCacheValid_preloaded_other by done.
  by rewrite preloaded_fetched, preloaded_indexedDB, Hidb.
Qed.

(* ===================================================================== *)
(** ** The preload and the searches that follow it *)
(* ===================================================================== *)

(** A preload that reads the object store makes the records read the
    snapshot, valid for the identity preloaded and for no other,
    whatever the cache held before; it reads the store once and leaves
    the records of the index alone.  A search over storage for that
    identity then ranks those records without reading the store again. *)
Theorem preload_then_search_reads_once `{Builtins} (w : world)
  (idb : string → string → fetch_outcome)
  (storageOptions : option storageOptions_t) (records : list Filter)
  (queryEmbedding : value) (K : option Z) (filter : option Filter) :
  let DBname := DBname_of storageOptions in
  let objectStoreName := objectStoreName_of storageOptions in
  indexedDB w = Some idb →
  idb DBname objectStoreName = getAll_onsuccess records →
  ∃ w',
    preloadIndexedDB DBname objectStoreName w = (Normal tt, w') ∧
    indexedDBDataCache (this w') = Some records ∧
    (∀ d s, isCacheValid d s (this w') =
            bool_decide (d = DBname) && bool_decide (s = objectStoreName)) ∧
    fetched w' = (DBname, objectStoreName) :: fetched w ∧
    same_store w w' ∧
    search queryEmbedding (storage_options K filter storageOptions) w' =
      (Normal
         (results_of
            (queue_after (topK_of K)
               (snapshot_candidates queryEmbedding (default ∅ filter)
                  records))), w').
Proof.
  intros DBname objectStoreName Hidb Hread.
  destruct (preloaded_cache _ _ _ _ _ Hidb Hread) as [Hthis Hfetched].
  exists (preloaded DBname objectStoreName w).
  split; [apply preloadIndexedDB_run|].
  assert (∀ d s,
    isCacheValid d s (this (preloaded DBname objectStoreName w)) =
    bool_decide (d = DBname) && bool_decide (s = objectStoreName)) as Hvalid.
  { intros d s. unfold isCacheValid. rewrite Hthis. simpl. f_equal.
    - apply bool_decide_ext. split; congruence.
    - apply bool_decide_ext. split; congruence. }
  split; [by rewrite Hthis|]. split; [exact Hvalid|].
  split; [exact Hfetched|]. split; [apply preloaded_same_store|].
  rewrite search_storage_options, preloaded_indexedDB, Hidb.
  rewrite loadAndSearchFromIndexedDB_run. cbv zeta.
  fold DBname objectStoreName.
  rewrite Hvalid, !bool_decide_eq_true_2 by done. simpl.
  rewrite Hthis. simpl. by rewrite snapshot_queue_candidates.
Qed.

Lemma preload_then_search_reads_once_witness :
  indexedDB (boot no_objects working_storage)
    = Some (λ _ _, getAll_onsuccess [record 1 [1; 1]%Z; record 3 [1; 0]%Z]) ∧
  ∃ w',
    preloadIndexedDB (DBname_of None) (objectStoreName_of None)
      (boot no_objects working_storage) = (Normal tt, w') ∧
    fetched w' = [(DBname_of None, objectStoreName_of None)] ∧
    fetched (search (H := sample_builtins) query_1_0
               (storage_options None None None) w').2
      = [(DBname_of None, objectStoreName_of None)].
Proof.
  assert (indexedDB (boot no_objects working_storage)
    = Some (λ _ _, getAll_onsuccess [record 1 [1; 1]%Z; record 3 [1; 0]%Z]))
    as Hidb by reflexivity.
  split; [exact Hidb|].
  destruct (preload_then_search_reads_once (H := sample_builtins)
              (boot no_objects working_storage) _ None _ query_1_0 None None
              Hidb eq_refl)
    as (w' & Hrun & _ & _ & Hfetched & _ & Hsearch).
  exists w'. split; [exact Hrun|]. split; [exact Hfetched|].
  rewrite Hsearch. exact Hfetched.
Defined.

(* ===================================================================== *)
(** ** The two search loops agree *)
(* ===================================================================== *)

(** The queue does not look into its elements beyond comparing them: it
    commutes with any map that keeps the comparisons. *)
Section QueueMap.
Context {A B : Type} (compareA : A → A → bool) (compareB : B → B → bool).
Context (f : A → B).
Hypothesis compare_f : ∀ x y, compareB (f x) (f y) = compareA x y.

Lemma percolateUp_fmap turns myval i (array : list A) :
  FastPriorityQueue.percolateUp compareB turns (f myval) i (f <$> array) =
  f <$> FastPriorityQueue.percolateUp compareA turns myval i array.
Proof.
  revert i array. induction turns as [|turns IH]; intros i array.
  { by rewrite !percolateUp_O, list_fmap_insert. }
  rewrite !percolateUp_S, list_lookup_fmap.
  destruct (Nat.eqb i 0); [by rewrite list_fmap_insert|].
  destruct (array !! ((i - 1) / 2)) as [ap|];
    cbn [fmap option_fmap option_map]; [|by rewrite list_fmap_insert].
  rewrite compare_f.
  destruct (negb (compareA myval ap)); [by rewrite list_fmap_insert|].
  by rewrite <-IH, list_fmap_insert.
Qed.

Lemma add_fmap myval (array : list A) :
  FastPriorityQueue.add compareB (f myval) (f <$> array) =
  f <$> FastPriorityQueue.add compareA myval array.
Proof.
  unfold FastPriorityQueue.add, FastPriorityQueue.size.
  rewrite length_fmap, <-percolateUp_fmap. by rewrite fmap_app.
Qed.

Lemma percolateDown_loop_fmap turns ai i (array : list A) :
  FastPriorityQueue.percolateDown_loop compareB turns (f ai) i
    (f <$> array) =
  f <$> FastPriorityQueue.percolateDown_loop compareA turns ai i array.
Proof.
  revert i array. induction turns as [|turns IH]; intros i array.
  { by rewrite !percolateDown_loop_O, list_fmap_insert. }
  rewrite !percolateDown_loop_S, !list_lookup_fmap, length_fmap.
  destruct (negb _); [by rewrite list_fmap_insert|].
  destruct (array !! (2 * i + 1)) as [al|];
    cbn [fmap option_fmap option_map]; [|by rewrite list_fmap_insert].
  destruct (array !! (2 * i + 1 + 1)) as [ar|];
    cbn [fmap option_fmap option_map].
  - rewrite compare_f. destruct (compareA ar al); rewrite compare_f;
      (destruct (negb _); [by rewrite list_fmap_insert|]);
      by rewrite <-IH, list_fmap_insert.
  - rewrite compare_f. destruct (negb _); [by rewrite list_fmap_insert|].
    by rewrite <-IH, list_fmap_insert.
Qed.

Lemma poll_fmap (array : list A) :
  FastPriorityQueue.poll compareB (f <$> array) =
  (f <$> (FastPriorityQueue.poll compareA array).1,
   f <$> (FastPriorityQueue.poll compareA array).2).
Proof.
  destruct array as [|ans rest]; [done|].
  destruct rest as [|final rest _] using rev_ind; [done|].
  rewrite fmap_cons, fmap_app. cbn [fmap list_fmap].
  rewrite !poll_snoc, length_fmap. cbn [fst snd].
  by rewrite <-percolateDown_loop_fmap.
Qed.

Lemma drain_loop_fmap turns (array : list A) :
  FastPriorityQueue.drain_loop compareB turns (f <$> array) =
  f <$> FastPriorityQueue.drain_loop compareA turns array.
Proof.
  revert array. induction turns as [|turns IH]; intros array; [done|].
  rewrite !drain_loop_S. unfold FastPriorityQueue.isEmpty,
    FastPriorityQueue.size. rewrite length_fmap.
  destruct (Nat.eqb (length array) 0); [done|].
  rewrite poll_fmap.
  destruct (FastPriorityQueue.poll compareA array) as [[x|] array'];
    simpl; [|done].
  by rewrite IH.
Qed.

Lemma drain_fmap (array : list A) :
  FastPriorityQueue.drain compareB (f <$> array) =
  f <$> FastPriorityQueue.drain compareA array.
Proof.
  unfold FastPriorityQueue.drain, FastPriorityQueue.size.
  by rewrite length_fmap, drain_loop_fmap.
Qed.

End QueueMap.

Section LoopsAgree.
Variable f : SearchResult → SearchResult.
Hypothesis similarity_f : ∀ r, similarity (f r) = similarity r.

Lemma by_similarity_f x y : by_similarity (f x) (f y) = by_similarity x y.
Proof. unfold by_similarity. by rewrite !similarity_f. Qed.

Lemma offer_fmap topK c queue :
  offer topK (f c) (f <$> queue) = f <$> offer topK c queue.
Proof.
  unfold offer, FastPriorityQueue.size, FastPriorityQueue.peek.
  rewrite length_fmap, list_lookup_fmap.
  destruct (_ <? _)%Z.
  { apply (add_fmap by_similarity by_similarity f by_similarity_f). }
  destruct (queue !! 0) as [peeked|]; simpl; [|done].
  rewrite !similarity_f. destruct (JSNumber.gt _ _); [|done].
  rewrite (poll_fmap by_similarity by_similarity f by_similarity_f).
  apply (add_fmap by_similarity by_similarity f by_similarity_f).
Qed.

Lemma queue_after_fmap topK candidates :
  queue_after topK (f <$> candidates) = f <$> queue_after topK candidates.
Proof.
  induction candidates as [|c seen IH] using rev_ind; [done|].
  rewrite fmap_app. change (f <$> [c]) with [f c].
  by rewrite !queue_after_snoc, IH, offer_fmap.
Qed.

Lemma results_of_fmap queue :
  results_of (f <$> queue) = f <$> results_of queue.
Proof.
  unfold results_of.
  rewrite (drain_fmap by_similarity by_similarity f by_similarity_f).
  by rewrite fmap_reverse.
Qed.

End LoopsAgree.

Section CandidatesAgree.
Context `{Builtins}.

Lemma snapshot_candidates_of_index m queryEmbedding filter objects :
  (∀ o, o ∈ objects → matches filter (m o) = true →
        Array_isArray (embedding_of (m o)) = true) →
  snapshot_candidates queryEmbedding filter (m <$> objects) =
  as_snapshot m <$> local_candidates m queryEmbedding filter objects.
Proof.
  unfold snapshot_candidates, local_candidates.
  induction objects as [|o objects IH]; intros Harr; [done|].
  assert (∀ o', o' ∈ objects → matches filter (m o') = true →
                Array_isArray (embedding_of (m o')) = true) as Hrest.
  { intros o' Ho'. apply Harr. by right. }
  cbn [fmap list_fmap List.filter].
  destruct (matches filter (m o)) eqn:Hm.
  - rewrite (Harr o) by (done || by left). simpl. f_equal. by apply IH.
  - simpl. by apply IH.
Qed.

End CandidatesAgree.

(** The loop of the search over storage is the loop of the search over
    the records of the index, but for the check that the embedding is an
    array: when the snapshot ranked holds the records of the index, in
    their order, and every record that passes the filter has an array for
    embedding, the search over storage returns what the local search
    returns, result by result, with the same similarities. *)
Theorem search_storage_agrees_with_local `{Builtins} (w : world)
  (queryEmbedding : value) (K : option Z) (filter : option Filter)
  (storageOptions : option storageOptions_t) :
  let DBname := DBname_of storageOptions in
  let objectStoreName := objectStoreName_of storageOptions in
  is_Some (indexedDB w) →
  records_searched DBname objectStoreName w
    = Some (mem w <$> objects (this w)) →
  (∀ o, o ∈ matching (default ∅ filter) w →
        Array_isArray (embedding_of (mem w o)) = true) →
  ∃ results,
    search queryEmbedding (local_options K filter) w = (Normal results, w) ∧
    (search queryEmbedding (storage_options K filter storageOptions) w).1
      = Normal (as_snapshot (mem w) <$> results) ∧
    similarities (as_snapshot (mem w) <$> results) = similarities results.
Proof.
  intros DBname objectStoreName Hidb Hrecords Harr.
  eexists. split; [apply search_local_options|].
  destruct (search_storage_records queryEmbedding K filter storageOptions w
              _ Hidb Hrecords) as (w' & -> & _).
  cbn [fst]. split.
  - rewrite snapshot_candidates_of_index.
    + rewrite queue_after_fmap, results_of_fmap; done.
    + intros o Ho Hm. apply Harr. unfold matching.
      apply list_elem_of_In, filter_In. split; [by apply list_elem_of_In|done].
  - unfold similarities. rewrite <-list_fmap_compose.
    by apply list_fmap_ext.
Qed.

Lemma search_storage_agrees_with_local_witness :
  is_Some (indexedDB mirrored_index) ∧
  records_searched (DBname_of None) (objectStoreName_of None) mirrored_index
    = Some (mem mirrored_index <$> objects (this mirrored_index)) ∧
  ∃ results,
    search (H := sample_builtins) query_1_0 (local_options None None)
      mirrored_index = (Normal results, mirrored_index) ∧
    (search (H := sample_builtins) query_1_0
       (storage_options None None None) mirrored_index).1
      = Normal (as_snapshot (mem mirrored_index) <$> results).
Proof.
  assert (is_Some (indexedDB mirrored_index)) as Hidb.
  { assert (indexedDB mirrored_index = working_storage) as ->
      by (vm_compute; reflexivity).
    by eexists. }
  assert (records_searched (DBname_of None) (objectStoreName_of None)
            mirrored_index
          = Some (mem mirrored_index <$> objects (this mirrored_index)))
    as Hrecords by (vm_compute; reflexivity).
  assert (∀ o, o ∈ matching (default ∅ None) mirrored_index →
               Array_isArray (embedding_of (mem mirrored_index o))
               = true) as Harr.
  { assert (matching (default ∅ None) mirrored_index = [1; 3]) as ->
      by (vm_compute; reflexivity).
    intros o Hin.
    apply elem_of_cons in Hin as [->|Hin]; [vm_compute; reflexivity|].
    apply elem_of_cons in Hin as [->|Hin]; [vm_compute; reflexivity|].
    apply elem_of_nil in Hin. destruct Hin. }
  split; [exact Hidb|]. split; [exact Hrecords|].
  destruct (search_storage_agrees_with_local (H := sample_builtins)
              mirrored_index query_1_0 None None None Hidb Hrecords Harr)
    as (results & Hlocal & Hstorage & _).
  exists results. split; [exact Hlocal|exact Hstorage].
Defined.

(* ===================================================================== *)
(** ** add followed by remove *)
(* ===================================================================== *)

Lemma findIndex_snoc {A} (p : A → bool) l x :
  Forall (λ y, p y = false) l → p x = true →
  findIndex p (l ++ [x]) = Some (length l).
Proof.
  intros Hnone Hx. induction Hnone as [|y l Hy _ IH]; simpl.
  - by rewrite Hx.
  - by rewrite Hy, IH.
Qed.

Lemma delete_snoc {A} (l : list A) x : delete (length l) (l ++ [x]) = l.
Proof.
  induction l as [|y l IH]; simpl; [done|]. by rewrite IH.
Qed.

(** When no record of the store matches a filter and the record added
    does, [remove(filter)] after the [add] takes the new record out
    again: the store holds the records it held before, in their order.
    The schema that the [add] may have set is not taken back. *)
Theorem add_then_remove_restores_records `{Builtins} (filter : Filter)
  (o : loc) (w w1 : world) :
  add o w = (Normal tt, w1) →
  matching filter w = [] →
  matches filter (mem w o) = true →
  ∃ w2,
    remove filter w1 = (Normal tt, w2) ∧
    objects (this w2) = objects (this w) ∧
    keys (this w2) = schema_with (keys (this w)) (mem w o) ∧
    store_only w w2.
Proof.
  unfold add. rewrite validateAndAdd_acceptable.
  destruct (acceptable _ _); [|done]. intros [= <-] Hnone Hm.
  rewrite remove_run. cbn [mem with_this this objects set_objects].
  rewrite (findIndex_snoc _ _ o).
  - eexists. split; [done|]. simpl. rewrite delete_snoc. by repeat split.
  - unfold matching in Hnone. clear Hm.
    induction (objects (this w)) as [|o' os IH]; [constructor|].
    simpl in Hnone. destruct (matches filter (mem w o')) eqn:Ho'; [done|].
    constructor; [done|]. by apply IH.
  - done.
Qed.

Lemma add_then_remove_restores_records_witness :
  add (H := sample_builtins) 6 one_record_indexed
    = (Normal tt, (add (H := sample_builtins) 6 one_record_indexed).2) ∧
  matching (by_id 6) one_record_indexed = [] ∧
  matches (by_id 6) (mem one_record_indexed 6) = true ∧
  ∃ w2,
    remove (by_id 6) (add (H := sample_builtins) 6 one_record_indexed).2
      = (Normal tt, w2) ∧
    objects (this w2) = objects (this one_record_indexed).
Proof.
  assert (add (H := sample_builtins) 6 one_record_indexed
    = (Normal tt, (add (H := sample_builtins) 6 one_record_indexed).2))
    as Hadd.
  { apply injective_projections; [vm_compute; reflexivity|reflexivity]. }
  assert (matching (by_id 6) one_record_indexed = []) as Hnone
    by (vm_compute; reflexivity).
  assert (matches (by_id 6) (mem one_record_indexed 6) = true) as Hm
    by (vm_compute; reflexivity).
  split; [exact Hadd|]. split; [exact Hnone|]. split; [exact Hm|].
  destruct (add_then_remove_restores_records (H := sample_builtins)
              (by_id 6) 6 one_record_indexed _ Hadd Hnone Hm)
    as (w2 & Hrun & Hobjects & _).
  exists w2. split; [exact Hrun|exact Hobjects].
Defined.

(* ===================================================================== *)
(** ** More on the local search *)
(* ===================================================================== *)

(** When [topK] is at least the number of records that pass the filter,
    a search over the records of the index returns all of them, each
    once for each time the store holds it, whether or not some
    similarity is NaN. *)
Theorem search_local_returns_all_when_room `{Builtins} (w : world)
  (queryEmbedding : value) (K : option Z) (filter : option Filter)
  (useStorage : option StorageOptions)
  (storageOptions : option storageOptions_t) :
  let candidates :=
    local_candidates (mem w) queryEmbedding (default ∅ filter)
      (objects (this w)) in
  local_source useStorage = true →
  (Z.of_nat (length candidates) ≤ topK_of K)%Z →
  ∃ results,
    search queryEmbedding (options_of K filter useStorage storageOptions) w
      = (Normal results, w) ∧
    results ≡ₚ candidates.
Proof.
  intros candidates Hlocal Hroom.
  eexists. split; [by apply search_local|]. fold candidates.
  rewrite results_of_Permutation.
  destruct (queue_after_split (topK_of K) candidates) as [left_out Hperm].
  pose proof (queue_after_length (topK_of K) candidates) as Hlen.
  revert Hperm Hlen. generalize (queue_after (topK_of K) candidates).
  intros queue Hperm Hlen.
  assert (left_out = []) as ->.
  { apply Permutation_length in Hperm. rewrite length_app in Hperm.
    destruct left_out; [done|]. simpl in Hperm. lia. }
  by rewrite Hperm, app_nil_r.
Qed.

Lemma search_local_returns_all_when_room_witness :
  local_source None = true ∧
  (Z.of_nat
     (length
        (local_candidates (H := sample_builtins) (mem four_records_indexed)
           query_1_0 (default ∅ None) (objects (this four_records_indexed))))
   ≤ topK_of (Some 4%Z))%Z ∧
  ∃ results,
    search (H := sample_builtins) query_1_0
      (options_of (Some 4%Z) None None None) four_records_indexed
      = (Normal results, four_records_indexed) ∧
    length results = 4.
Proof.
  assert (local_source None = true) as Hlocal by reflexivity.
  assert (Z.of_nat
     (length
        (local_candidates (H := sample_builtins) (mem four_records_indexed)
           query_1_0 (default ∅ None) (objects (this four_records_indexed))))
   ≤ topK_of (Some 4%Z))%Z as Hroom.
  { vm_compute. discriminate. }
  split; [exact Hlocal|]. split; [exact Hroom|].
  destruct (search_local_returns_all_when_room (H := sample_builtins)
              four_records_indexed query_1_0 (Some 4%Z) None None None
              Hlocal Hroom) as (results & Hsearch & Hperm).
  exists results. split; [exact Hsearch|].
  apply Permutation_length in Hperm. rewrite Hperm.
  vm_compute. reflexivity.
Defined.

(** An [update] whose patch has no [embedding] attribute leaves every
    embedding as it was, so a search over the records of the index
    without filter returns the same results after it as before. *)
Theorem update_without_embedding_keeps_ranking `{Builtins}
  (filter : Filter) (vector : loc) (w : world) (queryEmbedding : value)
  (K : option Z) :
  has_prop (mem w vector) "embedding" = false →
  let w' := (update filter vector w).2 in
  (∀ o, embedding_of (mem w' o) = embedding_of (mem w o)) ∧
  (search queryEmbedding (local_options K None) w').1 =
  (search queryEmbedding (local_options K None) w).1.
Proof.
  intros Hpatch w'.
  assert (objects (this w') = objects (this w) ∧
          ∀ o, embedding_of (mem w' o)
               = embedding_of (mem w o)) as [Hobjects Hembedding].
  { unfold w'. rewrite update_run. rewrite has_prop_embedding in Hpatch.
    destruct (findIndex _ _) as [index|]; [|done].
    destruct (has_own (mem w vector) "hasOwnProperty"); [done|].
    rewrite Hpatch. destruct (_ !! index) as [target|]; [|done].
    split; [done|]. intros o. simpl.
    destruct (decide (target = o)) as [<-|Hne];
      [|by rewrite fn_lookup_insert_ne].
    rewrite fn_lookup_insert. unfold embedding_of.
    rewrite Object_assign_lookup by done.
    rewrite lookup_union_r; [done|]. by apply has_own_false. }
  split; [exact Hembedding|].
  assert (local_candidates (mem w') queryEmbedding ∅ (objects (this w')) =
          local_candidates (mem w) queryEmbedding ∅ (objects (this w)))
    as Hcandidates.
  { unfold local_candidates. rewrite Hobjects. clear Hobjects.
    induction (objects (this w)) as [|o os IH]; [done|].
    cbn [List.filter]. rewrite !matches_empty. cbn [map].
    by rewrite IH, Hembedding. }
  rewrite !search_local_options. cbn [fst].
  change (default ∅ None) with (∅ : Filter). by rewrite Hcandidates.
Qed.

Lemma update_without_embedding_keeps_ranking_witness :
  has_prop (mem two_records_indexed 8) "embedding" = false ∧
  (search (H := sample_builtins) query_1_0 (local_options None None)
     (update (H := sample_builtins) (by_id 3) 8 two_records_indexed).2).1 =
  (search (H := sample_builtins) query_1_0 (local_options None None)
     two_records_indexed).1.
Proof.
  assert (has_prop (mem two_records_indexed 8) "embedding" = false) as Hpatch
    by (vm_compute; reflexivity).
  split; [exact Hpatch|].
  exact (proj2 (update_without_embedding_keeps_ranking (H := sample_builtins)
                  (by_id 3) 8 two_records_indexed query_1_0 None Hpatch)).
Defined.

(** A record whose similarity is NaN is returned only if it is among the
    first [topK] records that pass the filter: once the queue is full a
    candidate enters it by being greater than its head, which NaN never
    is.  So when the first [topK] matching records have a similarity
    other than NaN, so has every result, whatever the later records
    score. *)
Theorem search_local_never_admits_NaN_late `{Builtins} (w : world)
  (queryEmbedding : value) (K : option Z) (filter : option Filter)
  (useStorage : option StorageOptions)
  (storageOptions : option storageOptions_t) :
  let candidates :=
    local_candidates (mem w) queryEmbedding (default ∅ filter)
      (objects (this w)) in
  local_source useStorage = true →
  Forall comparable (take (Z.to_nat (topK_of K)) candidates) →
  ∃ results,
    search queryEmbedding (options_of K filter useStorage storageOptions) w
      = (Normal results, w) ∧
    Forall comparable results.
Proof.
  intros candidates Hlocal Hall.
  eexists. split; [by apply search_local|]. fold candidates.
  rewrite results_of_Permutation.
  by destruct (queue_after_heap (topK_of K) candidates Hall).
Qed.

Lemma search_local_never_admits_NaN_late_witness :
  local_source None = true ∧
  Forall comparable
    (take (Z.to_nat (topK_of (Some 1%Z)))
       (local_candidates (H := sample_builtins) (mem four_records_indexed)
          query_1_0 (default ∅ None) (objects (this four_records_indexed)))) ∧
  ¬ Forall comparable
      (local_candidates (H := sample_builtins) (mem four_records_indexed)
         query_1_0 (default ∅ None) (objects (this four_records_indexed))) ∧
  ∃ results,
    search (H := sample_builtins) query_1_0
      (options_of (Some 1%Z) None None None) four_records_indexed
      = (Normal results, four_records_indexed) ∧
    Forall comparable results.
Proof.
  assert (local_source None = true) as Hlocal by reflexivity.
  assert (Forall comparable
    (take (Z.to_nat (topK_of (Some 1%Z)))
       (local_candidates (H := sample_builtins) (mem four_records_indexed)
          query_1_0 (default ∅ None) (objects (this four_records_indexed)))))
    as Hall.
  { vm_compute. repeat constructor. }
  split; [exact Hlocal|]. split; [exact Hall|]. split.
  { intros Hnone. vm_compute in Hnone.
    apply Forall_cons in Hnone as [_ Hnone].
    apply Forall_cons in Hnone as [Hnan _]. discriminate Hnan. }
  exact (search_local_never_admits_NaN_late (H := sample_builtins)
           four_records_indexed query_1_0 (Some 1%Z) None None None
           Hlocal Hall).
Defined.
